(** * View validation core: schema model, relationship graph, validator,
      deduplicator and SQL compiler

    A shallow embedding of [schema_parser.py], [models.py] and
    [validator.py].  Python [str] values are embedded as [string]; the
    character classes below are the ASCII restrictions of Python's Unicode
    predicates ([str.isspace], [str.isalnum], [str.lower], regex [\w] and
    [\s]), so every statement is about ASCII text. *)

From Stdlib Require Import List String Ascii Bool Arith PeanoNat Lia.
From Stdlib Require Import QArith.QArith_base.
From Stdlib Require Import DecimalString.
From Stdlib Require Import Permutation.
Import ListNotations.

Local Open Scope string_scope.
Local Open Scope list_scope.
Local Open Scope bool_scope.
Local Open Scope nat_scope.

(** ** Exceptions *)

Inductive exn : Type :=
| IndexError
| ValueError (msg : string).

Inductive result (A : Type) : Type :=
| Ok (a : A)
| Raise (e : exn).

Arguments Ok {A} a.
Arguments Raise {A} e.

Definition bind {A B : Type} (m : result A) (k : A -> result B) : result B :=
  match m with
  | Ok a => k a
  | Raise e => Raise e
  end.

Notation "x <- m ;; k" := (bind m (fun x => k))
  (at level 61, m at next level, right associativity).

Definition is_ok {A : Type} (m : result A) : bool :=
  match m with Ok _ => true | Raise _ => false end.

(** ** Python string primitives *)

Module Py.

Definition code (c : ascii) : nat := nat_of_ascii c.

Definition between (lo hi : nat) (c : ascii) : bool :=
  (lo <=? code c) && (code c <=? hi).

(** [str.isspace] on ASCII: TAB..CR, FS..US and the space. *)
Definition isspace (c : ascii) : bool := between 9 13 c || between 28 32 c.
Definition isupper (c : ascii) : bool := between 65 90 c.
Definition islower (c : ascii) : bool := between 97 122 c.
Definition isdigit (c : ascii) : bool := between 48 57 c.
Definition isalnum_char (c : ascii) : bool := isdigit c || isupper c || islower c.
(** Regex class [\w]. *)
Definition isword (c : ascii) : bool := isalnum_char c || Ascii.eqb c "_".

Definition lower_char (c : ascii) : ascii :=
  if isupper c then ascii_of_nat (code c + 32) else c.
Definition upper_char (c : ascii) : ascii :=
  if islower c then ascii_of_nat (code c - 32) else c.

Fixpoint map_str (f : ascii -> ascii) (s : string) : string :=
  match s with
  | EmptyString => EmptyString
  | String c r => String (f c) (map_str f r)
  end.

Fixpoint filter_str (f : ascii -> bool) (s : string) : string :=
  match s with
  | EmptyString => EmptyString
  | String c r => if f c then String c (filter_str f r) else filter_str f r
  end.

Fixpoint forall_str (f : ascii -> bool) (s : string) : bool :=
  match s with
  | EmptyString => true
  | String c r => f c && forall_str f r
  end.

Fixpoint exists_str (f : ascii -> bool) (s : string) : bool :=
  match s with
  | EmptyString => false
  | String c r => f c || exists_str f r
  end.

Definition lower : string -> string := map_str lower_char.
Definition upper : string -> string := map_str upper_char.

(** [not s]: the empty string is falsy. *)
Definition truthy (s : string) : bool := negb (String.eqb s "").

(** [c in s] for a one-character needle. *)
Definition contains_char (c : ascii) : string -> bool := exists_str (Ascii.eqb c).

(** [needle in s]. *)
Definition contains (needle s : string) : bool :=
  match String.index 0 needle s with Some _ => true | None => false end.

Fixpoint rev_str (s : string) : string :=
  match s with
  | EmptyString => EmptyString
  | String c r => String.append (rev_str r) (String c EmptyString)
  end.

Definition endswith (s suffix : string) : bool :=
  String.prefix (rev_str suffix) (rev_str s).

Fixpoint lstrip (s : string) : string :=
  match s with
  | EmptyString => EmptyString
  | String c r => if isspace c then lstrip r else s
  end.

Fixpoint rstrip (s : string) : string :=
  match s with
  | EmptyString => EmptyString
  | String c r =>
      let r' := rstrip r in
      if isspace c && String.eqb r' "" then EmptyString else String c r'
  end.

Definition strip (s : string) : string := rstrip (lstrip s).

(** [s.replace(a, b)] for one-character [a] and [b]. *)
Definition replace_char (a b : ascii) : string -> string :=
  map_str (fun c => if Ascii.eqb c a then b else c).

(** [s.replace(a, '')] for a one-character [a]. *)
Definition remove_char (a : ascii) : string -> string :=
  filter_str (fun c => negb (Ascii.eqb c a)).

(** [s.isalnum()]: non-empty and every character alphanumeric. *)
Definition isalnum (s : string) : bool := truthy s && forall_str isalnum_char s.

Definition snoc (s : string) (c : ascii) : string :=
  String.append s (String c EmptyString).

(** [s.split()]: the maximal runs of non-whitespace characters. *)
Fixpoint split_ws_from (cur s : string) : list string :=
  match s with
  | EmptyString => if truthy cur then [cur] else []
  | String c r =>
      if isspace c
      then (if truthy cur then cur :: split_ws_from "" r else split_ws_from "" r)
      else split_ws_from (snoc cur c) r
  end.
Definition split_ws : string -> list string := split_ws_from "".

(** [s.split(sep)] for a one-character separator. *)
Fixpoint split_from (sep : ascii) (cur s : string) : list string :=
  match s with
  | EmptyString => [cur]
  | String c r =>
      if Ascii.eqb c sep then cur :: split_from sep "" r
      else split_from sep (snoc cur c) r
  end.
Definition split (sep : ascii) : string -> list string := split_from sep "".

(** [sep.join(l)]. *)
Fixpoint join (sep : string) (l : list string) : string :=
  match l with
  | [] => ""
  | [x] => x
  | x :: r => String.append x (String.append sep (join sep r))
  end.

(** [str(n)] for a non-negative integer. *)
Definition str_of_nat (n : nat) : string := NilEmpty.string_of_uint (Nat.to_uint n).

(** [l[0]]. *)
Definition first {A : Type} (l : list A) : result A :=
  match l with
  | [] => Raise IndexError
  | x :: _ => Ok x
  end.

(** Membership in a collection of strings. *)
Definition mem (x : string) (l : list string) : bool := existsb (String.eqb x) l.

(** Insertion-ordered removal of duplicates (the elements of [set(l)]). *)
Fixpoint dedup (l : list string) : list string :=
  match l with
  | [] => []
  | x :: r => if mem x r then dedup r else x :: dedup r
  end.

(** *** Regular expressions used by the validator *)

(** [re.findall(r'[a-z0-9]+', s)]. *)
Definition istoken (c : ascii) : bool := islower c || isdigit c.
Fixpoint token_runs_from (cur s : string) : list string :=
  match s with
  | EmptyString => if truthy cur then [cur] else []
  | String c r =>
      if istoken c then token_runs_from (snoc cur c) r
      else (if truthy cur then cur :: token_runs_from "" r else token_runs_from "" r)
  end.
Definition findall_tokens : string -> list string := token_runs_from "".

(** [re.findall(r'(\w+)\.(\w+)', s)].  The string is cut into maximal word
    runs, dots and other characters; a match is a word run, a dot and a
    word run in a row, and scanning resumes after the match. *)
Inductive tok : Type :=
| TWord (w : string)
| TDot
| TOther.

Definition flush (cur : string) : list tok :=
  if truthy cur then [TWord cur] else [].

Fixpoint lex_from (cur s : string) : list tok :=
  match s with
  | EmptyString => flush cur
  | String c r =>
      if isword c then lex_from (snoc cur c) r
      else flush cur ++ (if Ascii.eqb c "." then TDot else TOther) :: lex_from "" r
  end.

Fixpoint qualified_refs (ts : list tok) : list (string * string) :=
  match ts with
  | [] => []
  | t :: rest =>
      match t, rest with
      | TWord a, TDot :: TWord b :: rest' => (a, b) :: qualified_refs rest'
      | _, _ => qualified_refs rest
      end
  end.

Definition findall_qualified (s : string) : list (string * string) :=
  qualified_refs (lex_from "" s).

(** [re.sub(r'\s+(DESC|ASC)$', '', s, flags=re.IGNORECASE)].  [$] matches at
    the end of the string and before a final newline, so the keyword is
    looked for at the end of [s] without its final newline, and the whole
    run of whitespace before it goes with it. *)
Definition newline : ascii := ascii_of_nat 10.

Definition drop_keyword (body : string) : option string :=
  let r := rev_str (lower body) in
  let cut (k : nat) : option string :=
    let before := substring 0 (String.length body - k) body in
    if String.eqb (rstrip before) before then None else Some (rstrip before) in
  if String.prefix "csed" r then cut 4
  else if String.prefix "csa" r then cut 3
  else None.

Definition sub_order_suffix (s : string) : string :=
  let r := rev_str s in
  match r with
  | String c r' =>
      if Ascii.eqb c newline
      then match drop_keyword (rev_str r') with
           | Some p => snoc p newline
           | None => s
           end
      else match drop_keyword s with
           | Some p => p
           | None => s
           end
  | EmptyString => s
  end.

End Py.

(** ** Insertion-ordered dictionaries keyed by strings *)

Module Dict.

Definition t (V : Type) : Type := list (string * V).

(** [d[k] = v]: an existing key keeps its position. *)
Fixpoint set {V : Type} (k : string) (v : V) (d : t V) : t V :=
  match d with
  | [] => [(k, v)]
  | (k', v') :: r =>
      if String.eqb k' k then (k', v) :: r else (k', v') :: set k v r
  end.

Definition keys {V : Type} (d : t V) : list string := map fst d.

(** [k in d]. *)
Definition has_key {V : Type} (k : string) (d : t V) : bool := Py.mem k (keys d).

End Dict.

(** ** The part of [networkx.DiGraph] the schema parser uses *)

Module Nx.

Record EdgeData : Type := mkEdgeData {
  column : string;
  references : string;
  direction : string
}.

(** Nodes in insertion order, and one attribute dictionary per ordered pair
    of nodes: a directed graph without parallel edges. *)
Record DiGraph : Type := mkDiGraph {
  nodes : list string;
  adj : list ((string * string) * EdgeData)
}.

Definition empty : DiGraph := mkDiGraph [] [].

Definition pair_eqb (a b : string * string) : bool :=
  String.eqb (fst a) (fst b) && String.eqb (snd a) (snd b).

Definition add_node (u : string) (ns : list string) : list string :=
  if Py.mem u ns then ns else ns ++ [u].

Fixpoint set_adj (k : string * string) (d : EdgeData)
  (es : list ((string * string) * EdgeData)) : list ((string * string) * EdgeData) :=
  match es with
  | [] => [(k, d)]
  | (k', d') :: r =>
      if pair_eqb k' k then (k', d) :: r else (k', d') :: set_adj k d r
  end.

(** [G.add_edge(u, v, column=.., references=.., direction=..)]: both end
    points become nodes; an edge already present from [u] to [v] has its
    three attributes overwritten. *)
Definition add_edge (g : DiGraph) (u v : string) (d : EdgeData) : DiGraph :=
  mkDiGraph (add_node v (add_node u (nodes g))) (set_adj (u, v) d (adj g)).

(** [n in G]. *)
Definition has_node (g : DiGraph) (n : string) : bool := Py.mem n (nodes g).

(** [G.get_edge_data(u, v)]. *)
Definition get_edge_data (g : DiGraph) (u v : string) : option EdgeData :=
  option_map snd (find (fun e => pair_eqb (fst e) (u, v)) (adj g)).

Definition has_edge (g : DiGraph) (u v : string) : bool :=
  match get_edge_data g u v with Some _ => true | None => false end.

Definition successors (g : DiGraph) (u : string) : list string :=
  map (fun e => snd (fst e)) (filter (fun e => String.eqb (fst (fst e)) u) (adj g)).

(** A walk: consecutive nodes are joined by an edge. *)
Fixpoint walk (g : DiGraph) (p : list string) : Prop :=
  match p with
  | [] => True
  | x :: r =>
      match r with
      | [] => True
      | y :: _ => has_edge g x y = true /\ walk g r
      end
  end.

Definition is_path (g : DiGraph) (s t : string) (p : list string) : Prop :=
  hd_error p = Some s /\ last p s = t /\ p <> [] /\ walk g p.

(** What is used of [networkx.shortest_path(G, source, target)] for nodes
    of [G]: the result is a walk from [source] to [target]; the exception
    [NetworkXNoPath] (here [None]) is raised only when there is none; and
    the path from a node to itself is that node alone.  Which of several
    paths is returned is left open. *)
Class ShortestPath : Type := {
  shortest_path : DiGraph -> string -> string -> option (list string);
  shortest_path_sound : forall g s t p,
    shortest_path g s t = Some p -> is_path g s t p;
  shortest_path_complete : forall g s t p,
    has_node g s = true -> has_node g t = true ->
    is_path g s t p -> shortest_path g s t <> None;
  shortest_path_self : forall g s,
    has_node g s = true -> shortest_path g s s = Some [s]
}.

(** *** Breadth-first search, an executable instance of the contract *)

(** The visited nodes in discovery order, each with the walk that reached
    it from the source. *)
Definition visited : Type := list (string * list string).

Definition visit (p : list string) (vis : visited) (m : string) : visited :=
  if Py.mem m (map fst vis) then vis else vis ++ [(m, p ++ [m])].

Definition expand (g : DiGraph) (vis : visited) (np : string * list string) : visited :=
  fold_left (visit (snd np)) (successors g (fst np)) vis.

(** One level: the successors of every node visited so far. *)
Definition bfs_round (g : DiGraph) (vis : visited) : visited :=
  fold_left (expand g) vis vis.

Fixpoint bfs_iter (g : DiGraph) (n : nat) (vis : visited) : visited :=
  match n with
  | 0 => vis
  | S k => bfs_iter g k (bfs_round g vis)
  end.

Definition lookup (vis : visited) (t : string) : option (list string) :=
  option_map snd (find (fun np => String.eqb (fst np) t) vis).

Definition bfs_fuel (g : DiGraph) : nat := S (2 * List.length (adj g)).

Definition bfs (g : DiGraph) (s t : string) : option (list string) :=
  lookup (bfs_iter g (bfs_fuel g) [(s, [s])]) t.

End Nx.

(** ** schema_parser.py *)

Module SchemaParser.

Record Column : Type := mkColumn {
  col_name : string;
  col_type : string;
  col_description : string;
  is_primary_key : bool;
  is_foreign_key : bool;
  col_references : option (string * string)
}.

(** One entry of a table's ['foreign_keys'] array; a key that is absent
    reads as [None]. *)
Record ForeignKey : Type := mkForeignKey {
  fk_column : option string;
  fk_references_table : option string;
  fk_references_column : option string
}.

Record Table : Type := mkTable {
  tbl_name : string;
  columns : list Column;
  foreign_keys : list ForeignKey;
  tbl_description : string
}.

(** The schema document. *)
Record ColumnData : Type := mkColumnData {
  cd_name : option string;
  cd_type : option string;
  cd_description : option string
}.

Record TableData : Type := mkTableData {
  td_name : option string;
  td_description : option string;
  td_columns : list ColumnData;
  td_foreign_keys : list ForeignKey
}.

Record SchemaJson : Type := mkSchemaJson {
  sj_tables : option (list TableData)
}.

(** The records sent to [logger.warning]. *)
Inductive warning : Type :=
| TableWithoutName
| ColumnWithoutName (table : string)
| IncompleteForeignKey (table : string) (fk : ForeignKey)
| ReferencesMissingTable (table col ref_table : string)
| ReferencesMissingColumn (table col : string).

Record Schema : Type := mkSchema {
  tables : Dict.t Table;
  relationship_graph : Nx.DiGraph;
  log : list warning
}.

(** [d.get(key, default)]. *)
Definition get_or {A : Type} (default : A) (o : option A) : A :=
  match o with Some a => a | None => default end.

(** Truth value of an optional string: [None] and [''] are falsy. *)
Definition truthy_opt (o : option string) : bool :=
  match o with Some s => Py.truthy s | None => false end.

Definition name_matches (a b : string) : bool :=
  String.eqb (Py.lower a) (Py.lower b).

(** [Table.get_column]: the first column whose name matches. *)
Definition get_column (t : Table) (name : string) : option Column :=
  find (fun c => name_matches (col_name c) name) (columns t).

(** *** First pass: tables and columns *)

Definition parse_column (table_name : string)
  (acc : list Column * list warning) (cd : ColumnData) : list Column * list warning :=
  match cd_name cd with
  | Some n =>
      if Py.truthy n
      then (fst acc ++ [mkColumn n (get_or "unknown" (cd_type cd))
                          (get_or "" (cd_description cd)) false false None],
            snd acc)
      else (fst acc, snd acc ++ [ColumnWithoutName table_name])
  | None => (fst acc, snd acc ++ [ColumnWithoutName table_name])
  end.

Definition parse_table (acc : Dict.t Table * list warning) (td : TableData)
  : Dict.t Table * list warning :=
  match td_name td with
  | Some n =>
      if Py.truthy n
      then
        let '(cols, lg) := fold_left (parse_column n) (td_columns td) ([], snd acc) in
        (Dict.set n (mkTable n cols (td_foreign_keys td) (get_or "" (td_description td)))
           (fst acc), lg)
      else (fst acc, snd acc ++ [TableWithoutName])
  | None => (fst acc, snd acc ++ [TableWithoutName])
  end.

Definition first_pass (tds : list TableData) : Dict.t Table * list warning :=
  fold_left parse_table tds ([], []).

(** *** Second pass: foreign keys *)

Definition set_foreign_key (c : Column) (ref : string * string) : Column :=
  mkColumn (col_name c) (col_type c) (col_description c) (is_primary_key c)
    true (Some ref).

(** [column = table.get_column(col_name)] followed by the two assignments
    to the column found; [None] when there is no such column. *)
Fixpoint mark_foreign_key (name : string) (ref : string * string)
  (cols : list Column) : option (list Column) :=
  match cols with
  | [] => None
  | c :: r =>
      if name_matches (col_name c) name
      then Some (set_foreign_key c ref :: r)
      else option_map (cons c) (mark_foreign_key name ref r)
  end.

Definition forward_edge (c rc : string) : Nx.EdgeData := Nx.mkEdgeData c rc "forward".
Definition reverse_edge (c rc : string) : Nx.EdgeData := Nx.mkEdgeData rc c "reverse".

(** The state of the second pass while one table is processed: that table's
    columns, the graph and the log. *)
Definition fk_state : Type := (list Column * Nx.DiGraph * list warning)%type.

(** The body of the loop over [table.foreign_keys]. *)
Definition process_fk (table_keys : list string) (table_name : string)
  (st : fk_state) (fk : ForeignKey) : fk_state :=
  let '(cols, g, lg) := st in
  if negb (truthy_opt (fk_column fk) && truthy_opt (fk_references_table fk)
           && truthy_opt (fk_references_column fk))
  then (cols, g, lg ++ [IncompleteForeignKey table_name fk])
  else
    let c := get_or "" (fk_column fk) in
    let ref_table := get_or "" (fk_references_table fk) in
    let ref_column := get_or "" (fk_references_column fk) in
    if negb (Py.mem ref_table table_keys)
    then (cols, g, lg ++ [ReferencesMissingTable table_name c ref_table])
    else
      match mark_foreign_key c (ref_table, ref_column) cols with
      | None => (cols, g, lg ++ [ReferencesMissingColumn table_name c])
      | Some cols' =>
          (cols',
           Nx.add_edge
             (Nx.add_edge g table_name ref_table (forward_edge c ref_column))
             ref_table table_name (reverse_edge c ref_column),
           lg)
      end.

Definition set_columns (t : Table) (cols : list Column) : Table :=
  mkTable (tbl_name t) cols (foreign_keys t) (tbl_description t).

(** The loop over [self.tables.items()]. *)
Fixpoint second_pass (table_keys : list string) (items : Dict.t Table)
  (g : Nx.DiGraph) (lg : list warning) : Dict.t Table * Nx.DiGraph * list warning :=
  match items with
  | [] => ([], g, lg)
  | (table_name, table) :: rest =>
      let '(cols, g1, lg1) :=
        fold_left (process_fk table_keys table_name) (foreign_keys table)
          (columns table, g, lg) in
      let '(rest', g2, lg2) := second_pass table_keys rest g1 lg1 in
      ((table_name, set_columns table cols) :: rest', g2, lg2)
  end.

(** *** Third pass: primary keys by name *)

Definition set_primary_key (c : Column) : Column :=
  mkColumn (col_name c) (col_type c) (col_description c) true
    (is_foreign_key c) (col_references c).

Definition identify_primary_key (c : Column) : Column :=
  if is_foreign_key c then c
  else if String.eqb (Py.lower (col_name c)) "id" then set_primary_key c
  else if Py.endswith (Py.lower (col_name c)) "_id"
          && Py.contains "int" (Py.lower (col_type c))
       then set_primary_key c
       else c.

Definition _identify_primary_keys (ts : Dict.t Table) : Dict.t Table :=
  map (fun kt => (fst kt, set_columns (snd kt) (map identify_primary_key (columns (snd kt))))) ts.

(** [SchemaParser.__init__] with [_parse]. *)
Definition _parse (raw_schema : SchemaJson) : result Schema :=
  match get_or [] (sj_tables raw_schema) with
  | [] => Raise (ValueError "Schema must contain 'tables' array")
  | tables_data =>
      let '(ts, lg) := first_pass tables_data in
      let '(ts2, g, lg2) := second_pass (Dict.keys ts) ts Nx.empty lg in
      Ok (mkSchema (_identify_primary_keys ts2) g lg2)
  end.

(** *** Lookups *)

Definition get_table (s : Schema) (table_name : string) : option Table :=
  option_map snd (find (fun kt => name_matches (fst kt) table_name) (tables s)).

Definition has_table (s : Schema) (table_name : string) : bool :=
  match get_table s table_name with Some _ => true | None => false end.

Definition has_column (s : Schema) (table_name column_name : string) : bool :=
  match get_table s table_name with
  | None => false
  | Some t => match get_column t column_name with Some _ => true | None => false end
  end.

Definition get_all_tables (s : Schema) : list string := Dict.keys (tables s).

(** *** Join paths *)

Definition hop : Type := (string * string * string * string)%type.

(** The loop that sets [t1] and [t2]: the last key that matches wins. *)
Definition normalize (s : Schema) (table : string) : option string :=
  fold_left (fun acc name => if name_matches name table then Some name else acc)
    (Dict.keys (tables s)) None.

(** The loop over [range(len(path_nodes) - 1)]. *)
Fixpoint join_conditions (g : Nx.DiGraph) (path_nodes : list string) : list hop :=
  match path_nodes with
  | [] => []
  | from_table :: rest =>
      match rest with
      | [] => []
      | to_table :: _ =>
          match Nx.get_edge_data g from_table to_table with
          | Some d =>
              (from_table, Nx.column d, to_table, Nx.references d)
                :: join_conditions g rest
          | None => join_conditions g rest
          end
      end
  end.

Section JoinPath.

Context {SP : Nx.ShortestPath}.

Definition get_join_path (s : Schema) (table1 table2 : string) : option (list hop) :=
  if String.eqb table1 table2 then Some []
  else
    let t1 := normalize s table1 in
    let t2 := normalize s table2 in
    if negb (truthy_opt t1) || negb (truthy_opt t2) then None
    else
      let n1 := get_or "" t1 in
      let n2 := get_or "" t2 in
      let g := relationship_graph s in
      if negb (Nx.has_node g n1) || negb (Nx.has_node g n2) then None
      else
        match Nx.shortest_path g n1 n2 with
        | None => None
        | Some path_nodes =>
            match join_conditions g path_nodes with
            | [] => None
            | join_path => Some join_path
            end
        end.

End JoinPath.

End SchemaParser.

(** ** models.py *)

Module Models.

Record JoinSpecification : Type := mkJoin {
  join_type : string;
  join_table : string;
  join_on : string
}.

Record QuerySpecification : Type := mkQuery {
  select : list string;
  from_table : string;
  joins : list JoinSpecification;
  where_ : option (list string);
  group_by : option (list string);
  having : option (list string);
  order_by : option (list string)
}.

(** The optional [metadata] dictionary is read by none of the functions
    embedded here and is left out. *)
Record ViewDefinition : Type := mkView {
  name : string;
  description : string;
  query : QuerySpecification
}.

(** [semantic_score] is never assigned by the validator and is left out. *)
Record ValidationResult : Type := mkResult {
  is_valid : bool;
  view_name : string;
  errors : list string;
  warnings : list string;
  sql : option string
}.

Definition valid_types : list string := ["INNER"; "LEFT"; "RIGHT"; "FULL"; "CROSS"].

(** The text of the exception ends with the printed set of valid types,
    whose order is not fixed; only its beginning is kept. *)
Definition validate_join_type (v : string) : result string :=
  let v_upper := Py.upper v in
  if negb (Py.mem v_upper valid_types)
  then Raise (ValueError (String.append "Invalid join type: " v))
  else Ok v_upper.

Definition keep_char (c : ascii) : bool := Py.isalnum_char c || Ascii.eqb c "_".

Definition validate_view_name (v : string) : result string :=
  let v := Py.strip (Py.lower v) in
  let v := Py.replace_char "-" "_" (Py.replace_char " " "_" v) in
  let v :=
    if negb (Py.isalnum (Py.remove_char "_" (Py.remove_char "_" v)))
    then Py.filter_str keep_char v
    else v in
  if negb (Py.truthy v)
  then Raise (ValueError "View name cannot be empty after sanitization")
  else Ok v.

(** Construction runs the field validators. *)
Definition JoinSpecification_new (type table on : string) : result JoinSpecification :=
  t <- validate_join_type type ;; Ok (mkJoin t table on).

Definition ViewDefinition_new (name description : string) (query : QuerySpecification)
  : result ViewDefinition :=
  n <- validate_view_name name ;; Ok (mkView n description query).

End Models.

(** ** validator.py *)

Module Validator.

Import SchemaParser Models.

(** An f-string: the pieces in a row. *)
Definition fstr (pieces : list string) : string := String.concat "" pieces.

Definition nl : string := String Py.newline EmptyString.

(** The order in which a Python [set] of strings is enumerated depends on
    the hash seed of the run.  [set_iter l] stands for the enumeration of
    the set into which the elements of [l] were inserted in that order: each
    element once, in some order. *)
Class SetOrder : Type := {
  set_iter : list string -> list string;
  set_iter_NoDup : forall l, NoDup (set_iter l);
  set_iter_In : forall l x, In x (set_iter l) <-> In x l
}.

(** [config.app]: whether the semantic check runs, and the two operations
    on the floating-point score, [score < min_semantic_score] and its
    rendering with three decimals; the score itself is kept as the exact
    quotient. *)
Record Config : Type := mkConfig {
  enable_semantic_validation : bool;
  below_min_semantic_score : Q -> bool;
  format_score : Q -> string
}.

Definition stop_words : list string :=
  ["the"; "a"; "an"; "and"; "or"; "but"; "in"; "on"; "at"; "to"; "for"].

Definition _tokenize (text : string) : list string :=
  Py.dedup
    (filter (fun t => (2 <? String.length t) && negb (Py.mem t stop_words))
       (Py.findall_tokens (Py.lower text))).

Definition table_tokens (t : Table) : list string :=
  Py.dedup
    (flat_map
       (fun col =>
          _tokenize (col_name col)
            ++ (if Py.truthy (col_description col)
                then _tokenize (col_description col) else []))
       (columns t)).

Definition intersection (a b : list string) : list string :=
  filter (fun x => Py.mem x b) a.

Definition union (a b : list string) : list string := Py.dedup (a ++ b).

Definition ratio (a b : nat) : Q := Qmake (Z.of_nat a) (Pos.of_nat b).

Definition semantic_score (t1 t2 : Table) : Q :=
  let tokens1 := table_tokens t1 in
  let tokens2 := table_tokens t2 in
  match tokens1, tokens2 with
  | [], _ => ratio 0 1
  | _, [] => ratio 0 1
  | _, _ =>
      match union tokens1 tokens2 with
      | [] => ratio 0 1
      | u => ratio (List.length (intersection tokens1 tokens2)) (List.length u)
      end
  end.

Definition _extract_table_name (table_spec : string) : result string :=
  x <- Py.first (Py.split_ws table_spec) ;; Ok (Py.strip x).

(** The text of an exception, [str(e)]. *)
Definition exn_str (e : exn) : string :=
  match e with
  | IndexError => "list index out of range"
  | ValueError msg => msg
  end.

Definition _compile_to_sql (view : ViewDefinition) : string :=
  let q := query view in
  let clause (kw sep : string) (o : option (list string)) : list string :=
    match o with
    | Some (x :: r) => [String.append kw (Py.join sep (x :: r))]
    | _ => []
    end in
  let sql_parts :=
    [String.append "SELECT " (Py.join ", " (select q));
     String.append "FROM " (from_table q)]
    ++ map (fun j => fstr [join_type j; " JOIN "; join_table j; " ON "; join_on j])
         (joins q)
    ++ clause "WHERE " " AND " (where_ q)
    ++ clause "GROUP BY " ", " (group_by q)
    ++ clause "HAVING " " AND " (having q)
    ++ clause "ORDER BY " ", " (order_by q) in
  String.append (Py.join nl sql_parts) ";".

Section ViewValidator.

Context {SP : Nx.ShortestPath} {SO : SetOrder}.
Variable config : Config.
Variable schema : Schema.

Definition _validate_join_path (base_table jtable : string)
  (join : JoinSpecification) (join_num : nat) : list string * list string :=
  match get_join_path schema base_table jtable with
  | None =>
      ([fstr ["Join #"; Py.str_of_nat join_num;
              ": No foreign key path exists between '"; base_table;
              "' and '"; jtable; "'"]], [])
  | Some _ =>
      match Py.split "=" (join_on join) with
      | [left_; right_] =>
          let left_parts := Py.split "." (Py.strip left_) in
          let right_parts := Py.split "." (Py.strip right_) in
          if negb (List.length left_parts =? 2) || negb (List.length right_parts =? 2)
          then ([], [fstr ["Join #"; Py.str_of_nat join_num;
                           ": Join condition should use qualified names ";
                           "(table.column = table.column)"]])
          else ([], [])
      | _ =>
          ([fstr ["Join #"; Py.str_of_nat join_num;
                  ": Invalid join condition format: '"; join_on join; "'. ";
                  "Expected format: 'table.column = table.column'"]], [])
      end
  end.

(** The warnings of [_validate_semantic_relevance]; the score it also
    returns is dropped by its caller. *)
Definition _validate_semantic_relevance (table1 table2 : string) (join_num : nat)
  : list string :=
  match get_table schema table1, get_table schema table2 with
  | Some t1, Some t2 =>
      let score := semantic_score t1 t2 in
      if below_min_semantic_score config score
      then [fstr ["Join #"; Py.str_of_nat join_num; ": Low semantic similarity (";
                  format_score config score; ") between '"; table1; "' and '";
                  table2; "'. Tables may not be semantically related."]]
      else []
  | _, _ => []
  end.

(** The loop [for table in tables] shared by the three reference checks:
    the first enumerated table that either has the name of the reference or
    is enumerated while the reference names some table of the schema is the
    one whose columns are searched. *)
Definition check_reference (clause_name : string) (tables : list string)
  (table_or_alias column : string) : list string :=
  match find (fun table =>
                String.eqb (Py.lower table) (Py.lower table_or_alias)
                || has_table schema table_or_alias) (set_iter tables) with
  | Some table =>
      if negb (has_column schema table column)
      then [fstr [clause_name; ": Column '"; column; "' does not exist in table '";
                  table; "'"]]
      else []
  | None => [fstr [clause_name; ": Unknown table reference '"; table_or_alias; "'"]]
  end.

Fixpoint _validate_select_columns (select_list : list string) (tables : list string)
  : result (list string) :=
  match select_list with
  | [] => Ok []
  | expr :: rest =>
      errs <-
        (if Py.contains_char "." expr
         then match Py.split "." expr with
              | p0 :: p1 :: _ =>
                  let table_or_alias := Py.strip p0 in
                  c <- Py.first (Py.split_ws (Py.strip p1)) ;;
                  Ok (check_reference "SELECT" tables table_or_alias (Py.strip c))
              | _ => Ok []
              end
         else Ok []) ;;
      more <- _validate_select_columns rest tables ;;
      Ok (errs ++ more)
  end.

Definition _validate_conditions (conditions : list string) (tables : list string)
  (clause_name : string) : list string :=
  flat_map
    (fun condition =>
       flat_map (fun m => check_reference clause_name tables (fst m) (snd m))
         (Py.findall_qualified condition))
    conditions.

Definition _validate_column_list (cols : list string) (tables : list string)
  (clause_name : string) : list string :=
  flat_map
    (fun col_expr =>
       let col_expr := Py.strip (Py.sub_order_suffix col_expr) in
       if Py.contains_char "." col_expr
       then match Py.split "." col_expr with
            | p0 :: p1 :: _ =>
                check_reference clause_name tables (Py.strip p0) (Py.strip p1)
            | _ => []
            end
       else [])
    cols.

(** The loop over [enumerate(view.query.joins)]; [tables_in_query] is kept
    as the sequence of insertions into the set. *)
Fixpoint validate_joins (base_table : string) (i : nat) (js : list JoinSpecification)
  (tables_in_query errors warnings : list string)
  : result (list string * list string * list string) :=
  match js with
  | [] => Ok (tables_in_query, errors, warnings)
  | join :: rest =>
      jtable <- _extract_table_name (join_table join) ;;
      let tables_in_query := tables_in_query ++ [jtable] in
      if negb (has_table schema jtable)
      then validate_joins base_table (S i) rest tables_in_query
             (errors ++ [fstr ["Join #"; Py.str_of_nat (i + 1); ": Table '"; jtable;
                               "' does not exist in schema"]])
             warnings
      else
        let '(join_errors, join_warnings) :=
          _validate_join_path base_table jtable join (i + 1) in
        let sem_warnings :=
          if enable_semantic_validation config
          then _validate_semantic_relevance base_table jtable (i + 1)
          else [] in
        validate_joins base_table (S i) rest tables_in_query
          (errors ++ join_errors) (warnings ++ join_warnings ++ sem_warnings)
  end.

(** [if clause: errors.extend(check(clause))]. *)
Definition when_present (o : option (list string)) (check : list string -> list string)
  : list string :=
  match o with
  | Some (x :: r) => check (x :: r)
  | _ => []
  end.

(** [validate_view], with the compiler called inside [try] as a parameter so
    that the [except] branch is covered. *)
Definition validate_view_with (compile : ViewDefinition -> result string)
  (view : ViewDefinition) : result ValidationResult :=
  let q := query view in
  base_table <- _extract_table_name (from_table q) ;;
  if negb (has_table schema base_table)
  then Ok (mkResult false (name view)
             [fstr ["Base table '"; base_table; "' does not exist in schema"]] [] None)
  else
    st <- validate_joins base_table 0 (joins q) [base_table] [] [] ;;
    let '(tables_in_query, errors, warnings) := st in
    select_errors <- _validate_select_columns (select q) tables_in_query ;;
    let errors := errors ++ select_errors in
    let errors := errors ++ when_present (where_ q)
                    (fun l => _validate_conditions l tables_in_query "WHERE") in
    let errors := errors ++ when_present (group_by q)
                    (fun l => _validate_column_list l tables_in_query "GROUP BY") in
    let errors := errors ++ when_present (having q)
                    (fun l => _validate_conditions l tables_in_query "HAVING") in
    let errors := errors ++ when_present (order_by q)
                    (fun l => _validate_column_list l tables_in_query "ORDER BY") in
    let '(sql, errors) :=
      match errors with
      | [] =>
          match compile view with
          | Ok text => (Some text, errors)
          | Raise e =>
              (None, errors ++ [String.append "SQL compilation failed: " (exn_str e)])
          end
      | _ => (None, errors)
      end in
    let is_valid := List.length errors =? 0 in
    Ok (mkResult is_valid (name view) errors warnings sql).

Definition validate_view : ViewDefinition -> result ValidationResult :=
  validate_view_with (fun view => Ok (_compile_to_sql view)).

End ViewValidator.

(** *** Deduplication *)

(** [sorted(l)] on strings: code-point order. *)
Fixpoint insert_sorted (x : string) (l : list string) : list string :=
  match l with
  | [] => [x]
  | y :: r => if String.leb x y then x :: l else y :: insert_sorted x r
  end.

Fixpoint sorted (l : list string) : list string :=
  match l with
  | [] => []
  | x :: r => insert_sorted x (sorted r)
  end.

(** A signature: the [frozenset] of tables, kept as the sequence of
    insertions, and the tuple of sorted columns. *)
Definition signature : Type := (list string * list string)%type.

Fixpoint join_tables (js : list JoinSpecification) : result (list string) :=
  match js with
  | [] => Ok []
  | j :: rest =>
      t <- Py.first (Py.split_ws (join_table j)) ;;
      ts <- join_tables rest ;;
      Ok (t :: ts)
  end.

Definition view_signature (view : ViewDefinition) : result signature :=
  b <- Py.first (Py.split_ws (from_table (query view))) ;;
  js <- join_tables (joins (query view)) ;;
  Ok (b :: js, sorted (select (query view))).

(** Equality of frozensets: the same elements. *)
Definition set_eqb (a b : list string) : bool :=
  forallb (fun x => Py.mem x b) a && forallb (fun x => Py.mem x a) b.

Definition tuple_eqb (a b : list string) : bool :=
  if list_eq_dec string_dec a b then true else false.

Definition signature_eqb (s1 s2 : signature) : bool :=
  set_eqb (fst s1) (fst s2) && tuple_eqb (snd s1) (snd s2).

(** The loop of [deduplicate_views], from the state
    [(unique_views, seen_signatures)]. *)
Fixpoint dedup_loop (views : list ViewDefinition)
  (unique_views : list ViewDefinition) (seen_signatures : list signature)
  : result (list ViewDefinition) :=
  match views with
  | [] => Ok unique_views
  | view :: rest =>
      sg <- view_signature view ;;
      if negb (existsb (signature_eqb sg) seen_signatures)
      then dedup_loop rest (unique_views ++ [view]) (seen_signatures ++ [sg])
      else dedup_loop rest unique_views seen_signatures
  end.

Definition deduplicate_views (views : list ViewDefinition) : result (list ViewDefinition) :=
  dedup_loop views [] [].

End Validator.

(** ** Sample schemas and views *)

Module Demo.

Import SchemaParser Models Validator.

Definition column (n : string) : ColumnData := mkColumnData (Some n) (Some "bigint") None.

Definition fk (c rt rc : string) : ForeignKey := mkForeignKey (Some c) (Some rt) (Some rc).

(** [orders(id, customer_id -> customers.id)] and [customers(id)]. *)
Definition shop : SchemaJson :=
  mkSchemaJson (Some
    [mkTableData (Some "orders") None [column "id"; column "customer_id"]
       [fk "customer_id" "customers" "id"];
     mkTableData (Some "customers") None [column "id"] []]).

(** The same with [customer_id] as the only column of [orders]. *)
Definition shop_minimal : SchemaJson :=
  mkSchemaJson (Some
    [mkTableData (Some "orders") None [column "customer_id"]
       [fk "customer_id" "customers" "id"];
     mkTableData (Some "customers") None [column "id"] []]).

(** A declaration that points at a column [customers] does not have. *)
Definition shop_dangling : SchemaJson :=
  mkSchemaJson (Some
    [mkTableData (Some "orders") None [column "id"; column "customer_id"]
       [fk "customer_id" "customers" "nope"];
     mkTableData (Some "customers") None [column "id"] []]).

(** A table that references itself. *)
Definition staff : SchemaJson :=
  mkSchemaJson (Some
    [mkTableData (Some "employees") None [column "id"; column "manager_id"]
       [fk "manager_id" "employees" "id"]]).

(** Two declarations between the same pair of tables. *)
Definition shipping : SchemaJson :=
  mkSchemaJson (Some
    [mkTableData (Some "orders") None
       [column "id"; column "billing_id"; column "shipping_id"]
       [fk "billing_id" "addresses" "id"; fk "shipping_id" "addresses" "id"];
     mkTableData (Some "addresses") None [column "id"] []]).

(** A chain of three nodes. *)
Definition chain : Nx.DiGraph :=
  Nx.add_edge (Nx.add_edge (Nx.add_edge (Nx.add_edge Nx.empty
    "a" "b" (Nx.mkEdgeData "x" "y" "forward"))
    "b" "a" (Nx.mkEdgeData "y" "x" "reverse"))
    "b" "c" (Nx.mkEdgeData "z" "w" "forward"))
    "c" "b" (Nx.mkEdgeData "w" "z" "reverse").

(** A single table without declarations. *)
Definition lonely : SchemaJson :=
  mkSchemaJson (Some [mkTableData (Some "orders") None [column "id"] []]).

Definition orders_customers : QuerySpecification :=
  mkQuery ["orders.id"; "customers.id"] "orders"
    [mkJoin "INNER" "customers" "orders.customer_id = customers.id"]
    None None None None.

Definition orders_customers_sql : string :=
  String.concat nl
    ["SELECT orders.id, customers.id";
     "FROM orders";
     "INNER JOIN customers ON orders.customer_id = customers.id;"].

(** A select list that names a table the query does not use. *)
Definition stray_reference : QuerySpecification :=
  mkQuery ["customers.id"] "orders" [] None None None None.

(** A self-join written with two spellings of the table name. *)
Definition self_join : QuerySpecification :=
  mkQuery ["orders.id"] "Orders" [mkJoin "INNER" "orders" "Orders.id = orders.id"]
    None None None None.

Definition quiet : Config := mkConfig false (fun _ => false) (fun _ => "").
Definition strict : Config := mkConfig true (fun _ => true) (fun _ => "0.000").

(** The schemas built from [shop] and from [lonely]. *)
Definition shop_schema : Schema :=
  Eval vm_compute in
    match _parse shop with Ok s => s | Raise _ => mkSchema [] Nx.empty [] end.

Definition shop_orders : Table :=
  Eval vm_compute in
    match get_table shop_schema "orders" with
    | Some t => t
    | None => mkTable "" [] [] ""
    end.

(** Enumeration in insertion order, and in the opposite order. *)
Definition insertion_order (l : list string) : list string :=
  rev (nodup string_dec (rev l)).
Definition reverse_order (l : list string) : list string :=
  nodup string_dec (rev l).

End Demo.

(** ** validator.py: the alias of a table reference *)

Module Aliases.

(** [_extract_alias]: the last word of ['table alias'] or ['table AS alias'],
    unless there is one word only or the last word is the keyword itself. *)
Definition _extract_alias (table_spec : string) : option string :=
  let parts := Py.split_ws table_spec in
  if 1 <? List.length parts
  then
    let alias := Py.strip (last parts "") in
    if negb (String.eqb (Py.upper alias) "AS") then Some alias else None
  else None.

End Aliases.

(** ** schema_parser.py: export *)

Module SchemaExport.

Import SchemaParser.

(** One entry of ['columns'] and of ['tables'] in the dictionary that
    [to_dict] builds. *)
Record ColumnExport : Type := mkColumnExport {
  ce_name : string;
  ce_type : string;
  ce_description : string;
  ce_is_primary_key : bool;
  ce_is_foreign_key : bool;
  ce_references : option (string * string)
}.

Record TableExport : Type := mkTableExport {
  te_name : string;
  te_description : string;
  te_columns : list ColumnExport;
  te_foreign_keys : list ForeignKey
}.

Definition export_column (col : Column) : ColumnExport :=
  mkColumnExport (col_name col) (col_type col) (col_description col)
    (is_primary_key col) (is_foreign_key col) (col_references col).

(** [to_dict]: the value under ['tables'], one entry per table in the order
    of [self.tables.values()]. *)
Definition to_dict (s : Schema) : list TableExport :=
  map (fun kt =>
         let table := snd kt in
         mkTableExport (tbl_name table) (tbl_description table)
           (map export_column (columns table)) (foreign_keys table))
    (tables s).

(** The exported dictionary as [_parse] reads it back: of a column only
    ['name'], ['type'] and ['description'] are looked at. *)
Definition read_export (d : list TableExport) : SchemaJson :=
  mkSchemaJson (Some
    (map (fun te =>
            mkTableData (Some (te_name te)) (Some (te_description te))
              (map (fun ce => mkColumnData (Some (ce_name ce)) (Some (ce_type ce))
                                (Some (ce_description ce)))
                 (te_columns te))
              (te_foreign_keys te))
       d)).

(** [SchemaParser.from_dict(schema.to_dict())]. *)
Definition reparse (s : Schema) : result Schema := _parse (read_export (to_dict s)).

End SchemaExport.

(** ** db_executor.py and excel_db_executor.py: cleaning of the SQL text *)

Module Executor.

(** [_clean_sql], the same in both executors: the text is trimmed, and when
    it starts with CREATE what follows the first [' AS '] is kept. *)
Definition _clean_sql (sql : string) : string :=
  let sql := Py.strip sql in
  if String.prefix "CREATE" (Py.upper sql)
  then
    match String.index 0 " AS " (Py.upper sql) with
    | Some as_index =>
        Py.strip (substring (as_index + 4) (String.length sql - (as_index + 4)) sql)
    | None => sql
    end
  else sql.

End Executor.

(** ** llm_interface.py: the JSON of a response *)

Module LLM.

Section ExtractJson.

(** The values of [json.loads] and the function itself, [None] standing
    for [JSONDecodeError]. *)
Variable J : Type.
Variable json_loads : string -> option J.

Definition fence : string := "```".

(** [text.find(c)] for a one-character needle. *)
Fixpoint find_char_from (i : nat) (c : ascii) (s : string) : option nat :=
  match s with
  | EmptyString => None
  | String x r => if Ascii.eqb x c then Some i else find_char_from (S i) c r
  end.

(** [s[i:]]. *)
Fixpoint drop (i : nat) (s : string) : string :=
  match i, s with
  | 0, _ => s
  | S k, String _ r => drop k r
  | S _, EmptyString => EmptyString
  end.

(** The loop [for i in range(start_idx, len(text))], at position [i] with
    [rest = text[i:]]. *)
Fixpoint scan (text : string) (start_char end_char : ascii) (start_idx : nat)
  (i : nat) (rest : string) (depth : Z) : option J :=
  match rest with
  | EmptyString => None
  | String ch r =>
      if Ascii.eqb ch start_char
      then scan text start_char end_char start_idx (S i) r (depth + 1)%Z
      else if Ascii.eqb ch end_char
      then
        let depth := (depth - 1)%Z in
        if (depth =? 0)%Z
        then match json_loads (substring start_idx (S i - start_idx) text) with
             | Some j => Some j
             | None => scan text start_char end_char start_idx (S i) r depth
             end
        else scan text start_char end_char start_idx (S i) r depth
      else scan text start_char end_char start_idx (S i) r depth
  end.

Definition search (text : string) (start_char end_char : ascii) : option J :=
  match find_char_from 0 start_char text with
  | Some start_idx =>
      scan text start_char end_char start_idx start_idx (drop start_idx text) 0%Z
  | None => None
  end.

(** [lines[:-1]]. *)
Definition drop_last (l : list string) : list string := removelast l.

(** The text after the removal of a markdown fence. *)
Definition unfence (text : string) : string :=
  let text := Py.strip text in
  if String.prefix fence text
  then
    let lines := tl (Py.split Py.newline text) in
    let lines :=
      match lines with
      | [] => lines
      | _ => if String.eqb (Py.strip (last lines "")) fence then drop_last lines else lines
      end in
    Py.strip (Py.join (String Py.newline EmptyString) lines)
  else text.

(** [extract_json]; a value that was parsed is returned as [Some]. *)
Definition extract_json (text : string) : option J :=
  if negb (Py.truthy text) then None
  else
    let text := unfence text in
    match json_loads text with
    | Some j => Some j
    | None =>
        match search text "{" "}" with
        | Some j => Some j
        | None => search text "[" "]"
        end
    end.

End ExtractJson.

End LLM.

(** ** pipeline.py *)

Module Pipeline.

Import SchemaParser Models Validator.

Record Stats : Type := mkStats {
  original_count : Z;
  after_deduplication : Z;
  duplicates_removed : Z
}.

(** The ['summary'] dictionary of a run. *)
Inductive Summary : Type :=
| SummaryError (error : string)
| SummaryCounts (total_generated after_deduplication duplicates_removed valid invalid : Z)
    (success_rate : string).

Record AnalysisResult : Type := mkAnalysis {
  total_generated : Z;
  valid_views : Z;
  invalid_views : Z;
  views : list ValidationResult;
  summary : Summary
}.

Definition len {A : Type} (l : list A) : Z := Z.of_nat (List.length l).

Definition post_process (vs : list ViewDefinition)
  : result (list ViewDefinition * Stats) :=
  let original_count := len vs in
  unique_views <- deduplicate_views vs ;;
  let dedup_count := (original_count - len unique_views)%Z in
  Ok (unique_views, mkStats original_count (len unique_views) dedup_count).

Section Run.

Context {SP : Nx.ShortestPath} {SO : SetOrder}.
Variable config : Config.
Variable schema : Schema.

(** The rendering of the success rate, [valid/unique*100] with one decimal
    and a percent sign. *)
Variable format_rate : Z -> Z -> string.

Fixpoint validate_views (vs : list ViewDefinition) : result (list ValidationResult) :=
  match vs with
  | [] => Ok []
  | view :: rest =>
      r <- validate_view config schema view ;;
      rs <- validate_views rest ;;
      Ok (r :: rs)
  end.

(** [run] from the views that [generate_views] returned ([generate_views]
    catches every exception of the model call and then returns no view). *)
Definition run (generated : list ViewDefinition) : result AnalysisResult :=
  match generated with
  | [] => Ok (mkAnalysis 0 0 0 [] (SummaryError "No views generated by LLM"))
  | _ =>
      pp <- post_process generated ;;
      let '(unique_views, dedup_stats) := pp in
      validation_results <- validate_views unique_views ;;
      let valid_results := filter is_valid validation_results in
      let invalid_results := filter (fun r => negb (is_valid r)) validation_results in
      let success_rate :=
        match unique_views with
        | [] => "0%"
        | _ => format_rate (len valid_results) (len unique_views)
        end in
      Ok (mkAnalysis (len generated) (len valid_results) (len invalid_results)
            validation_results
            (SummaryCounts (len generated) (len unique_views)
               (duplicates_removed dedup_stats) (len valid_results)
               (len invalid_results) success_rate))
  end.

End Run.

End Pipeline.

(** * Properties *)

(** ** Unit checks of the embedding *)

Example lower_ex : Py.lower "Customer Orders!!" = "customer orders!!".
Proof. reflexivity. Qed.
Example strip_ex : Py.strip "  a b 	" = "a b".
Proof. reflexivity. Qed.
Example split_ws_ex : Py.split_ws "  customers   c " = ["customers"; "c"].
Proof. reflexivity. Qed.
Example split_ex : Py.split "." "a.b.c" = ["a"; "b"; "c"].
Proof. reflexivity. Qed.
Example split_ex2 : Py.split "=" "" = [""].
Proof. reflexivity. Qed.
Example join_ex : Py.join ", " ["a"; "b"; "c"] = "a, b, c".
Proof. reflexivity. Qed.
Example str_of_nat_ex : Py.str_of_nat 12 = "12" /\ Py.str_of_nat 0 = "0".
Proof. split; reflexivity. Qed.
Example findall_ex :
  Py.findall_qualified "a.b.c.d > x AND t1.col=3" = [("a","b"); ("c","d"); ("t1","col")].
Proof. reflexivity. Qed.
Example sub_ex :
  Py.sub_order_suffix "orders.total   desc" = "orders.total"
  /\ Py.sub_order_suffix "a ASC ASC" = "a ASC"
  /\ Py.sub_order_suffix "DESC" = "DESC"
  /\ Py.sub_order_suffix "xDESC" = "xDESC".
Proof. repeat split; reflexivity. Qed.
Example sub_newline_ex :
  Py.sub_order_suffix " DESC" = ""
  /\ Py.sub_order_suffix (Py.snoc "x DESC" Py.newline) = Py.snoc "x" Py.newline
  /\ Py.sub_order_suffix (Py.snoc "x ASC " Py.newline) = Py.snoc "x ASC " Py.newline
  /\ Py.sub_order_suffix (String.append "a" (String (ascii_of_nat 9) "AsC")) = "a".
Proof. repeat split; reflexivity. Qed.
Example findall_ex2 :
  Py.findall_qualified "a..b x.y.z _a._b 1.5" = [("x","y"); ("_a","_b"); ("1","5")].
Proof. reflexivity. Qed.
Example tokens_ex :
  Py.findall_tokens "customer_id is the key" = ["customer"; "id"; "is"; "the"; "key"]
  /\ Validator._tokenize "Customer_ID is the key" = ["customer"; "key"].
Proof. split; reflexivity. Qed.
Example sorted_ex : Validator.sorted ["b"; "a"; "B"; "_"; "1"] = ["1"; "B"; "_"; "a"; "b"].
Proof. reflexivity. Qed.
Example endswith_ex : Py.endswith "customer_id" "_id" = true /\ Py.endswith "id" "_id" = false.
Proof. split; reflexivity. Qed.
Example bfs_ex :
  Nx.bfs Demo.chain "a" "c" = Some ["a"; "b"; "c"]
  /\ Nx.bfs Demo.chain "c" "a" = Some ["c"; "b"; "a"]
  /\ Nx.bfs Demo.chain "a" "a" = Some ["a"]
  /\ Nx.bfs Demo.chain "a" "d" = None.
Proof. repeat split; reflexivity. Qed.
Example view_name_ex :
  Models.validate_view_name "Customer Orders!!" = Ok "customer_orders".
Proof. reflexivity. Qed.
Example join_type_ex :
  Models.validate_join_type "inner" = Ok "INNER"
  /\ is_ok (Models.validate_join_type "outer") = false.
Proof. split; reflexivity. Qed.


(** ** Strings *)

Lemma eqb_str_refl (s : string) : String.eqb s s = true.
Proof. apply String.eqb_refl. Qed.

Lemma mem_In (x : string) (l : list string) : Py.mem x l = true <-> In x l.
Proof.
  unfold Py.mem. rewrite existsb_exists. split.
  - intros [y [Hy He]]. apply String.eqb_eq in He. now subst.
  - intros H. exists x. split; [assumption | apply String.eqb_refl].
Qed.

Lemma mem_false (x : string) (l : list string) : Py.mem x l = false <-> ~ In x l.
Proof.
  rewrite <- mem_In. destruct (Py.mem x l); split; intros; congruence.
Qed.

(** ** The graph and breadth-first search *)

Module NxFacts.

Import Nx.

Lemma pair_eqb_eq (a b : string * string) : pair_eqb a b = true <-> a = b.
Proof.
  destruct a as [a1 a2], b as [b1 b2]. unfold pair_eqb. simpl.
  rewrite andb_true_iff, !String.eqb_eq. split.
  - intros [-> ->]. reflexivity.
  - intros H. inversion H. auto.
Qed.

Lemma pair_eqb_refl (a : string * string) : pair_eqb a a = true.
Proof. now apply pair_eqb_eq. Qed.

Lemma pair_eqb_neq (a b : string * string) : pair_eqb a b = false <-> a <> b.
Proof.
  rewrite <- pair_eqb_eq. destruct (pair_eqb a b); split; intros; congruence.
Qed.

(** Reading an edge after a write. *)
Lemma find_set_adj (k k' : string * string) (d : EdgeData) es :
  find (fun e => pair_eqb (fst e) k') (set_adj k d es) =
  if pair_eqb k k' then Some (k, d)
  else find (fun e => pair_eqb (fst e) k') es.
Proof.
  induction es as [|[k0 d0] r IH]; simpl.
  - destruct (pair_eqb k k'); reflexivity.
  - destruct (pair_eqb k0 k) eqn:E0; simpl.
    + apply pair_eqb_eq in E0. subst k0.
      destruct (pair_eqb k k'); reflexivity.
    + destruct (pair_eqb k0 k') eqn:E1.
      * destruct (pair_eqb k k') eqn:E2; [|reflexivity].
        apply pair_eqb_eq in E1, E2. subst.
        rewrite pair_eqb_refl in E0. discriminate.
      * apply IH.
Qed.

Lemma get_edge_data_add_edge g a b d u v :
  get_edge_data (add_edge g a b d) u v =
  if pair_eqb (a, b) (u, v) then Some d else get_edge_data g u v.
Proof.
  unfold get_edge_data, add_edge. simpl. rewrite find_set_adj.
  destruct (pair_eqb (a, b) (u, v)); reflexivity.
Qed.

Lemma has_edge_add_edge g a b d u v :
  has_edge (add_edge g a b d) u v = pair_eqb (a, b) (u, v) || has_edge g u v.
Proof.
  unfold has_edge. rewrite get_edge_data_add_edge.
  destruct (pair_eqb (a, b) (u, v)); reflexivity.
Qed.

Lemma successors_has_edge g n m :
  In m (successors g n) <-> has_edge g n m = true.
Proof.
  unfold successors, has_edge, get_edge_data. split.
  - intros H. apply in_map_iff in H. destruct H as [e [He Hin]].
    apply filter_In in Hin. destruct Hin as [Hin Hs].
    apply String.eqb_eq in Hs.
    destruct (find (fun e0 => pair_eqb (fst e0) (n, m)) (adj g)) eqn:F; [reflexivity|].
    exfalso. apply (find_none _ _ F) in Hin.
    apply pair_eqb_neq in Hin. apply Hin.
    destruct e as [[a b] d]. simpl in *. now subst.
  - destruct (find (fun e0 => pair_eqb (fst e0) (n, m)) (adj g)) eqn:F; [|discriminate].
    intros _. apply find_some in F. destruct F as [Hin He].
    apply pair_eqb_eq in He. apply in_map_iff. exists p. split.
    + now rewrite He.
    + apply filter_In. split; [assumption|]. rewrite He. apply String.eqb_refl.
Qed.

(** *** Soundness: every recorded walk is a path from the source *)

Lemma walk_snoc g p s n m :
  p <> [] -> walk g p -> last p s = n -> has_edge g n m = true -> walk g (p ++ [m]).
Proof.
  induction p as [|x r IH]; intros Hne Hw Hl He; [congruence|].
  destruct r as [|y r'].
  - simpl in *. subst. auto.
  - change ((x :: y :: r') ++ [m]) with (x :: (y :: r') ++ [m]).
    simpl in Hw. destruct Hw as [Hxy Hw].
    simpl. split; [assumption|].
    apply IH; try assumption; congruence.
Qed.

Lemma is_path_snoc g s n m p :
  is_path g s n p -> has_edge g n m = true -> is_path g s m (p ++ [m]).
Proof.
  intros (Hh & Hl & Hne & Hw) He. repeat split.
  - destruct p; [congruence|]. exact Hh.
  - apply last_last.
  - destruct p; discriminate.
  - eapply walk_snoc; eauto.
Qed.

Lemma is_path_single g s : is_path g s s [s].
Proof. repeat split; simpl; auto. discriminate. Qed.

Definition sound (g : DiGraph) (s : string) (vis : visited) : Prop :=
  forall n p, In (n, p) vis -> is_path g s n p.

Lemma visit_sound g s n p vis m :
  sound g s vis -> is_path g s n p -> has_edge g n m = true ->
  sound g s (visit p vis m).
Proof.
  intros Hs Hp He. unfold visit.
  destruct (Py.mem m (map fst vis)); [assumption|].
  intros n' p' Hin. apply in_app_or in Hin. destruct Hin as [Hin|[Hin|[]]].
  - now apply Hs.
  - inversion Hin; subst. eapply is_path_snoc; eauto.
Qed.

Lemma expand_sound g s vis np :
  sound g s vis -> is_path g s (fst np) (snd np) -> sound g s (expand g vis np).
Proof.
  unfold expand. intros Hs Hp.
  assert (Hsucc : forall m, In m (successors g (fst np)) -> has_edge g (fst np) m = true)
    by (intros m; apply successors_has_edge).
  revert vis Hs. induction (successors g (fst np)) as [|m ms IH]; intros vis Hs; simpl.
  - assumption.
  - apply IH.
    + intros m' Hm'. apply Hsucc. now right.
    + eapply visit_sound; eauto. apply Hsucc. now left.
Qed.

Lemma fold_expand_sound g s l vis :
  sound g s vis -> (forall np, In np l -> is_path g s (fst np) (snd np)) ->
  sound g s (fold_left (expand g) l vis).
Proof.
  revert vis. induction l as [|np l IH]; intros vis Hs Hl; simpl.
  - assumption.
  - apply IH.
    + apply expand_sound; [assumption|]. apply Hl. now left.
    + intros np' H. apply Hl. now right.
Qed.

Lemma bfs_round_sound g s vis : sound g s vis -> sound g s (bfs_round g vis).
Proof.
  intros Hs. apply fold_expand_sound; [assumption|].
  intros [n p] Hin. now apply Hs.
Qed.

Lemma bfs_iter_sound g s k vis : sound g s vis -> sound g s (bfs_iter g k vis).
Proof.
  revert vis. induction k as [|k IH]; intros vis Hs; simpl.
  - assumption.
  - apply IH. now apply bfs_round_sound.
Qed.

Lemma lookup_In vis t p : lookup vis t = Some p -> In (t, p) vis.
Proof.
  unfold lookup. destruct (find _ vis) as [[n q]|] eqn:F; [|discriminate].
  simpl. intros H. inversion H; subst.
  apply find_some in F. destruct F as [Hin He]. simpl in He.
  apply String.eqb_eq in He. now subst.
Qed.

Lemma bfs_sound g s t p : bfs g s t = Some p -> is_path g s t p.
Proof.
  unfold bfs. intros H. apply lookup_In in H.
  revert H. apply bfs_iter_sound.
  intros n q [Hin|[]]. inversion Hin; subst. apply is_path_single.
Qed.

(** *** The visited list only grows, and starts with the source *)

Definition extends (vis vis' : visited) : Prop := exists ext, vis' = vis ++ ext.

Lemma extends_refl vis : extends vis vis.
Proof. exists []. now rewrite app_nil_r. Qed.

Lemma extends_trans a b c : extends a b -> extends b c -> extends a c.
Proof. intros [x ->] [y ->]. exists (x ++ y). now rewrite app_assoc. Qed.

Lemma visit_extends p vis m : extends vis (visit p vis m).
Proof.
  unfold visit. destruct (Py.mem m (map fst vis)).
  - apply extends_refl.
  - now exists [(m, p ++ [m])].
Qed.

Lemma fold_visit_extends p ms vis : extends vis (fold_left (visit p) ms vis).
Proof.
  revert vis. induction ms as [|m ms IH]; intros vis; simpl.
  - apply extends_refl.
  - eapply extends_trans; [apply visit_extends | apply IH].
Qed.

Lemma fold_expand_extends g l vis : extends vis (fold_left (expand g) l vis).
Proof.
  revert vis. induction l as [|np l IH]; intros vis; simpl.
  - apply extends_refl.
  - eapply extends_trans; [apply fold_visit_extends | apply IH].
Qed.

Lemma bfs_round_extends g vis : extends vis (bfs_round g vis).
Proof. apply fold_expand_extends. Qed.

Lemma bfs_iter_extends g k vis : extends vis (bfs_iter g k vis).
Proof.
  revert vis. induction k as [|k IH]; intros vis; simpl.
  - apply extends_refl.
  - eapply extends_trans; [apply bfs_round_extends | apply IH].
Qed.

Lemma extends_keys vis vis' n :
  extends vis vis' -> In n (map fst vis) -> In n (map fst vis').
Proof.
  intros [ext ->] H. rewrite map_app. apply in_or_app. now left.
Qed.

Lemma bfs_self g s : bfs g s s = Some [s].
Proof.
  unfold bfs. destruct (bfs_iter_extends g (bfs_fuel g) [(s, [s])]) as [ext ->].
  unfold lookup. simpl. now rewrite String.eqb_refl.
Qed.

(** *** Completeness: the search reaches a closed set of nodes *)

Lemma visit_keys_NoDup p vis m :
  NoDup (map fst vis) -> NoDup (map fst (visit p vis m)).
Proof.
  unfold visit. intros H. destruct (Py.mem m (map fst vis)) eqn:E; [assumption|].
  rewrite map_app. simpl. apply mem_false in E.
  apply NoDup_app; [assumption | repeat constructor; intros [] | ].
  intros a Ha [<- | []]. contradiction.
Qed.

Lemma visit_visited p vis m : In m (map fst (visit p vis m)).
Proof.
  unfold visit. destruct (Py.mem m (map fst vis)) eqn:E.
  - now apply mem_In.
  - rewrite map_app. apply in_or_app. right. now left.
Qed.

Lemma visit_keys_incl p vis m bound :
  incl (map fst vis) bound -> In m bound -> incl (map fst (visit p vis m)) bound.
Proof.
  unfold visit. intros H Hm. destruct (Py.mem m (map fst vis)); [assumption|].
  rewrite map_app. apply incl_app; [assumption|].
  intros a [<- | []]. assumption.
Qed.

(** What a fold of [visit] keeps. *)
Lemma fold_visit_inv (P : visited -> Prop) p ms vis (Q : string -> Prop) :
  (forall v m, P v -> Q m -> P (visit p v m)) ->
  (forall m, In m ms -> Q m) -> P vis -> P (fold_left (visit p) ms vis).
Proof.
  intros Hstep. revert vis. induction ms as [|m ms IH]; intros vis HQ HP; simpl.
  - assumption.
  - apply IH; [intros; apply HQ; now right|].
    apply Hstep; [assumption | apply HQ; now left].
Qed.

Lemma fold_expand_inv (P : visited -> Prop) g l vis :
  (forall v np, P v -> P (expand g v np)) ->
  P vis -> P (fold_left (expand g) l vis).
Proof.
  intros Hstep. revert vis. induction l as [|np l IH]; intros vis HP; simpl.
  - assumption.
  - apply IH. now apply Hstep.
Qed.

Lemma bfs_iter_inv (P : visited -> Prop) g k vis :
  (forall v np, P v -> P (expand g v np)) -> P vis -> P (bfs_iter g k vis).
Proof.
  intros Hstep. revert vis. induction k as [|k IH]; intros vis HP; simpl.
  - assumption.
  - apply IH. unfold bfs_round. now apply fold_expand_inv.
Qed.

Lemma expand_keys_NoDup g vis np :
  NoDup (map fst vis) -> NoDup (map fst (expand g vis np)).
Proof.
  intros H. unfold expand.
  apply (fold_visit_inv (fun v => NoDup (map fst v)) _ _ _ (fun _ => True)); auto.
  intros. now apply visit_keys_NoDup.
Qed.

Definition endpoints (g : DiGraph) : list string :=
  flat_map (fun e => [fst (fst e); snd (fst e)]) (adj g).

Lemma successors_endpoints g n m : In m (successors g n) -> In m (endpoints g).
Proof.
  unfold successors, endpoints. intros H.
  apply in_map_iff in H. destruct H as [e [He Hin]].
  apply filter_In in Hin. destruct Hin as [Hin _].
  apply in_flat_map. exists e. split; [assumption|]. simpl. auto.
Qed.

Lemma expand_keys_incl g s vis np :
  incl (map fst vis) (s :: endpoints g) ->
  incl (map fst (expand g vis np)) (s :: endpoints g).
Proof.
  intros H. unfold expand.
  apply (fold_visit_inv (fun v => incl (map fst v) (s :: endpoints g)) _ _ _
           (fun m => In m (s :: endpoints g))); auto.
  - intros. now apply visit_keys_incl.
  - intros m Hm. right. eapply successors_endpoints; eauto.
Qed.

Lemma length_endpoints g : List.length (endpoints g) = 2 * List.length (adj g).
Proof.
  unfold endpoints. induction (adj g) as [|e r IH]; simpl; [reflexivity|].
  rewrite IH. lia.
Qed.

(** After a round every successor of a node visited before it is visited. *)
Lemma expand_covers g vis np m :
  In m (successors g (fst np)) -> In m (map fst (expand g vis np)).
Proof.
  unfold expand. revert vis.
  induction (successors g (fst np)) as [|m' ms IH]; intros vis Hin; simpl; [contradiction|].
  destruct (in_dec string_dec m ms) as [Hms|Hms].
  - now apply IH.
  - destruct Hin as [->|Hin]; [|contradiction].
    eapply extends_keys; [apply fold_visit_extends | apply visit_visited].
Qed.

Lemma fold_expand_covers g l vis np m :
  In np l -> In m (successors g (fst np)) ->
  In m (map fst (fold_left (expand g) l vis)).
Proof.
  revert vis. induction l as [|np' l IH]; intros vis Hin Hm; simpl; [contradiction|].
  destruct Hin as [->|Hin].
  - eapply extends_keys; [apply fold_expand_extends | now apply expand_covers].
  - now apply IH.
Qed.

Definition closed (g : DiGraph) (vis : visited) : Prop :=
  forall n m, In n (map fst vis) -> has_edge g n m = true -> In m (map fst vis).

Lemma bfs_round_covers g vis n m :
  In n (map fst vis) -> has_edge g n m = true -> In m (map fst (bfs_round g vis)).
Proof.
  intros Hn He. apply in_map_iff in Hn. destruct Hn as [np [<- Hin]].
  unfold bfs_round. eapply fold_expand_covers; eauto.
  now apply successors_has_edge.
Qed.

Lemma bfs_round_fixed_closed g vis : bfs_round g vis = vis -> closed g vis.
Proof.
  intros Heq n m Hn He. rewrite <- Heq. eapply bfs_round_covers; eauto.
Qed.

Lemma bfs_iter_fixed g k vis : bfs_round g vis = vis -> bfs_iter g k vis = vis.
Proof.
  intros H. induction k as [|k IH]; simpl; [reflexivity|]. now rewrite H.
Qed.

Lemma bfs_round_grows g vis :
  bfs_round g vis = vis \/ List.length vis < List.length (bfs_round g vis).
Proof.
  destruct (bfs_round_extends g vis) as [ext H]. rewrite H.
  destruct ext as [|x ext].
  - left. apply app_nil_r.
  - right. rewrite length_app. simpl. lia.
Qed.

Lemma bfs_iter_progress g k vis :
  closed g (bfs_iter g k vis) \/ List.length vis + k <= List.length (bfs_iter g k vis).
Proof.
  revert vis. induction k as [|k IH]; intros vis; simpl.
  - right. lia.
  - destruct (bfs_round_grows g vis) as [Hfix|Hlt].
    + left. rewrite Hfix, (bfs_iter_fixed g k vis Hfix).
      now apply bfs_round_fixed_closed.
    + destruct (IH (bfs_round g vis)) as [Hc|Hl]; [now left|]. right. lia.
Qed.

Lemma bfs_iter_closed g s :
  closed g (bfs_iter g (bfs_fuel g) [(s, [s])]).
Proof.
  destruct (bfs_iter_progress g (bfs_fuel g) [(s, [s])]) as [Hc|Hl]; [assumption|].
  exfalso.
  assert (Hnd : NoDup (map fst (bfs_iter g (bfs_fuel g) [(s, [s])]))).
  { apply (bfs_iter_inv (fun v => NoDup (map fst v))).
    - intros. now apply expand_keys_NoDup.
    - simpl. repeat constructor. intros []. }
  assert (Hin : incl (map fst (bfs_iter g (bfs_fuel g) [(s, [s])])) (s :: endpoints g)).
  { apply (bfs_iter_inv (fun v => incl (map fst v) (s :: endpoints g))).
    - intros. now apply expand_keys_incl.
    - intros a [<- | []]. now left. }
  pose proof (NoDup_incl_length Hnd Hin) as Hle.
  rewrite length_map in Hle. simpl in Hle, Hl.
  rewrite length_endpoints in Hle. unfold bfs_fuel in Hl. lia.
Qed.

Lemma last_indep_nonempty {A} (l : list A) (d d' : A) : l <> [] -> last l d = last l d'.
Proof.
  induction l as [|a [|b r] IH]; intros H; [congruence | reflexivity |].
  change (last (b :: r) d = last (b :: r) d'). apply IH. discriminate.
Qed.

Lemma closed_walk g vis p n :
  closed g vis -> In n (map fst vis) -> hd_error p = Some n -> walk g p ->
  In (last p n) (map fst vis).
Proof.
  intros Hc. revert n. induction p as [|x r IH]; intros n Hn Hh Hw; [discriminate|].
  simpl in Hh. inversion Hh; subst x.
  destruct r as [|y r']; [exact Hn|].
  simpl in Hw. destruct Hw as [He Hw].
  change (last (n :: y :: r') n) with (last (y :: r') n).
  rewrite (last_indep_nonempty (y :: r') n y) by discriminate.
  apply IH; [eapply Hc; eauto | reflexivity | assumption].
Qed.

Lemma lookup_visited vis t : In t (map fst vis) -> lookup vis t <> None.
Proof.
  intros H. apply in_map_iff in H. destruct H as [[n p] [<- Hin]].
  unfold lookup. destruct (find _ vis) eqn:F; [discriminate|].
  exfalso. apply (find_none _ _ F) in Hin. simpl in Hin.
  rewrite String.eqb_refl in Hin. discriminate.
Qed.

Lemma bfs_complete g s t p : is_path g s t p -> bfs g s t <> None.
Proof.
  intros (Hh & Hl & Hne & Hw). unfold bfs. apply lookup_visited.
  rewrite <- Hl. apply (closed_walk g); try assumption.
  - apply bfs_iter_closed.
  - eapply extends_keys; [apply bfs_iter_extends|]. simpl. now left.
Qed.

(** Breadth-first search meets the contract of [shortest_path]. *)
#[export] Instance bfs_shortest_path : ShortestPath := {
  shortest_path := bfs;
  shortest_path_sound := bfs_sound;
  shortest_path_complete := fun g s t p _ _ H => bfs_complete g s t p H;
  shortest_path_self := fun g s _ => bfs_self g s
}.

End NxFacts.

(** ** The schema builder *)

Module SchemaFacts.

Import Nx NxFacts SchemaParser.

Definition fk_col (fk : ForeignKey) : string := get_or "" (fk_column fk).
Definition fk_ref_table (fk : ForeignKey) : string := get_or "" (fk_references_table fk).
Definition fk_ref_col (fk : ForeignKey) : string := get_or "" (fk_references_column fk).

Definition fk_complete (fk : ForeignKey) : bool :=
  truthy_opt (fk_column fk) && truthy_opt (fk_references_table fk)
  && truthy_opt (fk_references_column fk).

Definition has_column_named (cols : list Column) (n : string) : bool :=
  existsb (fun c => name_matches (col_name c) n) cols.

(** What the second pass requires of a declaration before it records it:
    the three entries are present, the referenced table is a key of
    [self.tables], and the declaring table has the originating column. *)
Definition accepts (table_keys : list string) (cols : list Column) (fk : ForeignKey) : bool :=
  fk_complete fk && Py.mem (fk_ref_table fk) table_keys
  && has_column_named cols (fk_col fk).

(** The same test, read on a built schema. *)
Definition fk_accepted (s : Schema) (t : Table) (fk : ForeignKey) : bool :=
  accepts (Dict.keys (tables s)) (columns t) fk.

Definition record_edges (g : DiGraph) (table_name : string) (fk : ForeignKey) : DiGraph :=
  add_edge
    (add_edge g table_name (fk_ref_table fk) (forward_edge (fk_col fk) (fk_ref_col fk)))
    (fk_ref_table fk) table_name (reverse_edge (fk_col fk) (fk_ref_col fk)).

Lemma mark_foreign_key_some name ref cols :
  has_column_named cols name = true ->
  exists cols', mark_foreign_key name ref cols = Some cols'.
Proof.
  induction cols as [|c r IH]; simpl; [discriminate|].
  destruct (name_matches (col_name c) name); simpl.
  - intros _. eexists. reflexivity.
  - intros H. destruct (IH H) as [cols' ->]. eexists. reflexivity.
Qed.

Lemma mark_foreign_key_none name ref cols :
  has_column_named cols name = false -> mark_foreign_key name ref cols = None.
Proof.
  induction cols as [|c r IH]; simpl; [reflexivity|].
  destruct (name_matches (col_name c) name); simpl; [discriminate|].
  intros H. now rewrite (IH H).
Qed.

Lemma process_fk_accepted keys k cols g lg fk :
  accepts keys cols fk = true ->
  exists cols',
    mark_foreign_key (fk_col fk) (fk_ref_table fk, fk_ref_col fk) cols = Some cols'
    /\ process_fk keys k (cols, g, lg) fk = (cols', record_edges g k fk, lg).
Proof.
  unfold accepts, fk_complete. intros H.
  apply andb_true_iff in H. destruct H as [H Hc].
  apply andb_true_iff in H. destruct H as [Hf Hk].
  destruct (mark_foreign_key_some (fk_col fk) (fk_ref_table fk, fk_ref_col fk) cols Hc)
    as [cols' Hm].
  exists cols'. split; [assumption|].
  unfold process_fk. rewrite Hf. simpl.
  fold (fk_col fk) (fk_ref_table fk) (fk_ref_col fk).
  rewrite Hk. simpl. rewrite Hm. reflexivity.
Qed.

Lemma process_fk_rejected keys k cols g lg fk :
  accepts keys cols fk = false ->
  exists w, process_fk keys k (cols, g, lg) fk = (cols, g, lg ++ [w]).
Proof.
  unfold accepts, process_fk. fold (fk_complete fk).
  destruct (fk_complete fk); simpl; [|eexists; reflexivity].
  fold (fk_col fk) (fk_ref_table fk) (fk_ref_col fk).
  destruct (Py.mem (fk_ref_table fk) keys); simpl; [|eexists; reflexivity].
  intros H. rewrite (mark_foreign_key_none _ _ _ H). eexists. reflexivity.
Qed.

(** Marking a column changes neither the names nor their order. *)
Lemma mark_foreign_key_names name ref cols cols' :
  mark_foreign_key name ref cols = Some cols' ->
  map col_name cols' = map col_name cols.
Proof.
  revert cols'. induction cols as [|c r IH]; intros cols'; simpl; [discriminate|].
  destruct (name_matches (col_name c) name).
  - intros H. inversion H. reflexivity.
  - destruct (mark_foreign_key name ref r) eqn:E; simpl; [|discriminate].
    intros H. inversion H. simpl. f_equal. now apply IH.
Qed.

Lemma has_column_named_names cols cols' n :
  map col_name cols' = map col_name cols ->
  has_column_named cols' n = has_column_named cols n.
Proof.
  unfold has_column_named. revert cols'.
  induction cols as [|c r IH]; intros [|c' r'] H; simpl in *; try discriminate; auto.
  inversion H. rewrite H1. f_equal. now apply IH.
Qed.

Lemma accepts_names keys cols cols' fk :
  map col_name cols' = map col_name cols ->
  accepts keys cols' fk = accepts keys cols fk.
Proof.
  intros H. unfold accepts. now rewrite (has_column_named_names _ _ _ H).
Qed.

Lemma process_fk_names keys k cols g lg fk cols' g' lg' :
  process_fk keys k (cols, g, lg) fk = (cols', g', lg') ->
  map col_name cols' = map col_name cols.
Proof.
  destruct (accepts keys cols fk) eqn:A.
  - destruct (process_fk_accepted keys k cols g lg fk A) as [c1 [Hm ->]].
    intros H. inversion H; subst. eapply mark_foreign_key_names; eauto.
  - destruct (process_fk_rejected keys k cols g lg fk A) as [w ->].
    intros H. now inversion H.
Qed.

(** *** Edges written by the second pass *)

(** Where an edge and its attributes can come from. *)
Definition writes (k : string) (fk : ForeignKey) (u v : string) (d : EdgeData) : Prop :=
  (u = k /\ v = fk_ref_table fk /\ d = forward_edge (fk_col fk) (fk_ref_col fk))
  \/ (u = fk_ref_table fk /\ v = k /\ d = reverse_edge (fk_col fk) (fk_ref_col fk)).

Definition links (k : string) (fk : ForeignKey) (u v : string) : Prop :=
  (u = k /\ v = fk_ref_table fk) \/ (u = fk_ref_table fk /\ v = k).

Lemma record_edges_data g k fk u v d :
  get_edge_data (record_edges g k fk) u v = Some d ->
  get_edge_data g u v = Some d \/ writes k fk u v d.
Proof.
  unfold record_edges. rewrite !get_edge_data_add_edge.
  destruct (pair_eqb (fk_ref_table fk, k) (u, v)) eqn:E1.
  - apply pair_eqb_eq in E1. inversion E1; subst.
    intros H. inversion H. right. right. auto.
  - destruct (pair_eqb (k, fk_ref_table fk) (u, v)) eqn:E2; [|now left].
    apply pair_eqb_eq in E2. inversion E2; subst.
    intros H. inversion H. right. left. auto.
Qed.

Lemma record_edges_has g k fk u v :
  has_edge (record_edges g k fk) u v = true <->
  has_edge g u v = true \/ links k fk u v.
Proof.
  unfold record_edges, links. rewrite !has_edge_add_edge, !orb_true_iff, !pair_eqb_eq.
  split.
  - intros [H|[H|H]]; [| |now left]; inversion H; auto.
  - intros [H|[[-> ->]|[-> ->]]]; auto.
Qed.

(** The loop over one table's declarations, seen from the graph. *)
Lemma fold_process_fk_graph keys k fks cols g lg cols' g' lg' :
  fold_left (process_fk keys k) fks (cols, g, lg) = (cols', g', lg') ->
  map col_name cols' = map col_name cols
  /\ (forall u v d, get_edge_data g' u v = Some d ->
        get_edge_data g u v = Some d
        \/ exists fk, In fk fks /\ accepts keys cols fk = true /\ writes k fk u v d)
  /\ (forall u v, has_edge g' u v = true <->
        has_edge g u v = true
        \/ exists fk, In fk fks /\ accepts keys cols fk = true /\ links k fk u v).
Proof.
  revert cols g lg. induction fks as [|fk fks IH]; intros cols g lg; cbn [fold_left].
  - intros H. inversion H; subst. repeat split; auto.
    intros [H'|[fk [[] _]]]. assumption.
  - destruct (process_fk keys k (cols, g, lg) fk) as [[c1 g1] lg1] eqn:P.
    intros H. destruct (IH _ _ _ H) as (Hn & Hd & He).
    pose proof (process_fk_names _ _ _ _ _ _ _ _ _ P) as Hn1.
    assert (Hacc : forall fk', accepts keys c1 fk' = accepts keys cols fk')
      by (intros; now apply accepts_names).
    destruct (accepts keys cols fk) eqn:A.
    + destruct (process_fk_accepted keys k cols g lg fk A) as [c2 [_ P']].
      rewrite P' in P. inversion P; subst c2 g1 lg1. clear P P'.
      split; [congruence|]. split.
      * intros u v d Hg. destruct (Hd u v d Hg) as [H1|[fk' (Hin & Ha & Hw)]].
        -- destruct (record_edges_data _ _ _ _ _ _ H1) as [H2|H2]; [now left|].
           right. exists fk. repeat split; [now left | assumption | assumption].
        -- right. exists fk'. rewrite Hacc in Ha.
           repeat split; [now right | assumption | assumption].
      * intros u v. rewrite He, record_edges_has. split.
        -- intros [[H1|H1]|[fk' (Hin & Ha & Hl)]]; [now left | | ].
           ++ right. exists fk. repeat split; [now left | assumption | assumption].
           ++ right. exists fk'. rewrite Hacc in Ha.
              repeat split; [now right | assumption | assumption].
        -- intros [H1|[fk' ([<-|Hin] & Ha & Hl)]]; [now left; left | now left; right |].
           right. exists fk'. rewrite Hacc. auto.
    + destruct (process_fk_rejected keys k cols g lg fk A) as [w P'].
      rewrite P' in P. inversion P; subst c1 g1 lg1. clear P P'.
      split; [congruence|]. split.
      * intros u v d Hg. destruct (Hd u v d Hg) as [H1|[fk' (Hin & Ha & Hw)]]; [now left|].
        right. exists fk'. repeat split; [now right | assumption | assumption].
      * intros u v. rewrite He. split.
        -- intros [H1|[fk' (Hin & Ha & Hl)]]; [now left|]. right. exists fk'.
           repeat split; [now right | assumption | assumption].
        -- intros [H1|[fk' ([<-|Hin] & Ha & Hl)]]; [now left | congruence |].
           right. exists fk'. auto.
Qed.

(** *** Columns marked by the second pass *)

Definition find_column (cols : list Column) (n : string) : option Column :=
  find (fun c => name_matches (col_name c) n) cols.

Definition marked (cols : list Column) (n : string) : Prop :=
  exists c, find_column cols n = Some c /\ is_foreign_key c = true.

Lemma mark_foreign_key_In name ref cols cols' c :
  mark_foreign_key name ref cols = Some cols' -> In c cols' ->
  In c cols
  \/ exists c0, In c0 cols /\ name_matches (col_name c0) name = true
                /\ c = set_foreign_key c0 ref.
Proof.
  revert cols'. induction cols as [|c1 r IH]; intros cols'; simpl; [discriminate|].
  destruct (name_matches (col_name c1) name) eqn:E.
  - intros H Hin. inversion H; subst. destruct Hin as [<-|Hin].
    + right. exists c1. auto.
    + left. now right.
  - destruct (mark_foreign_key name ref r) eqn:M; simpl; [|discriminate].
    intros H Hin. inversion H; subst. destruct Hin as [<-|Hin].
    + left. now left.
    + destruct (IH _ eq_refl Hin) as [H1|[c0 (H0 & Hm & Hc)]].
      * left. now right.
      * right. exists c0. auto.
Qed.

Lemma mark_foreign_key_sets name ref cols cols' :
  mark_foreign_key name ref cols = Some cols' -> marked cols' name.
Proof.
  revert cols'. induction cols as [|c1 r IH]; intros cols'; simpl; [discriminate|].
  destruct (name_matches (col_name c1) name) eqn:E.
  - intros H. inversion H; subst. exists (set_foreign_key c1 ref).
    unfold find_column. simpl. now rewrite E.
  - destruct (mark_foreign_key name ref r) eqn:M; simpl; [|discriminate].
    intros H. inversion H; subst. destruct (IH _ eq_refl) as [c [Hf Hc]].
    exists c. unfold find_column in *. simpl. now rewrite E.
Qed.

Lemma mark_foreign_key_keeps name ref cols cols' n :
  mark_foreign_key name ref cols = Some cols' -> marked cols n -> marked cols' n.
Proof.
  revert cols'. induction cols as [|c1 r IH]; intros cols'; simpl; [discriminate|].
  unfold marked, find_column in *.
  destruct (name_matches (col_name c1) name) eqn:E.
  - intros H [c [Hf Hc]]. inversion H; subst. simpl in *.
    destruct (name_matches (col_name c1) n) eqn:E'.
    + exists (set_foreign_key c1 ref). auto.
    + exists c. auto.
  - destruct (mark_foreign_key name ref r) eqn:M; simpl; [|discriminate].
    intros H [c [Hf Hc]]. inversion H; subst. simpl in *.
    destruct (name_matches (col_name c1) n) eqn:E'.
    + exists c. auto.
    + apply (IH _ eq_refl). exists c. auto.
Qed.

(** The loop over one table's declarations, seen from the columns. *)
Lemma fold_process_fk_columns keys k fks cols g lg cols' g' lg' :
  fold_left (process_fk keys k) fks (cols, g, lg) = (cols', g', lg') ->
  (forall c, In c cols' -> is_foreign_key c = true ->
     (In c cols /\ is_foreign_key c = true)
     \/ exists fk, In fk fks /\ accepts keys cols fk = true
                   /\ name_matches (col_name c) (fk_col fk) = true
                   /\ col_references c = Some (fk_ref_table fk, fk_ref_col fk))
  /\ (forall n, marked cols n -> marked cols' n)
  /\ (forall fk, In fk fks -> accepts keys cols fk = true -> marked cols' (fk_col fk)).
Proof.
  revert cols g lg. induction fks as [|fk fks IH]; intros cols g lg; cbn [fold_left].
  - intros H. inversion H; subst. repeat split; auto. intros fk [].
  - destruct (process_fk keys k (cols, g, lg) fk) as [[c1 g1] lg1] eqn:P.
    intros H. destruct (IH _ _ _ H) as (Ha & Hb & Hc).
    pose proof (process_fk_names _ _ _ _ _ _ _ _ _ P) as Hn1.
    assert (Hacc : forall fk', accepts keys c1 fk' = accepts keys cols fk')
      by (intros; now apply accepts_names).
    destruct (accepts keys cols fk) eqn:A.
    + destruct (process_fk_accepted keys k cols g lg fk A) as [c2 [Hm P']].
      rewrite P' in P. inversion P; subst c2 g1 lg1. clear P P'.
      split; [|split].
      * intros c Hin Hfk. destruct (Ha c Hin Hfk) as [[H1 _]|[fk' (Hi & Hac & Hnm & Hr)]].
        -- destruct (mark_foreign_key_In _ _ _ _ _ Hm H1) as [H2|[c0 (H0 & Hm0 & ->)]].
           ++ left. auto.
           ++ right. exists fk. repeat split; [now left | assumption | assumption].
        -- right. exists fk'. rewrite Hacc in Hac.
           repeat split; [now right | assumption | assumption | assumption].
      * intros n Hn. apply Hb. eapply mark_foreign_key_keeps; eauto.
      * intros fk' [<-|Hin] Hac.
        -- apply Hb. eapply mark_foreign_key_sets; eauto.
        -- apply Hc; [assumption|]. now rewrite Hacc.
    + destruct (process_fk_rejected keys k cols g lg fk A) as [w P'].
      rewrite P' in P. inversion P; subst c1 g1 lg1. clear P P'.
      split; [|split].
      * intros c Hin Hfk. destruct (Ha c Hin Hfk) as [H1|[fk' (Hi & Hac & Hnm & Hr)]];
          [now left|].
        right. exists fk'. repeat split; [now right | assumption | assumption | assumption].
      * assumption.
      * intros fk' [<-|Hin] Hac; [congruence|]. now apply Hc.
Qed.

(** *** The loop over the tables *)

Definition same_shape (t t' : Table) : Prop :=
  tbl_name t' = tbl_name t /\ foreign_keys t' = foreign_keys t
  /\ map col_name (columns t') = map col_name (columns t).

(** [t'] is what the loop over the declarations of [t] leaves. *)
Definition processed (keys : list string) (k : string) (t t' : Table) : Prop :=
  same_shape t t'
  /\ exists g lg g' lg',
       fold_left (process_fk keys k) (foreign_keys t) (columns t, g, lg)
       = (columns t', g', lg').

Lemma second_pass_spec keys items g lg items' g' lg' :
  second_pass keys items g lg = (items', g', lg') ->
  Forall2 (fun kt kt' => fst kt' = fst kt /\ processed keys (fst kt) (snd kt) (snd kt'))
    items items'
  /\ (forall u v d, get_edge_data g' u v = Some d ->
        get_edge_data g u v = Some d
        \/ exists k t fk, In (k, t) items /\ In fk (foreign_keys t)
             /\ accepts keys (columns t) fk = true /\ writes k fk u v d)
  /\ (forall u v, has_edge g' u v = true <->
        has_edge g u v = true
        \/ exists k t fk, In (k, t) items /\ In fk (foreign_keys t)
             /\ accepts keys (columns t) fk = true /\ links k fk u v).
Proof.
  revert g lg items' g' lg'.
  induction items as [|[k t] rest IH]; intros g lg items' g' lg'; cbn [second_pass].
  - intros H. inversion H; subst. split; [constructor|]. split.
    + auto.
    + intros u v. split; [now left|]. intros [H'|(k & t & fk & [] & _)]. assumption.
  - destruct (fold_left (process_fk keys k) (foreign_keys t) (columns t, g, lg))
      as [[cols g1] lg1] eqn:F.
    destruct (second_pass keys rest g1 lg1) as [[rest' g2] lg2] eqn:S.
    intros H. inversion H; subst items' g' lg'. clear H.
    destruct (IH _ _ _ _ _ S) as (Hf & Hd & He).
    destruct (fold_process_fk_graph _ _ _ _ _ _ _ _ _ F) as (Hn & Hd1 & He1).
    split; [|split].
    + constructor; [|assumption]. simpl. split; [reflexivity|]. split.
      * repeat split; simpl; auto.
      * exists g, lg, g1, lg1. exact F.
    + intros u v d Hg. destruct (Hd u v d Hg) as [H1|(k' & t' & fk & Hin & Hfk & Ha & Hw)].
      * destruct (Hd1 u v d H1) as [H2|(fk & Hfk & Ha & Hw)]; [now left|].
        right. exists k, t, fk. repeat split; [now left | assumption | assumption | assumption].
      * right. exists k', t', fk.
        repeat split; [now right | assumption | assumption | assumption].
    + intros u v. rewrite He, He1. split.
      * intros [[H1|(fk & Hfk & Ha & Hl)]|(k' & t' & fk & Hin & Hfk & Ha & Hl)].
        -- now left.
        -- right. exists k, t, fk.
           repeat split; [now left | assumption | assumption | assumption].
        -- right. exists k', t', fk.
           repeat split; [now right | assumption | assumption | assumption].
      * intros [H1|(k' & t' & fk & [Heq|Hin] & Hfk & Ha & Hl)].
        -- left. now left.
        -- inversion Heq; subst k' t'. left. right. exists fk. auto.
        -- right. exists k', t', fk. auto.
Qed.

(** *** The log of the second pass *)

(** The warning that goes with a declaration the second pass drops. *)
Definition rejection (table_keys : list string) (k : string) (fk : ForeignKey) : warning :=
  if negb (fk_complete fk) then IncompleteForeignKey k fk
  else if negb (Py.mem (fk_ref_table fk) table_keys)
       then ReferencesMissingTable k (fk_col fk) (fk_ref_table fk)
       else ReferencesMissingColumn k (fk_col fk).

Definition rejections (table_keys : list string) (k : string) (t : Table) : list warning :=
  map (rejection table_keys k)
    (filter (fun fk => negb (accepts table_keys (columns t) fk)) (foreign_keys t)).

Lemma process_fk_rejected_log keys k cols g lg fk :
  accepts keys cols fk = false ->
  process_fk keys k (cols, g, lg) fk = (cols, g, lg ++ [rejection keys k fk]).
Proof.
  unfold accepts, process_fk, rejection. fold (fk_complete fk).
  destruct (fk_complete fk); simpl; [|reflexivity].
  fold (fk_col fk) (fk_ref_table fk) (fk_ref_col fk).
  destruct (Py.mem (fk_ref_table fk) keys); simpl; [|reflexivity].
  intros H. now rewrite (mark_foreign_key_none _ _ _ H).
Qed.

Lemma fold_process_fk_log keys k fks cols g lg cols' g' lg' :
  fold_left (process_fk keys k) fks (cols, g, lg) = (cols', g', lg') ->
  lg' = lg ++ map (rejection keys k)
                 (filter (fun fk => negb (accepts keys cols fk)) fks).
Proof.
  revert cols g lg. induction fks as [|fk fks IH]; intros cols g lg; cbn [fold_left].
  - intros H. inversion H. simpl. now rewrite app_nil_r.
  - destruct (process_fk keys k (cols, g, lg) fk) as [[c1 g1] lg1] eqn:P.
    intros H. rewrite (IH _ _ _ H).
    pose proof (process_fk_names _ _ _ _ _ _ _ _ _ P) as Hn1.
    rewrite (filter_ext _ (fun fk0 => negb (accepts keys cols fk0)))
      by (intros; now rewrite (accepts_names _ _ _ _ Hn1)).
    cbn [filter]. destruct (accepts keys cols fk) eqn:A; cbn [negb].
    + destruct (process_fk_accepted keys k cols g lg fk A) as [c2 [_ P']].
      rewrite P' in P. now inversion P.
    + rewrite (process_fk_rejected_log _ _ _ _ _ _ A) in P. inversion P.
      cbn [map]. now rewrite <- app_assoc.
Qed.

Lemma second_pass_log keys items g lg items' g' lg' :
  second_pass keys items g lg = (items', g', lg') ->
  lg' = lg ++ flat_map (fun kt => rejections keys (fst kt) (snd kt)) items.
Proof.
  revert g lg items' g' lg'.
  induction items as [|[k t] rest IH]; intros g lg items' g' lg'; cbn [second_pass].
  - intros H. inversion H. simpl. now rewrite app_nil_r.
  - destruct (fold_left (process_fk keys k) (foreign_keys t) (columns t, g, lg))
      as [[cols g1] lg1] eqn:F.
    destruct (second_pass keys rest g1 lg1) as [[rest' g2] lg2] eqn:S.
    intros H. inversion H; subst items' g' lg'. clear H.
    rewrite (IH _ _ _ _ _ S), (fold_process_fk_log _ _ _ _ _ _ _ _ _ F).
    cbn [flat_map fst snd]. unfold rejections at 2. now rewrite <- app_assoc.
Qed.

(** *** The first pass builds unmarked columns *)

Definition fresh (t : Table) : Prop :=
  forall c, In c (columns t) -> is_foreign_key c = false.

Lemma dict_set_In {V : Type} (k k' : string) (v v' : V) (d : Dict.t V) :
  In (k, v) (Dict.set k' v' d) -> (k = k' /\ v = v') \/ In (k, v) d.
Proof.
  induction d as [|[k0 v0] r IH]; simpl.
  - intros [H|[]]. inversion H. auto.
  - destruct (String.eqb k0 k') eqn:E.
    + apply String.eqb_eq in E. subst k0. intros [H|H].
      * inversion H. auto.
      * right. now right.
    + intros [H|H].
      * right. now left.
      * destruct (IH H) as [H1|H1]; [now left | right; now right].
Qed.

Lemma parse_columns_fresh n cds cols lg :
  (forall c, In c cols -> is_foreign_key c = false) ->
  forall c, In c (fst (fold_left (parse_column n) cds (cols, lg))) ->
            is_foreign_key c = false.
Proof.
  revert cols lg. induction cds as [|cd cds IH]; intros cols lg Hc; cbn [fold_left].
  - exact Hc.
  - unfold parse_column at 2. cbn [fst snd].
    destruct (cd_name cd) as [nm|]; [destruct (Py.truthy nm)|]; apply IH; try assumption.
    intros c Hin. apply in_app_or in Hin. destruct Hin as [Hin|[<- | []]]; auto.
Qed.

Lemma first_pass_fresh tds acc :
  (forall k t, In (k, t) (fst acc) -> fresh t) ->
  forall k t, In (k, t) (fst (fold_left parse_table tds acc)) -> fresh t.
Proof.
  revert acc. induction tds as [|td tds IH]; intros acc Hacc; cbn [fold_left].
  - exact Hacc.
  - apply IH. unfold parse_table.
    destruct (td_name td) as [nm|]; [destruct (Py.truthy nm)|]; cbn [fst]; try assumption.
    match goal with
    | |- context [fold_left ?f ?l ?a] =>
        pose proof (parse_columns_fresh nm l [] (snd a)) as Hcols;
        destruct (fold_left f l a) as [cols lg] eqn:F
    end.
    cbn [fst]. intros k t Hin. apply dict_set_In in Hin.
    destruct Hin as [[_ ->]|Hin]; [|eapply Hacc; eauto].
    intros c Hc. cbn [columns] in Hc.
    apply Hcols; [intros ? []|]. cbn [snd]. now rewrite F.
Qed.

(** *** What the first pass keeps of the document *)

(** The names of the columns a table description gives. *)
Definition named_columns (td : TableData) : list string :=
  flat_map (fun cd => match cd_name cd with
                      | Some n => if Py.truthy n then [n] else []
                      | None => []
                      end) (td_columns td).

Lemma parse_columns_names n cds cols lg :
  map col_name (fst (fold_left (parse_column n) cds (cols, lg)))
  = map col_name cols
    ++ flat_map (fun cd => match cd_name cd with
                           | Some n => if Py.truthy n then [n] else []
                           | None => []
                           end) cds.
Proof.
  revert cols lg. induction cds as [|cd cds IH]; intros cols lg; cbn [fold_left flat_map].
  - now rewrite app_nil_r.
  - unfold parse_column at 2. cbn [fst snd].
    destruct (cd_name cd) as [nm|]; [destruct (Py.truthy nm)|]; rewrite IH.
    + rewrite map_app. cbn [map col_name]. now rewrite <- app_assoc.
    + reflexivity.
    + reflexivity.
Qed.

Lemma dict_set_same {V : Type} (k : string) (v : V) (d : Dict.t V) :
  In (k, v) (Dict.set k v d).
Proof.
  induction d as [|[k0 v0] r IH]; simpl; [now left|].
  destruct (String.eqb k0 k) eqn:E.
  - apply String.eqb_eq in E. subst. now left.
  - now right.
Qed.

Lemma dict_set_other {V : Type} (k k' : string) (v v' : V) (d : Dict.t V) :
  k' <> k -> In (k, v) d -> In (k, v) (Dict.set k' v' d).
Proof.
  intros Hne. induction d as [|[k0 v0] r IH]; simpl; [contradiction|].
  intros [H|H].
  - inversion H; subst. destruct (String.eqb k k') eqn:E.
    + apply String.eqb_eq in E. congruence.
    + now left.
  - destruct (String.eqb k0 k'); right; auto.
Qed.

Lemma parse_table_other acc td k t :
  td_name td <> Some k -> In (k, t) (fst acc) -> In (k, t) (fst (parse_table acc td)).
Proof.
  intros Hn Hin. unfold parse_table.
  destruct (td_name td) as [nm|]; [destruct (Py.truthy nm)|]; cbn [fst]; try assumption.
  match goal with
  | |- context [fold_left ?f ?l ?a] => destruct (fold_left f l a) as [cols lg]
  end.
  cbn [fst]. apply dict_set_other; [congruence | assumption].
Qed.

Lemma first_pass_keeps tds acc k t :
  (forall td, In td tds -> td_name td <> Some k) ->
  In (k, t) (fst acc) -> In (k, t) (fst (fold_left parse_table tds acc)).
Proof.
  revert acc. induction tds as [|td tds IH]; intros acc Hn Hin; cbn [fold_left].
  - assumption.
  - apply IH; [intros; apply Hn; now right|].
    apply parse_table_other; [apply Hn; now left | assumption].
Qed.

Lemma parse_table_named acc td n :
  td_name td = Some n -> Py.truthy n = true ->
  exists t, In (n, t) (fst (parse_table acc td))
    /\ foreign_keys t = td_foreign_keys td
    /\ map col_name (columns t) = named_columns td.
Proof.
  intros Hn Ht. unfold parse_table. rewrite Hn, Ht.
  match goal with
  | |- context [fold_left ?f ?l (?c, ?g)] =>
      pose proof (parse_columns_names n l c g) as Hc;
      destruct (fold_left f l (c, g)) as [cols lg]
  end.
  cbn [fst map app] in *. eexists. split; [apply dict_set_same|]. split; [reflexivity|].
  cbn [columns]. exact Hc.
Qed.

(** The last description of the document under a name is the one stored. *)
Lemma first_pass_last pre td post n :
  td_name td = Some n -> Py.truthy n = true ->
  (forall td', In td' post -> td_name td' <> Some n) ->
  exists t, In (n, t) (fst (first_pass (pre ++ td :: post)))
    /\ foreign_keys t = td_foreign_keys td
    /\ map col_name (columns t) = named_columns td.
Proof.
  intros Hn Ht Hpost. unfold first_pass. rewrite fold_left_app. cbn [fold_left].
  destruct (parse_table_named (fold_left parse_table pre ([], [])) td n Hn Ht)
    as (t & Hin & Hf & Hc).
  exists t. split; [|auto]. now apply first_pass_keeps.
Qed.

(** *** The third pass keeps names and foreign-key marks *)

Lemma identify_primary_key_name c : col_name (identify_primary_key c) = col_name c.
Proof.
  unfold identify_primary_key.
  destruct (is_foreign_key c); [reflexivity|].
  destruct (String.eqb _ "id"); [reflexivity|].
  destruct (_ && _); reflexivity.
Qed.

Lemma identify_primary_key_fk c :
  is_foreign_key (identify_primary_key c) = is_foreign_key c
  /\ col_references (identify_primary_key c) = col_references c.
Proof.
  unfold identify_primary_key.
  destruct (is_foreign_key c) eqn:E; [auto|].
  destruct (String.eqb _ "id"); [auto|].
  destruct (_ && _); auto.
Qed.

Lemma identify_primary_key_names cols :
  map col_name (map identify_primary_key cols) = map col_name cols.
Proof.
  rewrite map_map. apply map_ext. apply identify_primary_key_name.
Qed.

Lemma find_column_identified cols n :
  find_column (map identify_primary_key cols) n
  = option_map identify_primary_key (find_column cols n).
Proof.
  unfold find_column. induction cols as [|c r IH]; simpl; [reflexivity|].
  rewrite identify_primary_key_name.
  destruct (name_matches (col_name c) n); [reflexivity | apply IH].
Qed.

(** *** From the document to the schema *)

(** [t] is the table built from the first-pass table [t0] stored under [k]. *)
Definition built (keys : list string) (k : string) (t0 t : Table) : Prop :=
  exists t1, processed keys k t0 t1
             /\ t = set_columns t1 (map identify_primary_key (columns t1)).

Lemma built_shape keys k t0 t : built keys k t0 t -> same_shape t0 t.
Proof.
  intros [t1 [[(Hn & Hf & Hc) _] ->]]. repeat split; simpl; auto.
  now rewrite identify_primary_key_names.
Qed.

Lemma Forall2_In_l {A B} (R : A -> B -> Prop) l l' x :
  Forall2 R l l' -> In x l -> exists y, In y l' /\ R x y.
Proof.
  induction 1 as [|a b l l' Hab H IH]; intros Hin; [contradiction|].
  destruct Hin as [<-|Hin].
  - exists b. split; [now left | assumption].
  - destruct (IH Hin) as [y [Hy Hr]]. exists y. split; [now right | assumption].
Qed.

Lemma Forall2_In_r {A B} (R : A -> B -> Prop) l l' y :
  Forall2 R l l' -> In y l' -> exists x, In x l /\ R x y.
Proof.
  induction 1 as [|a b l l' Hab H IH]; intros Hin; [contradiction|].
  destruct Hin as [<-|Hin].
  - exists a. split; [now left | assumption].
  - destruct (IH Hin) as [x [Hx Hr]]. exists x. split; [now right | assumption].
Qed.

Lemma Forall2_keys {V} (R : string -> V -> V -> Prop) (l l' : Dict.t V) :
  Forall2 (fun kt kt' => fst kt' = fst kt /\ R (fst kt) (snd kt) (snd kt')) l l' ->
  Dict.keys l' = Dict.keys l.
Proof.
  unfold Dict.keys. induction 1 as [|a b l l' [Hk _] H IH]; simpl; [reflexivity|].
  now rewrite Hk, IH.
Qed.

Lemma Forall2_identify keys (l l' : Dict.t Table) :
  Forall2 (fun kt kt' => fst kt' = fst kt /\ processed keys (fst kt) (snd kt) (snd kt')) l l' ->
  Forall2 (fun kt kt' => fst kt' = fst kt /\ built keys (fst kt) (snd kt) (snd kt'))
    l (_identify_primary_keys l').
Proof.
  induction 1 as [|a b l l' [Hk Hp] H IH]; simpl; constructor; auto.
  simpl. split; [assumption|]. exists (snd b). auto.
Qed.

(** The anatomy of a successful [_parse]. *)
Record parsed (raw : SchemaJson) (s : Schema) (ts : Dict.t Table) : Prop := mkParsed {
  parsed_fresh : forall k t, In (k, t) ts -> fresh t;
  parsed_keys : Dict.keys (tables s) = Dict.keys ts;
  parsed_tables :
    Forall2 (fun kt kt' => fst kt' = fst kt
                           /\ built (Dict.keys ts) (fst kt) (snd kt) (snd kt'))
      ts (tables s);
  parsed_data : forall u v d,
    get_edge_data (relationship_graph s) u v = Some d ->
    exists k t fk, In (k, t) ts /\ In fk (foreign_keys t)
      /\ accepts (Dict.keys ts) (columns t) fk = true /\ writes k fk u v d;
  parsed_edges : forall u v,
    has_edge (relationship_graph s) u v = true <->
    exists k t fk, In (k, t) ts /\ In fk (foreign_keys t)
      /\ accepts (Dict.keys ts) (columns t) fk = true /\ links k fk u v;
  parsed_log : exists lg,
    log s = lg ++ flat_map (fun kt => rejections (Dict.keys ts) (fst kt) (snd kt)) ts;
  parsed_first : ts = fst (first_pass (get_or [] (sj_tables raw)))
}.

Lemma parse_anatomy raw s : _parse raw = Ok s -> exists ts, parsed raw s ts.
Proof.
  unfold _parse. destruct (get_or [] (sj_tables raw)) as [|td tds] eqn:T; [discriminate|].
  destruct (first_pass (td :: tds)) as [ts lg] eqn:F1.
  destruct (second_pass (Dict.keys ts) ts empty lg) as [[ts2 g] lg2] eqn:F2.
  intros H. inversion H; subst s. clear H.
  destruct (second_pass_spec _ _ _ _ _ _ _ F2) as (Hf & Hd & He).
  pose proof (Forall2_identify _ _ _ Hf) as Hb.
  exists ts. constructor; cbn [tables relationship_graph].
  - intros k t Hin. apply (first_pass_fresh (td :: tds) ([], [])) with (k := k);
      [intros ? ? []|].
    unfold first_pass in F1. now rewrite F1.
  - eapply Forall2_keys with (R := built (Dict.keys ts)). exact Hb.
  - exact Hb.
  - intros u v d Hg. destruct (Hd u v d Hg) as [H|H]; [discriminate | exact H].
  - intros u v. rewrite He. split.
    + intros [H|H]; [discriminate | exact H].
    + intros H. now right.
  - exists lg. eapply second_pass_log; eauto.
  - rewrite T. unfold first_pass in *. now rewrite F1.
Qed.

(** A named table description that is the last one under its name is in
    the schema with its declarations and its named columns. *)
Lemma document_table raw s pre td post n :
  _parse raw = Ok s -> get_or [] (sj_tables raw) = pre ++ td :: post ->
  td_name td = Some n -> Py.truthy n = true ->
  (forall td', In td' post -> td_name td' <> Some n) ->
  exists t, In (n, t) (tables s)
    /\ foreign_keys t = td_foreign_keys td
    /\ map col_name (columns t) = named_columns td.
Proof.
  intros Hp Hd Hn Ht Hpost. destruct (parse_anatomy _ _ Hp) as [ts P].
  destruct (first_pass_last pre td post n Hn Ht Hpost) as (t0 & Hin & Hf & Hc).
  rewrite <- Hd, <- (parsed_first _ _ _ P) in Hin.
  destruct (Forall2_In_l _ _ _ _ (parsed_tables _ _ _ P) Hin) as [[k' t] [Hin' [Hk Hb]]].
  simpl in Hk, Hb. subst k'. exists t.
  destruct (built_shape _ _ _ _ Hb) as (_ & Hfks & Hnames).
  split; [assumption|]. split; congruence.
Qed.

Lemma parse_total raw :
  get_or [] (sj_tables raw) <> [] -> exists s, _parse raw = Ok s.
Proof.
  unfold _parse. destruct (get_or [] (sj_tables raw)) as [|td tds]; [congruence|].
  intros _. destruct (first_pass (td :: tds)) as [ts lg].
  destruct (second_pass (Dict.keys ts) ts empty lg) as [[ts2 g] lg2].
  eexists. reflexivity.
Qed.

Lemma built_accepts keys k t0 t fk :
  built keys k t0 t -> accepts keys (columns t) fk = accepts keys (columns t0) fk.
Proof.
  intros H. apply accepts_names. now destruct (built_shape _ _ _ _ H) as (_ & _ & ?).
Qed.

(** An edge of a parsed schema and its attributes come from an accepted
    declaration of one of its tables. *)
Lemma edge_provenance raw s u v d :
  _parse raw = Ok s ->
  get_edge_data (relationship_graph s) u v = Some d ->
  exists k t fk, In (k, t) (tables s) /\ In fk (foreign_keys t)
    /\ fk_accepted s t fk = true /\ writes k fk u v d.
Proof.
  intros Hp Hg. destruct (parse_anatomy _ _ Hp) as [ts P].
  destruct (parsed_data _ _ _ P u v d Hg) as (k & t0 & fk & Hin & Hfk & Ha & Hw).
  destruct (Forall2_In_l _ _ _ _ (parsed_tables _ _ _ P) Hin) as [[k' t] [Hin' [Hk Hb]]].
  simpl in Hk, Hb. subst k'. exists k, t, fk.
  destruct (built_shape _ _ _ _ Hb) as (_ & Hfks & _).
  repeat split; try assumption.
  - now rewrite Hfks.
  - unfold fk_accepted. rewrite (parsed_keys _ _ _ P). now rewrite (built_accepts _ _ _ _ _ Hb).
Qed.

(** The edges of a parsed schema are the links of its accepted declarations. *)
Lemma edge_iff raw s u v :
  _parse raw = Ok s ->
  (has_edge (relationship_graph s) u v = true <->
   exists k t fk, In (k, t) (tables s) /\ In fk (foreign_keys t)
     /\ fk_accepted s t fk = true /\ links k fk u v).
Proof.
  intros Hp. destruct (parse_anatomy _ _ Hp) as [ts P].
  rewrite (parsed_edges _ _ _ P). split.
  - intros (k & t0 & fk & Hin & Hfk & Ha & Hl).
    destruct (Forall2_In_l _ _ _ _ (parsed_tables _ _ _ P) Hin) as [[k' t] [Hin' [Hk Hb]]].
    simpl in Hk, Hb. subst k'. exists k, t, fk.
    destruct (built_shape _ _ _ _ Hb) as (_ & Hfks & _).
    repeat split; try assumption.
    + now rewrite Hfks.
    + unfold fk_accepted. rewrite (parsed_keys _ _ _ P).
      now rewrite (built_accepts _ _ _ _ _ Hb).
  - intros (k & t & fk & Hin & Hfk & Ha & Hl).
    destruct (Forall2_In_r _ _ _ _ (parsed_tables _ _ _ P) Hin) as [[k' t0] [Hin' [Hk Hb]]].
    simpl in Hk, Hb. subst k'. exists k, t0, fk.
    destruct (built_shape _ _ _ _ Hb) as (_ & Hfks & _).
    repeat split; try assumption.
    + now rewrite <- Hfks.
    + unfold fk_accepted in Ha. rewrite (parsed_keys _ _ _ P) in Ha.
      now rewrite (built_accepts _ _ _ _ _ Hb) in Ha.
Qed.

Lemma links_sym k fk u v : links k fk u v -> links k fk v u.
Proof. unfold links. tauto. Qed.

(** The graph of a parsed schema has every edge in both directions. *)
Lemma edges_symmetric raw s u v :
  _parse raw = Ok s ->
  has_edge (relationship_graph s) u v = has_edge (relationship_graph s) v u.
Proof.
  intros Hp. apply eq_true_iff_eq. rewrite !(edge_iff raw s _ _ Hp).
  split; intros (k & t & fk & H1 & H2 & H3 & H4); exists k, t, fk;
    repeat split; try assumption; now apply links_sym.
Qed.

(** A column of a parsed schema is marked only by an accepted declaration
    on it, whose reference it records. *)
Lemma marked_only_by_accepted raw s k t c :
  _parse raw = Ok s -> In (k, t) (tables s) -> In c (columns t) ->
  is_foreign_key c = true ->
  exists fk, In fk (foreign_keys t) /\ fk_accepted s t fk = true
    /\ name_matches (col_name c) (fk_col fk) = true
    /\ col_references c = Some (fk_ref_table fk, fk_ref_col fk).
Proof.
  intros Hp Hin Hc Hfk. destruct (parse_anatomy _ _ Hp) as [ts P].
  destruct (Forall2_In_r _ _ _ _ (parsed_tables _ _ _ P) Hin) as [[k' t0] [Hin0 [Hk Hb]]].
  simpl in Hk, Hb. subst k'.
  pose proof (fun fk => built_accepts _ _ _ _ fk Hb) as Hacc.
  pose proof (parsed_fresh _ _ _ P _ _ Hin0) as Hfresh.
  destruct Hb as [t1 [[(Hn & Hfks & Hnames) (g & lg & g' & lg' & F)] ->]].
  cbn [columns set_columns foreign_keys] in *.
  apply in_map_iff in Hc. destruct Hc as [c1 [<- Hc1]].
  destruct (identify_primary_key_fk c1) as [E1 E2]. rewrite E1 in Hfk.
  destruct (fold_process_fk_columns _ _ _ _ _ _ _ _ _ F) as (Ha & _ & _).
  destruct (Ha c1 Hc1 Hfk) as [[H0 H1]|(fk & Hi & Hac & Hnm & Hr)].
  - rewrite (Hfresh c1 H0) in H1. discriminate.
  - exists fk. rewrite identify_primary_key_name, E2, Hfks.
    repeat split; try assumption.
    unfold fk_accepted. cbn [columns]. rewrite (parsed_keys _ _ _ P). now rewrite Hacc.
Qed.

(** An accepted declaration marks the column it names. *)
Lemma accepted_marks raw s k t fk :
  _parse raw = Ok s -> In (k, t) (tables s) -> In fk (foreign_keys t) ->
  fk_accepted s t fk = true ->
  exists c, get_column t (fk_col fk) = Some c /\ is_foreign_key c = true.
Proof.
  intros Hp Hin Hfk Ha. destruct (parse_anatomy _ _ Hp) as [ts P].
  destruct (Forall2_In_r _ _ _ _ (parsed_tables _ _ _ P) Hin) as [[k' t0] [Hin0 [Hk Hb]]].
  simpl in Hk, Hb. subst k'.
  pose proof (fun fk => built_accepts _ _ _ _ fk Hb) as Hacc.
  unfold fk_accepted in Ha. rewrite (parsed_keys _ _ _ P), Hacc in Ha.
  destruct Hb as [t1 [[(Hn & Hfks & Hnames) (g & lg & g' & lg' & F)] ->]].
  cbn [columns set_columns foreign_keys] in *. rewrite Hfks in Hfk.
  destruct (fold_process_fk_columns _ _ _ _ _ _ _ _ _ F) as (_ & _ & Hm).
  destruct (Hm fk Hfk Ha) as [c [Hf Hc]].
  exists (identify_primary_key c). split.
  - unfold get_column. cbn [columns].
    change (find_column (map identify_primary_key (columns t1)) (fk_col fk)
            = Some (identify_primary_key c)).
    now rewrite find_column_identified, Hf.
  - now rewrite (proj1 (identify_primary_key_fk c)).
Qed.

(** Every declaration a parsed schema did not accept left its warning. *)
Lemma rejected_logged raw s k t fk :
  _parse raw = Ok s -> In (k, t) (tables s) -> In fk (foreign_keys t) ->
  fk_accepted s t fk = false ->
  In (rejection (Dict.keys (tables s)) k fk) (log s).
Proof.
  intros Hp Hin Hfk Ha. destruct (parse_anatomy _ _ Hp) as [ts P].
  destruct (Forall2_In_r _ _ _ _ (parsed_tables _ _ _ P) Hin) as [[k' t0] [Hin0 [Hk Hb]]].
  simpl in Hk, Hb. subst k'.
  unfold fk_accepted in Ha.
  rewrite (parsed_keys _ _ _ P), (built_accepts _ _ _ _ fk Hb) in Ha.
  rewrite (parsed_keys _ _ _ P).
  destruct (built_shape _ _ _ _ Hb) as (_ & Hfks & _). rewrite Hfks in Hfk.
  destruct (parsed_log _ _ _ P) as [lg0 ->]. apply in_or_app. right.
  apply in_flat_map. exists (k, t0). split; [assumption|].
  cbn [fst snd]. unfold rejections. apply in_map. apply filter_In.
  split; [assumption|]. now rewrite Ha.
Qed.

End SchemaFacts.

(** ** Enumeration orders of a set *)

Module SetFacts.

Import Validator Demo.

Lemma insertion_order_NoDup l : NoDup (insertion_order l).
Proof. unfold insertion_order. apply NoDup_rev, NoDup_nodup. Qed.

Lemma insertion_order_In l x : In x (insertion_order l) <-> In x l.
Proof. unfold insertion_order. now rewrite <- in_rev, nodup_In, <- in_rev. Qed.

Lemma reverse_order_NoDup l : NoDup (reverse_order l).
Proof. unfold reverse_order. apply NoDup_nodup. Qed.

Lemma reverse_order_In l x : In x (reverse_order l) <-> In x l.
Proof. unfold reverse_order. now rewrite nodup_In, <- in_rev. Qed.

#[export] Instance first_inserted : SetOrder := {
  set_iter := insertion_order;
  set_iter_NoDup := insertion_order_NoDup;
  set_iter_In := insertion_order_In
}.

Definition last_inserted : SetOrder := {|
  set_iter := reverse_order;
  set_iter_NoDup := reverse_order_NoDup;
  set_iter_In := reverse_order_In
|}.

(** A set with one element has one enumeration, a set with two has two. *)
Lemma set_iter_singleton {SO : SetOrder} (x : string) : set_iter [x] = [x].
Proof.
  pose proof (set_iter_NoDup [x]) as Hn. pose proof (set_iter_In [x]) as Hi.
  destruct (set_iter [x]) as [|a [|b r]].
  - exfalso. apply (Hi x). now left.
  - f_equal. destruct (proj1 (Hi a) (or_introl eq_refl)) as [H|[]]. now subst.
  - exfalso.
    destruct (proj1 (Hi a) (or_introl eq_refl)) as [<- | []].
    destruct (proj1 (Hi b) (or_intror (or_introl eq_refl))) as [<- | []].
    inversion Hn; subst. apply H1. now left.
Qed.

Lemma set_iter_pair {SO : SetOrder} (x y : string) :
  x <> y -> set_iter [x; y] = [x; y] \/ set_iter [x; y] = [y; x].
Proof.
  intros Hxy.
  pose proof (set_iter_NoDup [x; y]) as Hn. pose proof (set_iter_In [x; y]) as Hi.
  assert (Hx : In x (set_iter [x; y])) by (apply Hi; now left).
  assert (Hy : In y (set_iter [x; y])) by (apply Hi; right; now left).
  assert (Hall : forall a, In a (set_iter [x; y]) -> a = x \/ a = y).
  { intros a Ha. apply Hi in Ha. destruct Ha as [<-|[<- | []]]; auto. }
  destruct (set_iter [x; y]) as [|a [|b [|c r]]].
  - contradiction.
  - destruct Hx as [<- | []]. destruct Hy as [H|[]]. congruence.
  - inversion Hn as [|? ? Ha Hn']; subst.
    destruct (Hall a (or_introl eq_refl)) as [-> | ->];
      destruct (Hall b (or_intror (or_introl eq_refl))) as [-> | ->]; auto;
      exfalso; apply Ha; now left.
  - exfalso. inversion Hn as [|? ? Ha Hn']; subst.
    inversion Hn' as [|? ? Hb Hn'']; subst.
    destruct (Hall a (or_introl eq_refl)) as [-> | ->];
      destruct (Hall b (or_intror (or_introl eq_refl))) as [-> | ->];
      destruct (Hall c (or_intror (or_intror (or_introl eq_refl)))) as [-> | ->];
      try (apply Ha; simpl; tauto); try (apply Hb; simpl; tauto).
Qed.

End SetFacts.

(** ** The validator *)

Module ValidatorFacts.

Import Nx NxFacts SchemaParser SchemaFacts Models Validator Demo SetFacts.

(** The semantic settings reach only the warnings of the join loop. *)
Lemma validate_joins_config {SP : ShortestPath} config config' schema base js :
  forall i tq errs w w',
  match validate_joins config schema base i js tq errs w,
        validate_joins config' schema base i js tq errs w' with
  | Ok (t1, e1, _), Ok (t2, e2, _) => t1 = t2 /\ e1 = e2
  | Raise x, Raise y => x = y
  | _, _ => False
  end.
Proof.
  induction js as [|j js IH]; intros i tq errs w w'; cbn [validate_joins].
  - auto.
  - destruct (_extract_table_name (join_table j)) as [jt|e]; cbn [bind]; [|reflexivity].
    destruct (negb (has_table schema jt)); [apply IH|].
    destruct (_validate_join_path schema base jt j (i + 1)) as [je jw].
    apply IH.
Qed.

(** The last step of [validate_view]: from the accumulated errors to the
    result. *)
Definition conclude (compile : ViewDefinition -> result string) (view : ViewDefinition)
  (errs warns : list string) : ValidationResult :=
  let '(sql, errs) :=
    match errs with
    | [] =>
        match compile view with
        | Ok text => (Some text, errs)
        | Raise e => (None, errs ++ [String.append "SQL compilation failed: " (exn_str e)])
        end
    | _ => (None, errs)
    end in
  mkResult (List.length errs =? 0) (name view) errs warns sql.

Lemma conclude_verdict compile view errs warns :
  let r := conclude compile view errs warns in
  (is_valid r = true <-> errors r = [])
  /\ (sql r <> None <-> is_valid r = true)
  /\ (forall e, compile view = Raise e -> sql r = None /\ is_valid r = false)
  /\ warnings r = warns.
Proof.
  unfold conclude. destruct errs as [|x errs].
  - destruct (compile view) as [text|e]; simpl; repeat split; try congruence;
      try discriminate; intros; try discriminate; congruence.
  - simpl. repeat split; try congruence; try discriminate; intros; discriminate.
Qed.

Lemma conclude_warnings compile view errs w w' :
  is_valid (conclude compile view errs w') = is_valid (conclude compile view errs w)
  /\ errors (conclude compile view errs w') = errors (conclude compile view errs w)
  /\ sql (conclude compile view errs w') = sql (conclude compile view errs w).
Proof.
  unfold conclude. destruct errs; [destruct (compile view)|]; simpl; auto.
Qed.

(** Every result of [validate_view] is either the early one for a missing
    base table or concluded from accumulated errors and warnings. *)
Lemma validate_view_with_shape {SP : ShortestPath} {SO : SetOrder}
  config schema compile view r :
  validate_view_with config schema compile view = Ok r ->
  (exists msg, r = mkResult false (name view) [msg] [] None)
  \/ exists errs warns, r = conclude compile view errs warns.
Proof.
  unfold validate_view_with.
  destruct (_extract_table_name (from_table (query view))) as [base|e]; cbn [bind];
    [|discriminate].
  destruct (negb (has_table schema base)).
  - intros H. inversion H. left. eexists. reflexivity.
  - destruct (validate_joins config schema base 0 (joins (query view)) [base] [] [])
      as [[[tq errs] warns]|e]; cbn [bind]; [|discriminate].
    destruct (_validate_select_columns schema (select (query view)) tq) as [se|e];
      cbn [bind]; [|discriminate].
    intros H. right.
    match type of H with
    | (let '(_, _) := match ?E with _ => _ end in _) = _ =>
        exists E, warns; unfold conclude; destruct E
    end; [destruct (compile view)|]; inversion H; reflexivity.
Qed.

(** The verdict and the errors do not depend on the semantic settings. *)
Lemma validate_view_with_config {SP : ShortestPath} {SO : SetOrder}
  config config' schema compile view r :
  validate_view_with config schema compile view = Ok r ->
  exists r', validate_view_with config' schema compile view = Ok r'
    /\ is_valid r' = is_valid r /\ errors r' = errors r /\ sql r' = sql r.
Proof.
  unfold validate_view_with.
  destruct (_extract_table_name (from_table (query view))) as [base|e]; cbn [bind];
    [|discriminate].
  destruct (negb (has_table schema base)).
  - intros H. inversion H. eexists. split; [reflexivity|]. auto.
  - pose proof (validate_joins_config config config' schema base (joins (query view))
                  0 [base] [] [] []) as Hj.
    destruct (validate_joins config schema base 0 (joins (query view)) [base] [] [])
      as [[[tq errs] warns]|e]; cbn [bind]; [|discriminate].
    destruct (validate_joins config' schema base 0 (joins (query view)) [base] [] [])
      as [[[tq' errs'] warns']|e']; [|contradiction].
    destruct Hj as [<- <-]. cbn [bind].
    destruct (_validate_select_columns schema (select (query view)) tq) as [se|e];
      cbn [bind]; [|discriminate].
    intros H.
    match type of H with
    | (let '(_, _) := match ?E with _ => _ end in _) = _ => destruct E
    end; [destruct (compile view)|]; inversion H; eexists; (split; [reflexivity|]);
      simpl; auto.
Qed.

Lemma find_extensional {A : Type} (f g : A -> bool) (l : list A) :
  (forall x, f x = g x) -> find f l = find g l.
Proof.
  intros H. induction l as [|a r IH]; simpl; [reflexivity|].
  now rewrite H, IH.
Qed.

(** How a reference is resolved.  When its prefix names a table of the
    schema, the first enumerated table of the query is the one searched,
    whatever the prefix. *)
Lemma check_reference_schema_table {SO : SetOrder} schema clause tables t rest toa col :
  has_table schema toa = true -> set_iter tables = t :: rest ->
  check_reference schema clause tables toa col
  = if negb (has_column schema t col)
    then [fstr [clause; ": Column '"; col; "' does not exist in table '"; t; "'"]]
    else [].
Proof.
  intros Ht Hs. unfold check_reference. rewrite Hs. cbn [find].
  rewrite Ht, orb_true_r. reflexivity.
Qed.

(** When the prefix names no table of the schema, the reference is unknown
    unless a table of the query has its name, and then it lacks the column. *)
Lemma check_reference_other {SO : SetOrder} schema clause tables toa col :
  has_table schema toa = false ->
  check_reference schema clause tables toa col
  = match find (fun table => String.eqb (Py.lower table) (Py.lower toa)) (set_iter tables) with
    | Some table =>
        [fstr [clause; ": Column '"; col; "' does not exist in table '"; table; "'"]]
    | None => [fstr [clause; ": Unknown table reference '"; toa; "'"]]
    end.
Proof.
  intros Ht. unfold check_reference.
  rewrite (find_extensional _ (fun table => String.eqb (Py.lower table) (Py.lower toa)))
    by (intros; now rewrite Ht, orb_false_r).
  destruct (find _ (set_iter tables)) as [table|] eqn:F; [|reflexivity].
  apply find_some in F. destruct F as [_ F].
  assert (H : has_column schema table col = false).
  { unfold has_column, has_table, get_table, name_matches in *.
    rewrite (find_extensional _ (fun kt => String.eqb (Py.lower (fst kt)) (Py.lower toa))).
    - destruct (find _ (SchemaParser.tables schema)); [discriminate | reflexivity].
    - intros kt. apply String.eqb_eq in F. now rewrite F. }
  now rewrite H.
Qed.

(** C6.  In every result of [validate_view] (whatever compiler runs inside
    its [try] block) the verdict is valid exactly when the error list is
    empty; hence two results with the same errors have the same verdict
    whatever their warnings; and changing the semantic settings, which only
    produce warnings, changes neither the verdict nor the errors. *)
Theorem verdict_valid_iff_no_errors {SP : ShortestPath} {SO : SetOrder}
  (config : Config) (schema : Schema) (compile : ViewDefinition -> result string)
  (view : ViewDefinition) (r : ValidationResult) :
  validate_view_with config schema compile view = Ok r ->
  (is_valid r = true <-> errors r = [])
  /\ (forall config' schema' compile' view' r',
        validate_view_with config' schema' compile' view' = Ok r' ->
        errors r' = errors r -> is_valid r' = is_valid r)
  /\ (forall config', exists r',
        validate_view_with config' schema compile view = Ok r'
        /\ is_valid r' = is_valid r /\ errors r' = errors r).
Proof.
  assert (Hiff : forall c s cp v x, validate_view_with c s cp v = Ok x ->
                   (is_valid x = true <-> errors x = [])).
  { intros c s cp v x Hx.
    destruct (validate_view_with_shape _ _ _ _ _ Hx) as [[msg ->]|[errs [warns ->]]].
    - simpl. split; discriminate.
    - apply conclude_verdict. }
  intros H. split; [eapply Hiff; eauto|]. split.
  - intros config' schema' compile' view' r' H' He.
    pose proof (Hiff _ _ _ _ _ H) as I. pose proof (Hiff _ _ _ _ _ H') as I'.
    rewrite He in I'. destruct (is_valid r), (is_valid r'); try reflexivity.
    + apply I'. now apply I.
    + symmetry. apply I. now apply I'.
  - intros config'.
    destruct (validate_view_with_config config config' _ _ _ _ H) as [r' (H1 & H2 & H3 & _)].
    exists r'. auto.
Qed.

(** C10.  In every result of [validate_view] the compiled SQL is present
    exactly when the result is valid; when the compiler raises, the result
    is invalid and carries no SQL. *)
Theorem sql_present_iff_valid {SP : ShortestPath} {SO : SetOrder}
  (config : Config) (schema : Schema) (compile : ViewDefinition -> result string)
  (view : ViewDefinition) (r : ValidationResult) :
  validate_view_with config schema compile view = Ok r ->
  (sql r <> None <-> is_valid r = true)
  /\ (forall e, compile view = Raise e -> sql r = None /\ is_valid r = false).
Proof.
  intros H.
  destruct (validate_view_with_shape _ _ _ _ _ H) as [[msg ->]|[errs [warns ->]]].
  - simpl. split; [split; [congruence | discriminate] | auto].
  - destruct (conclude_verdict compile view errs warns) as (_ & H2 & H3 & _). auto.
Qed.

Lemma verdict_valid_iff_no_errors_shop :
  exists r,
    validate_view (SP := bfs_shortest_path) (SO := first_inserted) strict shop_schema
      (mkView "v" "" orders_customers) = Ok r
    /\ warnings r <> []
    /\ (is_valid r = true <-> errors r = []).
Proof.
  eexists. split; [vm_compute; reflexivity|]. split; [discriminate|].
  exact (proj1 (verdict_valid_iff_no_errors (SP := bfs_shortest_path)
                  (SO := first_inserted) strict shop_schema
                  (fun view => Ok (_compile_to_sql view))
                  (mkView "v" "" orders_customers) _ eq_refl)).
Defined.

Lemma sql_present_iff_valid_shop :
  exists r,
    validate_view_with (SP := bfs_shortest_path) (SO := first_inserted) quiet shop_schema
      (fun _ => Raise IndexError) (mkView "v" "" orders_customers) = Ok r
    /\ sql r = None /\ is_valid r = false.
Proof.
  eexists. split; [vm_compute; reflexivity|].
  exact (proj2 (sql_present_iff_valid (SP := bfs_shortest_path)
                  (SO := first_inserted) quiet shop_schema
                  (fun _ => Raise IndexError)
                  (mkView "v" "" orders_customers) _ eq_refl) IndexError eq_refl).
Defined.

End ValidatorFacts.

(** ** Join paths *)

Module JoinPathFacts.

Import Nx NxFacts SchemaParser SchemaFacts.

Section Routes.

Context {SP : ShortestPath}.

(** The end of [get_join_path]: from the two graph nodes to the result. *)
Definition route (g : DiGraph) (n1 n2 : string) : option (list hop) :=
  match shortest_path g n1 n2 with
  | None => None
  | Some path_nodes =>
      match join_conditions g path_nodes with
      | [] => None
      | join_path => Some join_path
      end
  end.

Lemma get_join_path_unfold s table1 table2 :
  get_join_path s table1 table2 =
  if String.eqb table1 table2 then Some []
  else if negb (truthy_opt (normalize s table1)) || negb (truthy_opt (normalize s table2))
       then None
       else
         let n1 := get_or "" (normalize s table1) in
         let n2 := get_or "" (normalize s table2) in
         if negb (has_node (relationship_graph s) n1)
            || negb (has_node (relationship_graph s) n2)
         then None
         else route (relationship_graph s) n1 n2.
Proof. reflexivity. Qed.

Lemma is_path_two g s t p :
  s <> t -> is_path g s t p -> exists y rest, p = s :: y :: rest.
Proof.
  intros Hst (Hh & Hl & Hne & Hw). destruct p as [|x [|y rest]].
  - congruence.
  - simpl in Hh, Hl. inversion Hh. congruence.
  - simpl in Hh. inversion Hh. eauto.
Qed.

Lemma join_conditions_two g x y rest :
  walk g (x :: y :: rest) -> join_conditions g (x :: y :: rest) <> [].
Proof.
  intros [He _]. cbn [join_conditions]. unfold has_edge in He.
  destruct (get_edge_data g x y); [discriminate | discriminate].
Qed.

Lemma route_self g n : has_node g n = true -> route g n n = None.
Proof.
  intros H. unfold route. now rewrite (shortest_path_self g n H).
Qed.

Lemma route_connected g n1 n2 :
  n1 <> n2 -> has_node g n1 = true -> has_node g n2 = true ->
  (route g n1 n2 <> None <-> exists p, is_path g n1 n2 p).
Proof.
  intros Hne H1 H2. unfold route. split.
  - destruct (shortest_path g n1 n2) as [p|] eqn:E; [|congruence].
    intros _. exists p. now apply shortest_path_sound.
  - intros [p Hp]. pose proof (shortest_path_complete g n1 n2 p H1 H2 Hp) as Hc.
    destruct (shortest_path g n1 n2) as [q|] eqn:E; [|congruence].
    apply shortest_path_sound in E.
    destruct (is_path_two _ _ _ _ Hne E) as (y & rest & ->).
    destruct E as (_ & _ & _ & Hw).
    pose proof (join_conditions_two _ _ _ _ Hw) as Hj.
    destruct (join_conditions g (n1 :: y :: rest)); congruence.
Qed.

(** *** Walks can be reversed when every edge has its opposite *)

Definition symmetric (g : DiGraph) : Prop :=
  forall u v, has_edge g u v = has_edge g v u.

Lemma walk_app_one g p m d :
  walk g p -> (p <> [] -> has_edge g (last p d) m = true) -> walk g (p ++ [m]).
Proof.
  intros Hw He. destruct p as [|x r]; [exact I|].
  apply (walk_snoc g (x :: r) d (last (x :: r) d) m);
    [discriminate | assumption | reflexivity | apply He; discriminate].
Qed.

Lemma walk_rev g p : symmetric g -> walk g p -> walk g (rev p).
Proof.
  intros Hs. induction p as [|x r IH]; intros Hw; [exact I|].
  cbn [rev]. destruct r as [|y r'].
  - exact I.
  - destruct Hw as [He Hw]. apply (walk_app_one g (rev (y :: r')) x x).
    + now apply IH.
    + intros _. cbn [rev]. rewrite last_last. now rewrite Hs.
Qed.

Lemma hd_error_rev {A} (l : list A) (d : A) : l <> [] -> hd_error (rev l) = Some (last l d).
Proof.
  induction l as [|a [|b r] IH]; intros H; [congruence | reflexivity |].
  change (rev (a :: b :: r)) with (rev (b :: r) ++ [a]).
  change (last (a :: b :: r) d) with (last (b :: r) d).
  assert (Hn : b :: r <> []) by discriminate. specialize (IH Hn).
  destruct (rev (b :: r)) as [|z zs]; [discriminate|]. exact IH.
Qed.

Lemma is_path_rev g s t p : symmetric g -> is_path g s t p -> is_path g t s (rev p).
Proof.
  intros Hs (Hh & Hl & Hne & Hw). repeat split.
  - rewrite (hd_error_rev p s Hne). now rewrite Hl.
  - destruct p as [|x r]; [congruence|]. simpl in Hh. inversion Hh; subst x.
    cbn [rev]. apply last_last.
  - intros H. apply (f_equal (@rev string)) in H. rewrite rev_involutive in H.
    now apply Hne.
  - now apply walk_rev.
Qed.

Lemma route_symmetric g n1 n2 :
  symmetric g -> has_node g n1 = true -> has_node g n2 = true ->
  (route g n1 n2 <> None <-> route g n2 n1 <> None).
Proof.
  intros Hs H1 H2. destruct (string_dec n1 n2) as [->|Hne]; [tauto|].
  rewrite (route_connected g n1 n2 Hne H1 H2).
  rewrite (route_connected g n2 n1 (fun e => Hne (eq_sym e)) H2 H1).
  split; intros [p Hp]; exists (rev p); now apply is_path_rev.
Qed.

(** C7.  Over the schema built from any document, a join path is returned
    from [table1] to [table2] exactly when one is returned from [table2] to
    [table1]. *)
Theorem join_path_symmetric (raw : SchemaJson) (s : Schema) (table1 table2 : string) :
  _parse raw = Ok s ->
  (get_join_path s table1 table2 <> None <-> get_join_path s table2 table1 <> None).
Proof.
  intros Hp. rewrite !get_join_path_unfold. rewrite (String.eqb_sym table2 table1).
  destruct (String.eqb table1 table2); [tauto|].
  rewrite (orb_comm (negb (truthy_opt (normalize s table2)))).
  destruct (negb (truthy_opt (normalize s table1)) || negb (truthy_opt (normalize s table2)));
    [tauto|].
  cbv zeta.
  rewrite (orb_comm (negb (has_node _ (get_or "" (normalize s table2))))).
  destruct (has_node (relationship_graph s) (get_or "" (normalize s table1))) eqn:H1;
    [|simpl; tauto].
  destruct (has_node (relationship_graph s) (get_or "" (normalize s table2))) eqn:H2;
    [|simpl; tauto].
  simpl. apply route_symmetric; try assumption.
  intros u v. eapply edges_symmetric; eauto.
Qed.

End Routes.

Lemma join_path_symmetric_shop :
  get_join_path (SP := bfs_shortest_path) Demo.shop_schema "orders" "customers" <> None
  <-> get_join_path (SP := bfs_shortest_path) Demo.shop_schema "customers" "orders" <> None.
Proof.
  exact (join_path_symmetric (SP := bfs_shortest_path) Demo.shop Demo.shop_schema
           "orders" "customers" eq_refl).
Defined.

End JoinPathFacts.

(** ** Foreign keys and the relationship graph *)

Module RelationshipGraph.

Import Nx NxFacts SchemaParser SchemaFacts Demo.

(** C2, as the builder has it.  A document with a non-empty tables array
    whose entries have the types the parser expects (the shape of
    [SchemaJson]: an array of objects in which names, types, descriptions
    and the three entries of a declaration are strings or absent, and
    ['columns'] and ['foreign_keys'] are arrays of objects or absent) is
    parsed without an exception,
    and each named table description (the last one under its name) is a
    table of the schema with its declarations.  A
    declaration of a table is recorded exactly when it is accepted: its
    three entries are present, the referenced table is a key of the schema
    and the declaring table has the originating column; whether the
    referenced column exists plays no part.  An accepted declaration has its
    two edges and marks its column; any other one leaves its warning in the
    log; and every edge and every marked column comes from an accepted
    declaration. *)
Theorem foreign_key_recorded_iff_accepted (raw : SchemaJson) :
  get_or [] (sj_tables raw) <> [] ->
  exists s, _parse raw = Ok s
    /\ (forall pre td post n,
          get_or [] (sj_tables raw) = pre ++ td :: post ->
          td_name td = Some n -> Py.truthy n = true ->
          (forall td', In td' post -> td_name td' <> Some n) ->
          exists t, In (n, t) (tables s) /\ foreign_keys t = td_foreign_keys td
            /\ map col_name (columns t) = named_columns td)
    /\ (forall k t fk, In (k, t) (tables s) -> In fk (foreign_keys t) ->
          if fk_accepted s t fk
          then has_edge (relationship_graph s) k (fk_ref_table fk) = true
               /\ has_edge (relationship_graph s) (fk_ref_table fk) k = true
               /\ exists c, get_column t (fk_col fk) = Some c /\ is_foreign_key c = true
          else In (rejection (Dict.keys (tables s)) k fk) (log s))
    /\ (forall u v, has_edge (relationship_graph s) u v = true ->
          exists k t fk, In (k, t) (tables s) /\ In fk (foreign_keys t)
            /\ fk_accepted s t fk = true /\ links k fk u v)
    /\ (forall k t c, In (k, t) (tables s) -> In c (columns t) ->
          is_foreign_key c = true ->
          exists fk, In fk (foreign_keys t) /\ fk_accepted s t fk = true
            /\ name_matches (col_name c) (fk_col fk) = true
            /\ col_references c = Some (fk_ref_table fk, fk_ref_col fk)).
Proof.
  intros Hne. destruct (parse_total raw Hne) as [s Hp]. exists s.
  split; [assumption|]. split; [|split; [|split]].
  - intros pre td post n Hd Hn Ht Hpost. eapply document_table; eauto.
  - intros k t fk Hin Hfk. destruct (fk_accepted s t fk) eqn:A.
    + split; [|split].
      * apply (edge_iff raw s _ _ Hp). exists k, t, fk.
        repeat split; try assumption. left. auto.
      * apply (edge_iff raw s _ _ Hp). exists k, t, fk.
        repeat split; try assumption. right. auto.
      * eapply accepted_marks; eauto.
    + eapply rejected_logged; eauto.
  - intros u v H. now apply (edge_iff raw s u v Hp).
  - intros k t c Hin Hc Hfk. eapply marked_only_by_accepted; eauto.
Qed.

Lemma foreign_key_recorded_iff_accepted_shop :
  get_or [] (sj_tables shop) <> [] /\ exists s, _parse shop = Ok s.
Proof.
  assert (H : get_or [] (sj_tables shop) <> []) by (simpl; discriminate).
  split; [exact H|].
  destruct (foreign_key_recorded_iff_accepted shop H) as [s [Hs _]].
  exists s. exact Hs.
Defined.

(** A declaration whose referenced column does not exist is recorded all
    the same: both edges are there, the column is marked and nothing is
    logged. *)
Lemma dangling_reference_recorded :
  exists s, _parse shop_dangling = Ok s
    /\ has_table s "customers" = true
    /\ has_column s "customers" "nope" = false
    /\ has_edge (relationship_graph s) "orders" "customers" = true
    /\ has_edge (relationship_graph s) "customers" "orders" = true
    /\ option_map (fun t => option_map is_foreign_key (get_column t "customer_id"))
         (get_table s "orders") = Some (Some true)
    /\ log s = [].
Proof. eexists. split; [reflexivity|]. repeat split. Qed.

(** The accepted declarations of one table, each with the name of the
    table, in the order of its ['foreign_keys'] array. *)
Definition declarations_of (keys : list string) (kt : string * Table)
  : list (string * ForeignKey) :=
  map (pair (fst kt)) (filter (accepts keys (columns (snd kt))) (foreign_keys (snd kt))).

(** The accepted declarations of a schema in the order in which the second
    pass meets them: table by table, declaration by declaration. *)
Definition accepted_declarations (s : Schema) : list (string * ForeignKey) :=
  flat_map (declarations_of (Dict.keys (tables s))) (tables s).

(** The two writes of one accepted declaration. *)
Definition record (g : DiGraph) (d : string * ForeignKey) : DiGraph :=
  record_edges g (fst d) (snd d).

Lemma accepted_declarations_In s k fk :
  In (k, fk) (accepted_declarations s) <->
  exists t, In (k, t) (tables s) /\ In fk (foreign_keys t) /\ fk_accepted s t fk = true.
Proof.
  unfold accepted_declarations, declarations_of, fk_accepted.
  rewrite in_flat_map. split.
  - intros [[k' t] [Hin Hd]]. cbn [fst snd] in Hd. apply in_map_iff in Hd.
    destruct Hd as [fk' [He Hf]]. inversion He; subst. apply filter_In in Hf.
    exists t. tauto.
  - intros [t (Hin & Hfk & Ha)]. exists (k, t). split; [assumption|].
    cbn [fst snd]. apply in_map, filter_In. auto.
Qed.

Lemma filter_same {A : Type} (f g : A -> bool) (l : list A) :
  (forall x, f x = g x) -> filter f l = filter g l.
Proof.
  intros H. induction l as [|x r IH]; simpl; [reflexivity|]. now rewrite H, IH.
Qed.

(** The graph after the declarations of one table. *)
Lemma fold_process_fk_records keys k fks :
  forall cols g lg,
  snd (fst (fold_left (process_fk keys k) fks (cols, g, lg)))
  = fold_left record (map (pair k) (filter (accepts keys cols) fks)) g.
Proof.
  induction fks as [|fk fks IH]; intros cols g lg; cbn [fold_left filter]; [reflexivity|].
  destruct (accepts keys cols fk) eqn:A.
  - destruct (process_fk_accepted keys k cols g lg fk A) as [cols' [Hm ->]].
    rewrite IH. cbn [map fold_left]. unfold record at 2. cbn [fst snd].
    rewrite (filter_same (accepts keys cols') (accepts keys cols)); [reflexivity|].
    intros x. apply accepts_names. eapply mark_foreign_key_names; eauto.
  - destruct (process_fk_rejected keys k cols g lg fk A) as [w ->]. apply IH.
Qed.

(** The graph after the second pass. *)
Lemma second_pass_records keys items :
  forall g lg,
  snd (fst (second_pass keys items g lg))
  = fold_left record (flat_map (declarations_of keys) items) g.
Proof.
  induction items as [|[k t] rest IH]; intros g lg; cbn [second_pass flat_map];
    [reflexivity|].
  pose proof (fold_process_fk_records keys k (foreign_keys t) (columns t) g lg) as H.
  match goal with
  | |- context [fold_left ?f ?l (?c, ?a, ?b)] =>
      destruct (fold_left f l (c, a, b)) as [[cols g1] lg1]
  end.
  cbn [fst snd] in H. specialize (IH g1 lg1).
  destruct (second_pass keys rest g1 lg1) as [[rest' g2] lg2]. cbn [fst snd] in *.
  rewrite fold_left_app, IH. unfold declarations_of at 2. cbn [fst snd]. now rewrite H.
Qed.

Lemma flat_map_Forall2 {A B C : Type} (R : A -> B -> Prop) (f : A -> list C)
  (g : B -> list C) l l' :
  Forall2 R l l' -> (forall x y, R x y -> f x = g y) -> flat_map f l = flat_map g l'.
Proof.
  intros H Hfg. induction H as [|x y l l' Hxy _ IH]; cbn [flat_map]; [reflexivity|].
  now rewrite (Hfg x y Hxy), IH.
Qed.

(** The graph of a parsed schema is what the writes of its accepted
    declarations, taken in order, leave. *)
Lemma graph_of_declarations raw s :
  _parse raw = Ok s ->
  relationship_graph s = fold_left record (accepted_declarations s) empty.
Proof.
  unfold _parse. destruct (get_or [] (sj_tables raw)) as [|td tds]; [discriminate|].
  destruct (first_pass (td :: tds)) as [ts lg] eqn:F1.
  pose proof (second_pass_records (Dict.keys ts) ts empty lg) as G.
  destruct (second_pass (Dict.keys ts) ts empty lg) as [[ts2 g] lg2] eqn:F2.
  cbn [fst snd] in G. intros H. inversion H; subst s. clear H.
  cbn [relationship_graph]. rewrite G. f_equal.
  destruct (second_pass_spec _ _ _ _ _ _ _ F2) as (Hf & _ & _).
  pose proof (Forall2_identify _ _ _ Hf) as Hb.
  unfold accepted_declarations. cbn [tables].
  rewrite (Forall2_keys (built (Dict.keys ts)) _ _ Hb).
  apply (flat_map_Forall2 _ _ _ _ _ Hb).
  intros [k t0] [k' t] [Hk Hbuilt]. cbn [fst snd] in *. subst k'.
  unfold declarations_of. cbn [fst snd].
  destruct (built_shape _ _ _ _ Hbuilt) as (_ & Hfks & _). rewrite Hfks.
  f_equal. apply filter_same. intros fk. symmetry. eapply built_accepts; eauto.
Qed.

(** A declaration that does not link two tables leaves the edges between
    them as they are. *)
Lemma record_elsewhere g d u v :
  ~ links (fst d) (snd d) u v ->
  get_edge_data (record g d) u v = get_edge_data g u v.
Proof.
  intros H. unfold record, record_edges. rewrite !get_edge_data_add_edge.
  destruct (pair_eqb (fk_ref_table (snd d), fst d) (u, v)) eqn:E1.
  - apply pair_eqb_eq in E1. inversion E1; subst. exfalso. apply H. right. auto.
  - destruct (pair_eqb (fst d, fk_ref_table (snd d)) (u, v)) eqn:E2; [|reflexivity].
    apply pair_eqb_eq in E2. inversion E2; subst. exfalso. apply H. left. auto.
Qed.

Lemma fold_record_elsewhere ds u v :
  (forall d, In d ds -> ~ links (fst d) (snd d) u v) ->
  forall g, get_edge_data (fold_left record ds g) u v = get_edge_data g u v.
Proof.
  induction ds as [|d ds IH]; intros H g; cbn [fold_left]; [reflexivity|].
  rewrite IH by (intros d' Hd'; apply H; now right).
  apply record_elsewhere, H. now left.
Qed.

(** The last declaration that links two tables decides both edges between
    them. *)
Lemma last_declaration_decides pre k fk post g :
  (forall d, In d post -> ~ links (fst d) (snd d) k (fk_ref_table fk)) ->
  let g' := fold_left record (pre ++ (k, fk) :: post) g in
  get_edge_data g' (fk_ref_table fk) k = Some (reverse_edge (fk_col fk) (fk_ref_col fk))
  /\ (k <> fk_ref_table fk ->
      get_edge_data g' k (fk_ref_table fk)
      = Some (forward_edge (fk_col fk) (fk_ref_col fk))).
Proof.
  intros Hpost g'. subst g'. rewrite fold_left_app. cbn [fold_left]. split.
  - rewrite fold_record_elsewhere
      by (intros d Hd Hl; apply (Hpost d Hd); now apply links_sym).
    unfold record, record_edges. cbn [fst snd].
    now rewrite get_edge_data_add_edge, pair_eqb_refl.
  - intros Hne. rewrite fold_record_elsewhere by assumption.
    unfold record, record_edges. cbn [fst snd].
    rewrite !get_edge_data_add_edge, pair_eqb_refl.
    replace (pair_eqb (fk_ref_table fk, k) (k, fk_ref_table fk)) with false;
      [reflexivity|].
    symmetry. apply pair_eqb_neq. intros E. inversion E. congruence.
Qed.

(** Whether a declaration links two tables. *)
Definition linksb (u v : string) (d : string * ForeignKey) : bool :=
  pair_eqb (fst d, fk_ref_table (snd d)) (u, v)
  || pair_eqb (fk_ref_table (snd d), fst d) (u, v).

Lemma linksb_iff u v d : linksb u v d = true <-> links (fst d) (snd d) u v.
Proof.
  unfold linksb, links. rewrite orb_true_iff, !pair_eqb_eq. split.
  - intros [H|H]; inversion H; auto.
  - intros [[-> ->]|[-> ->]]; auto.
Qed.

(** The last element of a list with a given property. *)
Lemma last_such {A : Type} (f : A -> bool) (l : list A) :
  existsb f l = true ->
  exists pre y post, l = pre ++ y :: post /\ f y = true
    /\ forall z, In z post -> f z = false.
Proof.
  induction l as [|a r IH]; cbn [existsb]; [discriminate|].
  destruct (existsb f r) eqn:E.
  - intros _. destruct (IH eq_refl) as (pre & y & post & -> & Hy & Hpost).
    exists (a :: pre), y, post. auto.
  - rewrite orb_false_r. intros Ha. exists [], a, r. repeat split; [assumption|].
    intros z Hz. destruct (f z) eqn:Fz; [|reflexivity].
    assert (existsb f r = true) by (apply existsb_exists; eauto). congruence.
Qed.

(** C4, as the graph has it.  An accepted declaration has an edge from its
    table to the referenced table and one back.  The graph keeps one set of
    attributes per ordered pair of tables, and each accepted declaration
    writes its forward edge and then its reverse edge, so the two edges
    between two tables are those of the last accepted declaration that
    links the two, in either direction: its reverse edge from the
    referenced to the declaring table and, when the two differ, its forward
    edge the other way; for a table that references itself the one edge is
    the reverse edge.  In particular the edges carry the columns and tags
    of this declaration when it links two different tables and every
    accepted declaration between the two goes the same way with the same
    columns. *)
Theorem accepted_foreign_key_edges (raw : SchemaJson) (s : Schema) (k : string)
  (t : Table) (fk : ForeignKey) :
  _parse raw = Ok s -> In (k, t) (tables s) -> In fk (foreign_keys t) ->
  fk_accepted s t fk = true ->
  has_edge (relationship_graph s) k (fk_ref_table fk) = true
  /\ has_edge (relationship_graph s) (fk_ref_table fk) k = true
  /\ (k <> fk_ref_table fk ->
      (forall k' t' fk', In (k', t') (tables s) -> In fk' (foreign_keys t') ->
         fk_accepted s t' fk' = true -> links k' fk' k (fk_ref_table fk) ->
         k' = k /\ fk_col fk' = fk_col fk /\ fk_ref_col fk' = fk_ref_col fk) ->
      get_edge_data (relationship_graph s) k (fk_ref_table fk)
        = Some (forward_edge (fk_col fk) (fk_ref_col fk))
      /\ get_edge_data (relationship_graph s) (fk_ref_table fk) k
        = Some (reverse_edge (fk_col fk) (fk_ref_col fk)))
  /\ (forall k0 fk0,
        In (k0, fk0) (accepted_declarations s) <->
        exists t0, In (k0, t0) (tables s) /\ In fk0 (foreign_keys t0)
          /\ fk_accepted s t0 fk0 = true)
  /\ (exists pre k' fk' post,
        accepted_declarations s = pre ++ (k', fk') :: post
        /\ links k' fk' k (fk_ref_table fk)
        /\ (forall d, In d post -> ~ links (fst d) (snd d) k (fk_ref_table fk))
        /\ get_edge_data (relationship_graph s) (fk_ref_table fk') k'
           = Some (reverse_edge (fk_col fk') (fk_ref_col fk'))
        /\ (k' <> fk_ref_table fk' ->
            get_edge_data (relationship_graph s) k' (fk_ref_table fk')
            = Some (forward_edge (fk_col fk') (fk_ref_col fk')))).
Proof.
  intros Hp Hin Hfk Ha.
  assert (E1 : has_edge (relationship_graph s) k (fk_ref_table fk) = true).
  { apply (edge_iff raw s _ _ Hp). exists k, t, fk. repeat split; try assumption.
    left. auto. }
  assert (E2 : has_edge (relationship_graph s) (fk_ref_table fk) k = true).
  { apply (edge_iff raw s _ _ Hp). exists k, t, fk. repeat split; try assumption.
    right. auto. }
  split; [assumption|]. split; [assumption|]. split; [|split].
  - intros Hne Huniq. split.
    + unfold has_edge in E1.
      destruct (get_edge_data (relationship_graph s) k (fk_ref_table fk)) as [d|] eqn:G;
        [|discriminate].
      destruct (edge_provenance raw s _ _ _ Hp G) as (k' & t' & fk' & Hin' & Hfk' & Ha' & Hw).
      destruct Hw as [(Hk & Hr & Hd)|(Hk & Hr & Hd)].
      * destruct (Huniq k' t' fk' Hin' Hfk' Ha') as (_ & Hc & Hrc); [left; auto|].
        now rewrite Hd, Hc, Hrc.
      * destruct (Huniq k' t' fk' Hin' Hfk' Ha') as (Hk' & _); [right; auto|].
        congruence.
    + unfold has_edge in E2.
      destruct (get_edge_data (relationship_graph s) (fk_ref_table fk) k) as [d|] eqn:G;
        [|discriminate].
      destruct (edge_provenance raw s _ _ _ Hp G) as (k' & t' & fk' & Hin' & Hfk' & Ha' & Hw).
      destruct Hw as [(Hk & Hr & Hd)|(Hk & Hr & Hd)].
      * destruct (Huniq k' t' fk' Hin' Hfk' Ha') as (Hk' & _); [right; auto|].
        congruence.
      * destruct (Huniq k' t' fk' Hin' Hfk' Ha') as (_ & Hc & Hrc); [left; auto|].
        now rewrite Hd, Hc, Hrc.
  - intros k0 fk0. apply accepted_declarations_In.
  - assert (Hex : existsb (linksb k (fk_ref_table fk)) (accepted_declarations s) = true).
    { apply existsb_exists. exists (k, fk). split.
      - apply accepted_declarations_In. exists t. auto.
      - apply linksb_iff. left. auto. }
    destruct (last_such _ _ Hex) as (pre & [k' fk'] & post & Hl & Hy & Hpost).
    apply linksb_iff in Hy. cbn [fst snd] in Hy.
    assert (Hpost' : forall d, In d post -> ~ links (fst d) (snd d) k (fk_ref_table fk)).
    { intros d Hd Hld. apply linksb_iff in Hld. rewrite (Hpost d Hd) in Hld. discriminate. }
    exists pre, k', fk', post. split; [assumption|]. split; [assumption|].
    split; [assumption|].
    rewrite (graph_of_declarations raw s Hp), Hl.
    apply last_declaration_decides.
    intros d Hd Hld. apply (Hpost' d Hd).
    destruct Hy as [[-> ->]|[-> ->]]; [assumption | now apply links_sym].
Qed.

Lemma accepted_foreign_key_edges_shop :
  has_edge (relationship_graph shop_schema) "orders" "customers" = true
  /\ has_edge (relationship_graph shop_schema) "customers" "orders" = true.
Proof.
  pose proof (accepted_foreign_key_edges shop shop_schema "orders" shop_orders
                (fk "customer_id" "customers" "id") eq_refl
                (or_introl eq_refl) (or_introl eq_refl) eq_refl) as H.
  exact (conj (proj1 H) (proj1 (proj2 H))).
Defined.

(** A self-referencing declaration leaves one edge, tagged as reverse; of
    two declarations between the same tables the last one's columns are
    the ones the two edges carry. *)
Lemma one_edge_per_ordered_pair :
  (exists s, _parse staff = Ok s
     /\ adj (relationship_graph s)
        = [(("employees", "employees"), mkEdgeData "id" "manager_id" "reverse")])
  /\ (exists s, _parse shipping = Ok s
       /\ adj (relationship_graph s)
          = [(("orders", "addresses"), mkEdgeData "shipping_id" "id" "forward");
             (("addresses", "orders"), mkEdgeData "id" "shipping_id" "reverse")]).
Proof. split; eexists; split; reflexivity. Qed.

End RelationshipGraph.

(** ** Worked scenarios *)

Module Scenarios.

Import Nx NxFacts SchemaParser SchemaFacts Models Validator Demo SetFacts JoinPathFacts.

Lemma parse_shop : _parse shop = Ok shop_schema.
Proof. reflexivity. Qed.

(** Evaluate the validator while the lookups in the schema, the
    enumeration of the table set and the semantic check stay folded. *)
Ltac evaluate_checks :=
  cbv -[has_table has_column get_join_path set_iter _validate_semantic_relevance
        enable_semantic_validation].

Section AnyEnvironment.

Context {SP : ShortestPath} {SO : SetOrder}.
Variable config : Config.

(** [orders] and [customers] are joined by one hop. *)
Lemma shop_join_path :
  exists jp, get_join_path shop_schema "orders" "customers" = Some jp.
Proof.
  rewrite get_join_path_unfold.
  assert (R : route (relationship_graph shop_schema) "orders" "customers" <> None).
  { apply route_connected; [discriminate | reflexivity | reflexivity |].
    exists ["orders"; "customers"]. repeat split; simpl; auto. discriminate. }
  change (exists jp, route (relationship_graph shop_schema) "orders" "customers" = Some jp).
  destruct (route _ _ _) as [jp|]; [eauto | congruence].
Qed.

(** What the scenario needs of a schema: both tables, their [id] columns
    and a join path from [orders] to [customers]. *)
Lemma two_table_join_valid (schema : Schema) (n d : string) :
  has_table schema "orders" = true -> has_table schema "customers" = true ->
  has_column schema "orders" "id" = true -> has_column schema "customers" "id" = true ->
  get_join_path schema "orders" "customers" <> None ->
  exists r, validate_view config schema (mkView n d orders_customers) = Ok r
    /\ errors r = [] /\ is_valid r = true /\ sql r = Some orders_customers_sql.
Proof.
  intros Ho Hc Hoi Hci Hjp.
  destruct (get_join_path schema "orders" "customers") as [jp|] eqn:J; [clear Hjp|congruence].
  unfold validate_view, validate_view_with.
  evaluate_checks. rewrite Ho. evaluate_checks. rewrite Hc, J.
  destruct (set_iter_pair "orders" "customers") as [Hs|Hs]; try discriminate;
    evaluate_checks; rewrite Hs; evaluate_checks; rewrite ?Ho, ?Hc;
    evaluate_checks; rewrite ?Hoi, ?Hci; evaluate_checks;
    (eexists; repeat split).
Qed.

(** C5, as amended: with the column [id] that the select list reads among
    the columns of [orders].  Over [orders(id, customer_id -> customers.id)]
    and [customers(id)], the view that joins [customers] to [orders] and
    selects [orders.id] and [customers.id] is built without a construction
    error, validates with no error and compiles to the three expected
    lines, under every enumeration order of the table set, every semantic
    setting and every path finder. *)
Theorem orders_customers_valid (n d : string) :
  exists j s r,
    JoinSpecification_new "INNER" "customers" "orders.customer_id = customers.id" = Ok j
    /\ _parse shop = Ok s
    /\ validate_view config s
         (mkView n d (mkQuery ["orders.id"; "customers.id"] "orders" [j]
                        None None None None)) = Ok r
    /\ errors r = [] /\ is_valid r = true
    /\ sql r = Some orders_customers_sql.
Proof.
  exists (mkJoin "INNER" "customers" "orders.customer_id = customers.id"), shop_schema.
  destruct (two_table_join_valid shop_schema n d) as [r Hr];
    try reflexivity.
  - destruct shop_join_path as [jp ->]. discriminate.
  - exists r. split; [reflexivity|]. split; [reflexivity|]. exact Hr.
Qed.

(** Over the schema where [customer_id] is the only column of [orders] the
    same view passes when [customers] is enumerated first and fails, with
    both messages naming [orders], when [orders] is. *)
Lemma minimal_schema_follows_enumeration (n d : string) :
  (set_iter ["orders"; "customers"] = ["customers"; "orders"] ->
   exists s r, _parse shop_minimal = Ok s
     /\ validate_view config s (mkView n d orders_customers) = Ok r
     /\ errors r = [])
  /\ (set_iter ["orders"; "customers"] = ["orders"; "customers"] ->
      exists s r, _parse shop_minimal = Ok s
        /\ validate_view config s (mkView n d orders_customers) = Ok r
        /\ errors r = ["SELECT: Column 'id' does not exist in table 'orders'";
                       "SELECT: Column 'id' does not exist in table 'orders'"]).
Proof.
  assert (P : exists jp, get_join_path
                (match _parse shop_minimal with Ok s => s | Raise _ => shop_schema end)
                "orders" "customers" = Some jp).
  { rewrite get_join_path_unfold.
    match goal with
    | |- exists jp, ?X = Some jp =>
        assert (R : route (relationship_graph
                      (match _parse shop_minimal with Ok s => s | Raise _ => shop_schema end))
                      "orders" "customers" <> None);
        [ apply route_connected; [discriminate | reflexivity | reflexivity |];
          exists ["orders"; "customers"]; repeat split; simpl; auto; discriminate
        | change X with (route (relationship_graph
                      (match _parse shop_minimal with Ok s => s | Raise _ => shop_schema end))
                      "orders" "customers");
          destruct (route _ _ _) as [jp|]; [eauto | congruence] ]
    end. }
  destruct P as [jp Hjp]. cbv -[set_iter get_join_path] in Hjp.
  split; intros Ho; eexists; cbv -[set_iter get_join_path]; rewrite Hjp, Ho;
    (eexists; split; [reflexivity|]; split; reflexivity).
Qed.

(** C1 does not hold of the code.  Over [shop], the view that reads
    [orders] alone and selects [customers.id] is reported valid: the prefix
    [customers] is not in the table set of the query, yet no error is
    produced, because the column is looked up in [orders].  This is so
    under every enumeration order, semantic setting and path finder. *)
Theorem stray_select_reference_accepted (n d : string) :
  (s <- _parse shop ;; validate_view config s (mkView n d stray_reference))
  = Ok (mkResult true n [] []
          (Some (String.concat nl ["SELECT customers.id"; "FROM orders;"]))).
Proof.
  cbv -[set_iter]. rewrite set_iter_singleton. reflexivity.
Qed.

(** C3 does not hold of the code.  Two spellings of the name of one table
    get the no-path answer, whether the table has declarations ([shop]) or
    not ([lonely]), while the same spelling twice gets the empty path.
    This is so for every path finder that meets the contract. *)
Theorem case_variant_names_have_no_path :
  (s <- _parse shop ;; Ok (get_join_path s "Orders" "orders")) = Ok None
  /\ (s <- _parse lonely ;; Ok (get_join_path s "Orders" "orders")) = Ok None
  /\ (s <- _parse shop ;; Ok (get_join_path s "orders" "orders")) = Ok (Some [])
  /\ (s <- _parse lonely ;; Ok (get_join_path s "orders" "orders")) = Ok (Some []).
Proof.
  repeat split; try reflexivity.
  cbv -[shortest_path]. rewrite shortest_path_self by reflexivity. reflexivity.
Qed.

(** The validator turns that answer into a join error. *)
Lemma case_variant_self_join_rejected (n d : string) :
  exists r, validate_view config shop_schema (mkView n d self_join) = Ok r
    /\ errors r = ["Join #1: No foreign key path exists between 'Orders' and 'orders'"]
    /\ is_valid r = false.
Proof.
  assert (Hjp : get_join_path shop_schema "Orders" "orders" = None).
  { cbv -[shortest_path]. rewrite shortest_path_self by reflexivity. reflexivity. }
  cbv -[set_iter get_join_path] in Hjp.
  destruct (set_iter_pair "Orders" "orders") as [Ho|Ho]; try discriminate;
    cbv -[set_iter get_join_path]; rewrite Hjp, Ho;
    (eexists; split; [reflexivity|]; split; reflexivity).
Qed.

End AnyEnvironment.

(** Both outcomes over the minimal schema occur: enumeration in insertion
    order gives the two errors, the opposite order gives none. *)
Lemma minimal_schema_both_outcomes :
  match s <- _parse shop_minimal ;;
        validate_view (SP := bfs_shortest_path) (SO := first_inserted) quiet s
          (mkView "v" "" orders_customers) with
  | Ok r => errors r = ["SELECT: Column 'id' does not exist in table 'orders'";
                        "SELECT: Column 'id' does not exist in table 'orders'"]
  | Raise _ => False
  end
  /\ match s <- _parse shop_minimal ;;
           validate_view (SP := bfs_shortest_path) (SO := last_inserted) quiet s
             (mkView "v" "" orders_customers) with
     | Ok r => errors r = [] /\ sql r = Some orders_customers_sql
     | Raise _ => False
     end.
Proof. split; vm_compute; auto. Qed.

(** C5 does not hold as it is written.  Over the schema of the claim,
    where [customer_id] is the only column of [orders], the view is
    rejected when the table set is enumerated in insertion order:
    [orders.id] names a column that [orders] does not have, there are two
    errors and no SQL. *)
Lemma minimal_schema_rejected :
  (s <- _parse shop_minimal ;;
   validate_view (SP := bfs_shortest_path) (SO := first_inserted) quiet s
     (mkView "v" "" orders_customers))
  = Ok (mkResult false "v"
          ["SELECT: Column 'id' does not exist in table 'orders'";
           "SELECT: Column 'id' does not exist in table 'orders'"] [] None).
Proof. vm_compute. reflexivity. Qed.

End Scenarios.

(** ** View names *)

Module ViewNames.

Import Models.

(** The sanitization as worded: lowercase, spaces and hyphens to
    underscores, then only alphanumerics and underscores kept. *)
Definition underscore_and_keep (w : string) : string :=
  Py.filter_str keep_char (Py.replace_char "-" "_" (Py.replace_char " " "_" w)).

Definition sanitize_as_worded (v : string) : string := underscore_and_keep (Py.lower v).

Lemma keep_all_when_alnum w :
  Py.forall_str Py.isalnum_char (Py.remove_char "_" (Py.remove_char "_" w)) = true ->
  Py.filter_str keep_char w = w.
Proof.
  unfold Py.remove_char. induction w as [|c r IH]; simpl; [reflexivity|].
  unfold keep_char at 1. destruct (Ascii.eqb c "_") eqn:E; simpl.
  - rewrite orb_true_r. intros H. now rewrite IH.
  - rewrite E. simpl. intros H. apply andb_true_iff in H. destruct H as [Hc Hr].
    rewrite Hc. simpl. now rewrite IH.
Qed.

(** The test before the filter makes no difference: the filter leaves
    alone the names the test lets through. *)
Lemma conditional_filter w :
  (if negb (Py.isalnum (Py.remove_char "_" (Py.remove_char "_" w)))
   then Py.filter_str keep_char w else w)
  = Py.filter_str keep_char w.
Proof.
  destruct (Py.isalnum (Py.remove_char "_" (Py.remove_char "_" w))) eqn:E; simpl;
    [|reflexivity].
  unfold Py.isalnum in E. apply andb_true_iff in E. destruct E as [_ E].
  symmetry. now apply keep_all_when_alnum.
Qed.

(** C9, as the validator has it.  The name is lowercased and trimmed of
    leading and trailing whitespace; then spaces and hyphens become
    underscores and every character that is neither alphanumeric nor an
    underscore is dropped; an empty outcome is a construction error.
    ["Customer Orders!!"] becomes ["customer_orders"]. *)
Theorem validate_view_name_sanitizes (v : string) :
  validate_view_name v
  = (let s := underscore_and_keep (Py.strip (Py.lower v)) in
     if Py.truthy s then Ok s
     else Raise (ValueError "View name cannot be empty after sanitization"))
  /\ validate_view_name "Customer Orders!!" = Ok "customer_orders"
  /\ is_ok (validate_view_name "!!") = false.
Proof.
  split; [|split; reflexivity].
  unfold validate_view_name, underscore_and_keep. cbv zeta.
  rewrite conditional_filter.
  destruct (Py.truthy _); reflexivity.
Qed.

(** A leading space is trimmed, not replaced by an underscore. *)
Lemma leading_space_is_trimmed :
  validate_view_name " a" = Ok "a"
  /\ sanitize_as_worded " a" = "_a"
  /\ validate_view_name " a" <> Ok (sanitize_as_worded " a").
Proof. repeat split. discriminate. Qed.

End ViewNames.

(** ** Deduplication *)

Module Deduplication.

Import Models Validator.

(** Two views have the same signature. *)
Definition same_signature (v w : ViewDefinition) : bool :=
  match view_signature v, view_signature w with
  | Ok a, Ok b => signature_eqb a b
  | _, _ => false
  end.

(** The first occurrence of each signature, in the original order: a view
    is kept when none of the views before it has its signature. *)
Fixpoint first_occurrences_after (earlier views : list ViewDefinition)
  : list ViewDefinition :=
  match views with
  | [] => []
  | v :: rest =>
      (if existsb (same_signature v) earlier then [] else [v])
        ++ first_occurrences_after (earlier ++ [v]) rest
  end.

Definition first_occurrences : list ViewDefinition -> list ViewDefinition :=
  first_occurrences_after [].

(** *** Equality of signatures is an equivalence *)

Lemma forallb_mem_incl a b : forallb (fun x => Py.mem x b) a = true <-> incl a b.
Proof.
  rewrite forallb_forall. unfold incl. split; intros H x Hx.
  - apply mem_In. now apply H.
  - apply mem_In. now apply H.
Qed.

Lemma set_eqb_iff a b : set_eqb a b = true <-> incl a b /\ incl b a.
Proof. unfold set_eqb. now rewrite andb_true_iff, !forallb_mem_incl. Qed.

Lemma tuple_eqb_iff a b : tuple_eqb a b = true <-> a = b.
Proof.
  unfold tuple_eqb. destruct (list_eq_dec string_dec a b); split; congruence.
Qed.

Lemma signature_eqb_iff s1 s2 :
  signature_eqb s1 s2 = true <->
  (incl (fst s1) (fst s2) /\ incl (fst s2) (fst s1)) /\ snd s1 = snd s2.
Proof. unfold signature_eqb. now rewrite andb_true_iff, set_eqb_iff, tuple_eqb_iff. Qed.

Lemma signature_eqb_refl s : signature_eqb s s = true.
Proof. apply signature_eqb_iff. repeat split; apply incl_refl. Qed.

Lemma signature_eqb_sym s1 s2 : signature_eqb s1 s2 = signature_eqb s2 s1.
Proof.
  apply eq_true_iff_eq. rewrite !signature_eqb_iff.
  split; intros [[H1 H2] H3]; auto.
Qed.

Lemma signature_eqb_trans s1 s2 s3 :
  signature_eqb s1 s2 = true -> signature_eqb s2 s3 = true -> signature_eqb s1 s3 = true.
Proof.
  rewrite !signature_eqb_iff. intros [[A1 A2] A3] [[B1 B2] B3]. repeat split.
  - eapply incl_tran; eauto.
  - eapply incl_tran; eauto.
  - congruence.
Qed.

Lemma same_signature_sym v w : same_signature v w = same_signature w v.
Proof.
  unfold same_signature.
  destruct (view_signature v), (view_signature w); try reflexivity.
  apply signature_eqb_sym.
Qed.

Lemma same_signature_trans u v w :
  same_signature u v = true -> same_signature v w = true -> same_signature u w = true.
Proof.
  unfold same_signature.
  destruct (view_signature u), (view_signature v), (view_signature w);
    try discriminate. apply signature_eqb_trans.
Qed.

(** *** The loop computes the first occurrences *)

(** [seen] holds, up to equality of signatures, the signatures of [earlier]. *)
Definition tracks (earlier : list ViewDefinition) (seen : list signature) : Prop :=
  forall w sg, view_signature w = Ok sg ->
    existsb (signature_eqb sg) seen = existsb (same_signature w) earlier.

Lemma tracks_step_new earlier seen v sg :
  tracks earlier seen -> view_signature v = Ok sg ->
  tracks (earlier ++ [v]) (seen ++ [sg]).
Proof.
  intros T Hv w sgw Hw. rewrite !existsb_app, (T w sgw Hw). simpl.
  unfold same_signature. now rewrite Hw, Hv.
Qed.

Lemma tracks_step_seen earlier seen v sg :
  tracks earlier seen -> view_signature v = Ok sg ->
  existsb (signature_eqb sg) seen = true ->
  tracks (earlier ++ [v]) seen.
Proof.
  intros T Hv Hs w sgw Hw. rewrite existsb_app, (T w sgw Hw). simpl.
  rewrite orb_false_r.
  destruct (same_signature w v) eqn:E; [|now rewrite orb_false_r].
  rewrite orb_true_r. rewrite <- (T w sgw Hw).
  apply existsb_exists in Hs. destruct Hs as [sg' [Hin He]].
  apply existsb_exists. exists sg'. split; [assumption|].
  unfold same_signature in E. rewrite Hw, Hv in E.
  eapply signature_eqb_trans; eauto.
Qed.

Lemma dedup_loop_first_occurrences views :
  forall earlier unique_views seen,
  (forall v, In v views -> is_ok (view_signature v) = true) ->
  tracks earlier seen ->
  dedup_loop views unique_views seen
  = Ok (unique_views ++ first_occurrences_after earlier views).
Proof.
  induction views as [|v rest IH]; intros earlier u seen Hok T; cbn [dedup_loop].
  - simpl. now rewrite app_nil_r.
  - cbn [first_occurrences_after].
    assert (Hv : is_ok (view_signature v) = true) by (apply Hok; now left).
    destruct (view_signature v) as [sg|e] eqn:S; [|discriminate]. cbn [bind].
    rewrite <- (T v sg S).
    destruct (existsb (signature_eqb sg) seen) eqn:E; cbn [negb].
    + rewrite (IH (earlier ++ [v]) u seen); [reflexivity | |].
      * intros v' H'. apply Hok. now right.
      * eapply tracks_step_seen; eauto.
    + rewrite (IH (earlier ++ [v]) (u ++ [v]) (seen ++ [sg])).
      * now rewrite <- app_assoc.
      * intros v' H'. apply Hok. now right.
      * eapply tracks_step_new; eauto.
Qed.

(** The loop returns only when every view has a signature. *)
Lemma dedup_loop_ok views :
  forall unique_views seen out,
  dedup_loop views unique_views seen = Ok out ->
  forall v, In v views -> is_ok (view_signature v) = true.
Proof.
  induction views as [|v rest IH]; intros u seen out H v' Hin; [contradiction|].
  cbn [dedup_loop] in H.
  destruct (view_signature v) as [sg|e] eqn:S; [|discriminate]. cbn [bind] in H.
  destruct Hin as [<-|Hin]; [now rewrite S|].
  destruct (negb (existsb (signature_eqb sg) seen)); eapply IH; eauto.
Qed.

(** *** The first occurrences are their own first occurrences *)







(** Of [a; b; a'] where [a'] has the signature of [a] and [b] has
    another one, [a; b] is kept. *)
Lemma deduplicate_views_first_seen (a b a' : ViewDefinition) :
  same_signature a a' = true -> same_signature a b = false ->
  is_ok (view_signature b) = true ->
  deduplicate_views [a; b; a'] = Ok [a; b].
Proof.
  intros Haa Hab Hb. unfold deduplicate_views.
  rewrite (dedup_loop_first_occurrences [a; b; a'] [] [] []).
  - cbn. rewrite (same_signature_sym b a), Hab, (same_signature_sym a' a), Haa.
    reflexivity.
  - unfold same_signature in Haa.
    destruct (view_signature a) eqn:Sa; [|discriminate].
    destruct (view_signature a') eqn:Sa'; [|discriminate].
    intros v [<-|[<-|[<-|[]]]]; [now rewrite Sa | assumption | now rewrite Sa'].
  - intros w sg _. reflexivity.
Qed.


End Deduplication.

(** * Further properties of the code *)

(** ** More on the schema builder *)

Module SchemaInvariants.

Import Nx NxFacts SchemaParser SchemaFacts.

(** *** What every graph built by the second pass satisfies *)

Lemma fold_process_fk_graph_inv (P : DiGraph -> Prop) keys k fks :
  (forall g a b d, P g -> P (add_edge g a b d)) ->
  forall cols g lg, P g ->
  P (snd (fst (fold_left (process_fk keys k) fks (cols, g, lg)))).
Proof.
  intros Hadd. induction fks as [|fk fks IH]; intros cols g lg Hg; cbn [fold_left].
  - exact Hg.
  - destruct (accepts keys cols fk) eqn:A.
    + destruct (process_fk_accepted keys k cols g lg fk A) as [c2 [_ ->]].
      apply IH. unfold record_edges. now apply Hadd, Hadd.
    + destruct (process_fk_rejected keys k cols g lg fk A) as [w ->]. now apply IH.
Qed.

Lemma second_pass_graph_inv (P : DiGraph -> Prop) keys items :
  (forall g a b d, P g -> P (add_edge g a b d)) ->
  forall g lg, P g -> P (snd (fst (second_pass keys items g lg))).
Proof.
  intros Hadd. induction items as [|[k t] rest IH]; intros g lg Hg; cbn [second_pass].
  - exact Hg.
  - pose proof (fold_process_fk_graph_inv P keys k (foreign_keys t) Hadd (columns t) g lg Hg)
      as H1.
    destruct (fold_left (process_fk keys k) (foreign_keys t) (columns t, g, lg))
      as [[cols g1] lg1].
    cbn [fst snd] in H1. specialize (IH g1 lg1 H1).
    destruct (second_pass keys rest g1 lg1) as [[rest' g2] lg2]. exact IH.
Qed.

Lemma parse_graph_inv (P : DiGraph -> Prop) raw s :
  (forall g a b d, P g -> P (add_edge g a b d)) -> P empty ->
  _parse raw = Ok s -> P (relationship_graph s).
Proof.
  intros Hadd H0. unfold _parse.
  destruct (get_or [] (sj_tables raw)) as [|td tds]; [discriminate|].
  destruct (first_pass (td :: tds)) as [ts lg].
  pose proof (second_pass_graph_inv P (Dict.keys ts) ts Hadd empty lg H0) as H.
  destruct (second_pass (Dict.keys ts) ts empty lg) as [[ts2 g] lg2].
  intros E. inversion E. exact H.
Qed.

Lemma add_node_In u x ns : In u (add_node x ns) <-> u = x \/ In u ns.
Proof.
  unfold add_node. destruct (Py.mem x ns) eqn:E.
  - apply mem_In in E. split; [auto|]. intros [->|H]; assumption.
  - rewrite in_app_iff. simpl. split.
    + intros [H|[H|[]]]; auto.
    + intros [->|H]; auto.
Qed.

Lemma has_node_add_edge g a b d u :
  has_node (add_edge g a b d) u = true <-> u = a \/ u = b \/ has_node g u = true.
Proof.
  unfold has_node, add_edge. cbn [nodes].
  rewrite !mem_In, !add_node_In. tauto.
Qed.

(** A node is a node because an edge touches it. *)
Definition nodes_touch_edges (g : DiGraph) : Prop :=
  forall u, has_node g u = true <->
            exists v, has_edge g u v = true \/ has_edge g v u = true.

Lemma nodes_touch_edges_add g a b d :
  nodes_touch_edges g -> nodes_touch_edges (add_edge g a b d).
Proof.
  intros H u. rewrite has_node_add_edge, (H u). split.
  - intros [->|[->|[v Hv]]].
    + exists b. left. rewrite has_edge_add_edge. now rewrite pair_eqb_refl.
    + exists a. right. rewrite has_edge_add_edge. now rewrite pair_eqb_refl.
    + exists v. rewrite !has_edge_add_edge. destruct Hv as [Hv|Hv]; rewrite Hv, orb_true_r; auto.
  - intros [v Hv]. rewrite !has_edge_add_edge, !orb_true_iff, !pair_eqb_eq in Hv.
    destruct Hv as [[Hv|Hv]|[Hv|Hv]].
    + inversion Hv. auto.
    + right. right. exists v. auto.
    + inversion Hv. auto.
    + right. right. exists v. auto.
Qed.


(** *** Table names *)

Lemma dict_set_keys_In {V : Type} (k k' : string) (v : V) (d : Dict.t V) :
  In k (Dict.keys (Dict.set k' v d)) <-> k = k' \/ In k (Dict.keys d).
Proof.
  unfold Dict.keys. induction d as [|[k0 v0] r IH]; simpl.
  - split; [intros [H|[]]; auto | intros [H|[]]; auto].
  - destruct (String.eqb k0 k') eqn:E; simpl.
    + apply String.eqb_eq in E. subst. split; [intros [H|H]; auto | intros [H|[H|H]]; auto].
    + rewrite IH. split; [intros [H|[H|H]]; auto | intros [H|[H|H]]; auto].
Qed.

Lemma dict_set_keys_NoDup {V : Type} (k : string) (v : V) (d : Dict.t V) :
  NoDup (Dict.keys d) -> NoDup (Dict.keys (Dict.set k v d)).
Proof.
  unfold Dict.keys. induction d as [|[k0 v0] r IH]; simpl; intros H.
  - repeat constructor. intros [].
  - destruct (String.eqb k0 k) eqn:E; simpl; [assumption|].
    inversion H as [|? ? Hn Hr]; subst. constructor; [|now apply IH].
    intros Hin. apply (dict_set_keys_In k0 k v r) in Hin.
    destruct Hin as [->|Hin]; [|contradiction].
    rewrite String.eqb_refl in E. discriminate.
Qed.

(** A dictionary of tables keyed by their own, non-empty and distinct
    names. *)
Definition keyed (ts : Dict.t Table) : Prop :=
  NoDup (Dict.keys ts)
  /\ forall k t, In (k, t) ts -> tbl_name t = k /\ Py.truthy k = true.

Lemma parse_table_keyed acc td : keyed (fst acc) -> keyed (fst (parse_table acc td)).
Proof.
  intros [Hn Hk]. unfold parse_table.
  destruct (td_name td) as [nm|]; [destruct (Py.truthy nm) eqn:T|]; cbn [fst];
    try (split; assumption).
  match goal with
  | |- context [fold_left ?f ?l ?a] => destruct (fold_left f l a) as [cols lg]
  end.
  cbn [fst]. split.
  - now apply dict_set_keys_NoDup.
  - intros k t Hin. apply dict_set_In in Hin. destruct Hin as [[-> ->]|Hin]; auto.
Qed.

Lemma first_pass_keyed tds : keyed (fst (first_pass tds)).
Proof.
  unfold first_pass.
  assert (H : keyed (fst (([], []) : Dict.t Table * list warning))).
  { split; [constructor | intros k t []]. }
  revert H. generalize (([], []) : Dict.t Table * list warning).
  induction tds as [|td tds IH]; intros acc H; cbn [fold_left]; [exact H|].
  apply IH. now apply parse_table_keyed.
Qed.

Lemma parse_table_keys acc td k :
  In k (Dict.keys (fst (parse_table acc td))) <->
  In k (Dict.keys (fst acc)) \/ (td_name td = Some k /\ Py.truthy k = true).
Proof.
  unfold parse_table.
  destruct (td_name td) as [nm|]; [destruct (Py.truthy nm) eqn:T|]; cbn [fst].
  - match goal with
    | |- context [fold_left ?f ?l ?a] => destruct (fold_left f l a) as [cols lg]
    end.
    cbn [fst]. rewrite dict_set_keys_In. split.
    + intros [->|H]; auto.
    + intros [H|[H _]]; auto. inversion H. auto.
  - split; [auto|]. intros [H|[H H']]; [assumption|]. inversion H; subst. congruence.
  - split; [auto|]. intros [H|[H _]]; [assumption | discriminate].
Qed.

Lemma first_pass_keys tds k :
  In k (Dict.keys (fst (first_pass tds))) <->
  exists td, In td tds /\ td_name td = Some k /\ Py.truthy k = true.
Proof.
  unfold first_pass.
  assert (G : forall acc,
            In k (Dict.keys (fst (fold_left parse_table tds acc))) <->
            In k (Dict.keys (fst acc))
            \/ exists td, In td tds /\ td_name td = Some k /\ Py.truthy k = true).
  { induction tds as [|td tds IH]; intros acc; cbn [fold_left].
    - split; [auto|]. intros [H|[td [[] _]]]. assumption.
    - rewrite IH, parse_table_keys. split.
      + intros [[H|H]|[td' [Hin H]]]; auto.
        * right. exists td. split; [now left | assumption].
        * right. exists td'. split; [now right | assumption].
      + intros [H|[td' [[<-|Hin] H]]]; auto. right. exists td'. auto. }
  rewrite G. simpl. split; [intros [[]|H]; assumption | auto].
Qed.

Lemma has_table_keys s x :
  has_table s x = true <->
  exists k, In k (get_all_tables s) /\ Py.lower k = Py.lower x.
Proof.
  unfold has_table, get_table, get_all_tables, Dict.keys, name_matches. split.
  - destruct (find _ (tables s)) as [[k t]|] eqn:F; [|discriminate].
    intros _. apply find_some in F. destruct F as [Hin He].
    apply String.eqb_eq in He. exists k. split; [|assumption].
    apply in_map_iff. exists (k, t). auto.
  - intros [k [Hin He]]. apply in_map_iff in Hin. destruct Hin as [[k' t] [<- Hin]].
    destruct (find _ (tables s)) eqn:F; [reflexivity|].
    apply (find_none _ _ F) in Hin. simpl in Hin, He.
    apply String.eqb_neq in Hin. contradiction.
Qed.

(** X1.  The table names of a parsed schema are distinct and non-empty, each
    table is stored under its own name, and each name is found by
    [has_table]. *)
Theorem table_names_distinct (raw : SchemaJson) (s : Schema) :
  _parse raw = Ok s ->
  NoDup (get_all_tables s)
  /\ (forall k t, In (k, t) (tables s) -> tbl_name t = k /\ k <> "")
  /\ (forall k, In k (get_all_tables s) -> has_table s k = true).
Proof.
  intros Hp. destruct (parse_anatomy _ _ Hp) as [ts P].
  pose proof (first_pass_keyed (get_or [] (sj_tables raw))) as [Hn Hk].
  rewrite <- (parsed_first _ _ _ P) in Hn, Hk.
  split; [|split].
  - unfold get_all_tables. now rewrite (parsed_keys _ _ _ P).
  - intros k t Hin.
    destruct (Forall2_In_r _ _ _ _ (parsed_tables _ _ _ P) Hin) as [[k' t0] [Hin0 [Hk' Hb]]].
    simpl in Hk', Hb. subst k'.
    destruct (built_shape _ _ _ _ Hb) as (Hname & _ & _).
    destruct (Hk k t0 Hin0) as [H1 H2]. split; [congruence|].
    intros ->. discriminate.
  - intros k Hin. apply has_table_keys. exists k. auto.
Qed.

Lemma table_names_distinct_shop :
  NoDup (get_all_tables Demo.shop_schema).
Proof.
  exact (proj1 (table_names_distinct Demo.shop Demo.shop_schema eq_refl)).
Defined.

(** X2.  [has_table] answers for a name exactly when the document has a
    table description with a non-empty name equal to it up to case. *)
Theorem has_table_iff_document (raw : SchemaJson) (s : Schema) (x : string) :
  _parse raw = Ok s ->
  (has_table s x = true <->
   exists td n, In td (get_or [] (sj_tables raw)) /\ td_name td = Some n
     /\ Py.truthy n = true /\ Py.lower n = Py.lower x).
Proof.
  intros Hp. destruct (parse_anatomy _ _ Hp) as [ts P].
  rewrite has_table_keys. unfold get_all_tables.
  rewrite (parsed_keys _ _ _ P), (parsed_first _ _ _ P). split.
  - intros [k [Hin He]]. apply first_pass_keys in Hin.
    destruct Hin as [td (Hin & Hn & Ht)]. exists td, k. auto.
  - intros (td & n & Hin & Hn & Ht & He). exists n. split; [|assumption].
    apply first_pass_keys. exists td. auto.
Qed.

Lemma has_table_iff_document_shop :
  has_table Demo.shop_schema "ORDERS" = true <->
  exists td n, In td (get_or [] (sj_tables Demo.shop)) /\ td_name td = Some n
    /\ Py.truthy n = true /\ Py.lower n = Py.lower "ORDERS".
Proof.
  exact (has_table_iff_document Demo.shop Demo.shop_schema "ORDERS" eq_refl).
Defined.


(** *** Primary keys *)

(** A column as the first pass builds it. *)
Definition pristine (c : Column) : Prop :=
  is_primary_key c = false /\ is_foreign_key c = false /\ col_references c = None.

Lemma parse_columns_pristine n cds cols lg :
  Forall pristine cols ->
  Forall pristine (fst (fold_left (parse_column n) cds (cols, lg))).
Proof.
  revert cols lg. induction cds as [|cd cds IH]; intros cols lg Hc; cbn [fold_left].
  - exact Hc.
  - unfold parse_column at 2. cbn [fst snd].
    destruct (cd_name cd) as [nm|]; [destruct (Py.truthy nm)|]; apply IH; try assumption.
    apply Forall_app. split; [assumption|]. constructor; [|constructor].
    repeat split.
Qed.

Lemma first_pass_pristine tds k t :
  In (k, t) (fst (first_pass tds)) -> Forall pristine (columns t).
Proof.
  unfold first_pass.
  assert (G : forall acc,
            (forall k t, In (k, t) (fst acc) -> Forall pristine (columns t)) ->
            forall k t, In (k, t) (fst (fold_left parse_table tds acc)) ->
                        Forall pristine (columns t)).
  { induction tds as [|td tds IH]; intros acc Hacc; cbn [fold_left]; [exact Hacc|].
    apply IH. unfold parse_table.
    destruct (td_name td) as [nm|]; [destruct (Py.truthy nm)|]; cbn [fst]; try assumption.
    match goal with
    | |- context [fold_left ?f ?l (?c, ?a)] =>
        pose proof (parse_columns_pristine nm l c a (Forall_nil _)) as Hcols;
        destruct (fold_left f l (c, a)) as [cols lg]
    end.
    cbn [fst] in *. intros k' t' Hin. apply dict_set_In in Hin.
    destruct Hin as [[_ ->]|Hin]; [exact Hcols | eapply Hacc; eauto]. }
  apply G. intros ? ? [].
Qed.

Lemma fold_process_fk_no_primary keys k fks cols g lg :
  Forall (fun c => is_primary_key c = false) cols ->
  Forall (fun c => is_primary_key c = false)
    (fst (fst (fold_left (process_fk keys k) fks (cols, g, lg)))).
Proof.
  revert cols g lg. induction fks as [|fk fks IH]; intros cols g lg Hc; cbn [fold_left].
  - exact Hc.
  - destruct (accepts keys cols fk) eqn:A.
    + destruct (process_fk_accepted keys k cols g lg fk A) as [c2 [Hm ->]].
      apply IH. apply Forall_forall. intros c Hin.
      destruct (mark_foreign_key_In _ _ _ _ _ Hm Hin) as [H|[c0 (H0 & _ & ->)]].
      * eapply Forall_forall in Hc; eauto.
      * simpl. eapply Forall_forall in Hc; eauto.
    + destruct (process_fk_rejected keys k cols g lg fk A) as [w ->]. now apply IH.
Qed.

Definition primary_by_name (c : Column) : bool :=
  String.eqb (Py.lower (col_name c)) "id"
  || (Py.endswith (Py.lower (col_name c)) "_id"
      && Py.contains "int" (Py.lower (col_type c))).

Lemma identify_primary_key_spec c :
  is_primary_key c = false ->
  is_primary_key (identify_primary_key c)
  = negb (is_foreign_key c) && primary_by_name c.
Proof.
  intros Hc. unfold identify_primary_key, primary_by_name.
  destruct (is_foreign_key c); [assumption|].
  destruct (String.eqb _ "id"); [reflexivity|].
  destruct (_ && _); [reflexivity | assumption].
Qed.

Lemma identify_primary_key_type c : col_type (identify_primary_key c) = col_type c.
Proof.
  unfold identify_primary_key.
  destruct (is_foreign_key c); [reflexivity|].
  destruct (String.eqb _ "id"); [reflexivity|].
  destruct (_ && _); reflexivity.
Qed.

(** X3.  In a parsed schema a column is a primary key exactly when it is
    not a foreign key and is named [id], or has a name that ends in [_id]
    and a type that contains [int] (all up to case); so no column is both a
    primary and a foreign key. *)
Theorem primary_key_iff (raw : SchemaJson) (s : Schema) (k : string) (t : Table)
  (c : Column) :
  _parse raw = Ok s -> In (k, t) (tables s) -> In c (columns t) ->
  is_primary_key c = negb (is_foreign_key c) && primary_by_name c
  /\ is_primary_key c && is_foreign_key c = false.
Proof.
  intros Hp Hin Hc. destruct (parse_anatomy _ _ Hp) as [ts P].
  destruct (Forall2_In_r _ _ _ _ (parsed_tables _ _ _ P) Hin) as [[k' t0] [Hin0 [Hk Hb]]].
  simpl in Hk, Hb. subst k'.
  rewrite (parsed_first _ _ _ P) in Hin0.
  pose proof (first_pass_pristine _ _ _ Hin0) as Hpr.
  destruct Hb as [t1 [[_ (g & lg & g' & lg' & F)] ->]].
  cbn [columns set_columns] in Hc.
  apply in_map_iff in Hc. destruct Hc as [c1 [<- Hc1]].
  assert (H1 : is_primary_key c1 = false).
  { pose proof (fold_process_fk_no_primary (Dict.keys ts) k (foreign_keys t0)
                  (columns t0) g lg) as H.
    rewrite F in H. cbn [fst] in H.
    eapply Forall_forall in H; [exact H | | exact Hc1].
    eapply Forall_impl; [|exact Hpr]. intros a Ha. apply Ha. }
  assert (E : is_primary_key (identify_primary_key c1)
              = negb (is_foreign_key (identify_primary_key c1))
                && primary_by_name (identify_primary_key c1)).
  { rewrite (identify_primary_key_spec c1 H1).
    destruct (identify_primary_key_fk c1) as [-> _].
    unfold primary_by_name.
    now rewrite identify_primary_key_name, identify_primary_key_type. }
  split; [exact E|].
  rewrite E. destruct (is_foreign_key (identify_primary_key c1)); simpl;
    [reflexivity | apply andb_false_r].
Qed.

Lemma primary_key_iff_shop :
  let c := mkColumn "customer_id" "bigint" "" false true (Some ("customers", "id")) in
  In c (columns Demo.shop_orders)
  /\ is_primary_key c = negb (is_foreign_key c) && primary_by_name c.
Proof.
  intros c.
  assert (Hc : In c (columns Demo.shop_orders)) by (right; left; reflexivity).
  split; [exact Hc|].
  exact (proj1 (primary_key_iff Demo.shop Demo.shop_schema "orders" Demo.shop_orders c
                  eq_refl (or_introl eq_refl) Hc)).
Defined.

(** *** The nodes of the graph *)

(** X4.  In a parsed schema every node of the relationship graph is the
    name of a table and has an edge to some node; the two ends of an edge
    are nodes. *)
Theorem graph_nodes_are_linked_tables (raw : SchemaJson) (s : Schema) :
  _parse raw = Ok s ->
  (forall u, has_node (relationship_graph s) u = true ->
     In u (get_all_tables s) /\ exists v, has_edge (relationship_graph s) u v = true)
  /\ (forall u v, has_edge (relationship_graph s) u v = true ->
        has_node (relationship_graph s) u = true
        /\ has_node (relationship_graph s) v = true).
Proof.
  intros Hp.
  assert (T : nodes_touch_edges (relationship_graph s)).
  { apply (parse_graph_inv nodes_touch_edges raw s); try assumption.
    - intros. now apply nodes_touch_edges_add.
    - intros u. split; [discriminate|]. intros [v [H|H]]; discriminate. }
  assert (K : forall u v, has_edge (relationship_graph s) u v = true ->
                          In u (get_all_tables s)).
  { intros u v He. apply (edge_iff raw s u v Hp) in He.
    destruct He as (k & t & fk & Hin & Hfk & Ha & Hl).
    assert (Hk : In k (get_all_tables s)).
    { unfold get_all_tables, Dict.keys. apply in_map_iff. exists (k, t). auto. }
    assert (Hr : In (fk_ref_table fk) (get_all_tables s)).
    { unfold fk_accepted, accepts in Ha. apply andb_true_iff in Ha. destruct Ha as [Ha _].
      apply andb_true_iff in Ha. destruct Ha as [_ Ha]. now apply mem_In in Ha. }
    destruct Hl as [[-> _]|[-> _]]; assumption. }
  split.
  - intros u Hu. apply T in Hu. destruct Hu as [v [H|H]].
    + split; [eapply K; eauto | eauto].
    + rewrite (edges_symmetric raw s v u Hp) in H. split; [eapply K; eauto | eauto].
  - intros u v He. split; apply T; eauto.
Qed.

Lemma graph_nodes_are_linked_tables_shop :
  In "orders" (get_all_tables Demo.shop_schema)
  /\ exists v, has_edge (relationship_graph Demo.shop_schema) "orders" v = true.
Proof.
  exact (proj1 (graph_nodes_are_linked_tables Demo.shop Demo.shop_schema eq_refl)
           "orders" eq_refl).
Defined.

End SchemaInvariants.


(** ** More on join paths *)

Module JoinPathShape.

Import Nx NxFacts SchemaParser SchemaFacts JoinPathFacts SchemaInvariants.

(** The name a table reference is normalised to: a key of the schema that
    matches it up to case. *)
Lemma normalize_some s x n :
  normalize s x = Some n -> In n (get_all_tables s) /\ Py.lower n = Py.lower x.
Proof.
  unfold normalize, get_all_tables.
  assert (G : forall l acc,
            fold_left (fun acc name => if name_matches name x then Some name else acc) l acc
            = Some n ->
            acc = Some n \/ (In n l /\ Py.lower n = Py.lower x)).
  { induction l as [|k l IH]; intros acc H; cbn [fold_left] in H; [now left|].
    destruct (IH _ H) as [H1|[H1 H2]].
    - destruct (name_matches k x) eqn:E; [|now left].
      inversion H1; subst. right. split; [now left|]. now apply String.eqb_eq in E.
    - right. split; [now right | assumption]. }
  intros H. destruct (G _ _ H) as [H1|H1]; [discriminate | assumption].
Qed.

Section Shape.

Context {SP : ShortestPath}.

(** A sequence of hops that leads from one table to another, each hop
    along an edge of the graph with the two columns the edge carries. *)
Fixpoint hop_chain (g : DiGraph) (from : string) (jp : list hop) (to : string) : Prop :=
  match jp with
  | [] => from = to
  | (f, c, t, r) :: rest =>
      f = from
      /\ (exists d, get_edge_data g f t = Some d /\ column d = c /\ references d = r)
      /\ hop_chain g t rest to
  end.

Lemma join_conditions_chain g p x :
  walk g (x :: p) -> hop_chain g x (join_conditions g (x :: p)) (last (x :: p) x).
Proof.
  revert x. induction p as [|y r IH]; intros x Hw.
  - reflexivity.
  - destruct Hw as [He Hw]. cbn [join_conditions].
    unfold has_edge in He.
    destruct (get_edge_data g x y) as [d|] eqn:E; [|discriminate].
    cbn [hop_chain]. split; [reflexivity|]. split; [exists d; auto|].
    change (last (x :: y :: r) x) with (last (y :: r) x).
    rewrite (last_indep_nonempty (y :: r) x y) by discriminate.
    now apply IH.
Qed.

(** The two ways in which [get_join_path] returns a path. *)
Lemma get_join_path_cases (s : Schema) (table1 table2 : string) (jp : list hop) :
  get_join_path s table1 table2 = Some jp ->
  (table1 = table2 /\ jp = [])
  \/ (table1 <> table2
      /\ exists n1 n2,
           In n1 (get_all_tables s) /\ Py.lower n1 = Py.lower table1
           /\ In n2 (get_all_tables s) /\ Py.lower n2 = Py.lower table2
           /\ has_node (relationship_graph s) n1 = true
           /\ has_node (relationship_graph s) n2 = true
           /\ jp <> [] /\ hop_chain (relationship_graph s) n1 jp n2).
Proof.
  rewrite get_join_path_unfold.
  destruct (String.eqb table1 table2) eqn:Hne.
  { intros H. inversion H. left. split; [now apply String.eqb_eq | reflexivity]. }
  intros H. right. split; [now apply String.eqb_neq|]. revert H.
  destruct (normalize s table1) as [n1|] eqn:N1; [|discriminate].
  destruct (normalize s table2) as [n2|] eqn:N2;
    [|cbn [truthy_opt negb]; rewrite orb_true_r; discriminate].
  destruct (_ || _); [discriminate|]. cbv zeta. cbn [get_or].
  destruct (has_node (relationship_graph s) n1) eqn:H1; [|discriminate].
  destruct (has_node (relationship_graph s) n2) eqn:H2; [|discriminate].
  cbn [negb orb]. unfold route.
  destruct (shortest_path (relationship_graph s) n1 n2) as [p|] eqn:E; [|discriminate].
  apply shortest_path_sound in E. destruct E as (Hh & Hl & Hp & Hw).
  destruct p as [|x r]; [congruence|]. simpl in Hh. inversion Hh; subst x.
  pose proof (join_conditions_chain _ _ _ Hw) as Hc. rewrite Hl in Hc.
  destruct (normalize_some _ _ _ N1) as [K1 L1].
  destruct (normalize_some _ _ _ N2) as [K2 L2].
  destruct (join_conditions (relationship_graph s) (n1 :: r)) as [|h hs] eqn:J;
    [discriminate|].
  intros H. inversion H; subst jp. exists n1, n2.
  repeat split; try assumption. discriminate.
Qed.

(** X5.  [get_join_path] returns the empty path exactly for two equal
    strings; a path between two different strings has at least one hop. *)
Theorem empty_path_iff_same_string (s : Schema) (table1 table2 : string) :
  get_join_path s table1 table2 = Some [] <-> table1 = table2.
Proof.
  split.
  - intros H. destruct (get_join_path_cases _ _ _ _ H) as [[H1 _]|[_ H2]];
      [assumption|].
    destruct H2 as (n1 & n2 & _ & _ & _ & _ & _ & _ & Hn & _). congruence.
  - intros ->. rewrite get_join_path_unfold. now rewrite String.eqb_refl.
Qed.

(** X6.  A path returned for two different strings starts at a table whose
    name matches the first up to case, ends at one whose name matches the
    second, and goes hop by hop along edges of the graph, each hop giving
    the two columns of its edge; both tables are nodes of the graph. *)
Theorem join_path_is_chain (s : Schema) (table1 table2 : string) (jp : list hop) :
  table1 <> table2 -> get_join_path s table1 table2 = Some jp ->
  exists n1 n2,
    In n1 (get_all_tables s) /\ Py.lower n1 = Py.lower table1
    /\ In n2 (get_all_tables s) /\ Py.lower n2 = Py.lower table2
    /\ has_node (relationship_graph s) n1 = true
    /\ has_node (relationship_graph s) n2 = true
    /\ jp <> [] /\ hop_chain (relationship_graph s) n1 jp n2.
Proof.
  intros Hne H. destruct (get_join_path_cases _ _ _ _ H) as [[H1 _]|[_ H2]];
    [contradiction | exact H2].
Qed.

End Shape.

Lemma join_path_is_chain_shop :
  exists n1 n2,
    In n1 (get_all_tables Demo.shop_schema) /\ Py.lower n1 = Py.lower "Orders"
    /\ In n2 (get_all_tables Demo.shop_schema) /\ Py.lower n2 = Py.lower "CUSTOMERS"
    /\ has_node (relationship_graph Demo.shop_schema) n1 = true
    /\ has_node (relationship_graph Demo.shop_schema) n2 = true
    /\ [("orders", "customer_id", "customers", "id")] <> []
    /\ hop_chain (relationship_graph Demo.shop_schema) n1
         [("orders", "customer_id", "customers", "id")] n2.
Proof.
  assert (H : "Orders" <> "CUSTOMERS") by discriminate.
  assert (Hj : get_join_path (SP := bfs_shortest_path) Demo.shop_schema
                 "Orders" "CUSTOMERS"
               = Some [("orders", "customer_id", "customers", "id")])
    by (vm_compute; reflexivity).
  exact (join_path_is_chain (SP := bfs_shortest_path) Demo.shop_schema
           "Orders" "CUSTOMERS" _ H Hj).
Defined.

(** X7.  In a parsed schema every hop of a join path is a foreign-key
    declaration accepted by the builder, read from its table to the
    referenced table or back. *)
Theorem join_path_hops_are_declarations {SP : ShortestPath} (raw : SchemaJson)
  (s : Schema) (table1 table2 : string) (jp : list hop) (f c t r : string) :
  _parse raw = Ok s -> get_join_path s table1 table2 = Some jp ->
  In (f, c, t, r) jp ->
  exists k tbl fk, In (k, tbl) (tables s) /\ In fk (foreign_keys tbl)
    /\ fk_accepted s tbl fk = true
    /\ ((f = k /\ c = fk_col fk /\ t = fk_ref_table fk /\ r = fk_ref_col fk)
        \/ (f = fk_ref_table fk /\ c = fk_ref_col fk /\ t = k /\ r = fk_col fk)).
Proof.
  intros Hp Hj Hin.
  destruct (get_join_path_cases s table1 table2 jp Hj) as [[_ ->]|[Hne Hex]].
  - contradiction.
  - destruct Hex as (n1 & n2 & _ & _ & _ & _ & _ & _ & _ & Hc).
    clear Hj. revert n1 Hc. induction jp as [|[[[f' c'] t'] r'] rest IH]; intros n1 Hc;
      [contradiction|].
    destruct Hc as (Hf & (d & Hd & Hcol & Href) & Hrest).
    destruct Hin as [Heq|Hin]; [|eapply IH; eauto].
    inversion Heq; subst f' c' t' r'.
    destruct (edge_provenance raw s _ _ _ Hp Hd) as (k & tbl & fk & Ht1 & Ht2 & Ht3 & Hw).
    exists k, tbl, fk. repeat split; try assumption.
    destruct Hw as [(-> & -> & ->)|(-> & -> & ->)]; simpl in *; subst; auto.
Qed.

Lemma join_path_hops_are_declarations_shop :
  exists k tbl fk, In (k, tbl) (tables Demo.shop_schema) /\ In fk (foreign_keys tbl)
    /\ fk_accepted Demo.shop_schema tbl fk = true
    /\ (("customers" = k /\ "id" = fk_col fk /\ "orders" = fk_ref_table fk
         /\ "customer_id" = fk_ref_col fk)
        \/ ("customers" = fk_ref_table fk /\ "id" = fk_ref_col fk /\ "orders" = k
            /\ "customer_id" = fk_col fk)).
Proof.
  assert (Hp : _parse Demo.shop = Ok Demo.shop_schema) by (vm_compute; reflexivity).
  assert (Hj : get_join_path (SP := bfs_shortest_path) Demo.shop_schema
                 "customers" "orders"
               = Some [("customers", "id", "orders", "customer_id")])
    by (vm_compute; reflexivity).
  exact (join_path_hops_are_declarations (SP := bfs_shortest_path) Demo.shop
           Demo.shop_schema "customers" "orders" _ "customers" "id" "orders" "customer_id"
           Hp Hj (or_introl eq_refl)).
Defined.

End JoinPathShape.


(** ** Facts on the string primitives *)

Module PyFacts.

Import Py.

Lemma forall_str_append f a b :
  forall_str f (String.append a b) = forall_str f a && forall_str f b.
Proof.
  induction a as [|c r IH]; simpl; [reflexivity|]. now rewrite IH, andb_assoc.
Qed.

Lemma forall_str_snoc f s c : forall_str f (snoc s c) = forall_str f s && f c.
Proof. unfold snoc. rewrite forall_str_append. simpl. now rewrite andb_true_r. Qed.

Lemma forall_str_impl (f g : ascii -> bool) s :
  (forall c, f c = true -> g c = true) -> forall_str f s = true -> forall_str g s = true.
Proof.
  intros H. induction s as [|c r IH]; simpl; [reflexivity|].
  rewrite !andb_true_iff. intros [Hc Hr]. auto.
Qed.

Lemma forall_str_map f g s : forall_str f (map_str g s) = forall_str (fun c => f (g c)) s.
Proof. induction s as [|c r IH]; simpl; [reflexivity|]. now rewrite IH. Qed.

Lemma forall_str_filter f g s :
  forall_str f s = true -> forall_str f (filter_str g s) = true.
Proof.
  induction s as [|c r IH]; simpl; [reflexivity|].
  rewrite andb_true_iff. intros [Hc Hr]. destruct (g c); simpl; [rewrite Hc|]; auto.
Qed.

Lemma filter_str_all f s : forall_str f s = true -> filter_str f s = s.
Proof.
  induction s as [|c r IH]; simpl; [reflexivity|].
  rewrite andb_true_iff. intros [Hc Hr]. now rewrite Hc, IH.
Qed.

Lemma map_str_id f s : forall_str (fun c => Ascii.eqb (f c) c) s = true -> map_str f s = s.
Proof.
  induction s as [|c r IH]; simpl; [reflexivity|].
  rewrite andb_true_iff. intros [Hc Hr]. apply Ascii.eqb_eq in Hc. now rewrite Hc, IH.
Qed.

(** A text of ASCII characters: the texts on which the embedding of
    [str.lower], [str.upper] and [str.isalnum] is that of Python. *)
Definition ascii_text (s : string) : bool := forall_str (fun c => code c <? 128) s.

(** A string with a character that is not whitespace. *)
Definition has_word (s : string) : bool := negb (forall_str isspace s).

(** A word: not empty, without whitespace. *)
Definition is_word_str (s : string) : bool :=
  truthy s && forall_str (fun c => negb (isspace c)) s.

Lemma truthy_snoc s c : truthy (snoc s c) = true.
Proof. destruct s; reflexivity. Qed.

Lemma truthy_append_l a b : truthy a = true -> truthy (String.append a b) = true.
Proof. destruct a; [discriminate | reflexivity]. Qed.

(** *** [strip] *)

Lemma lstrip_blank s : forall_str isspace (lstrip s) = forall_str isspace s.
Proof.
  induction s as [|c r IH]; simpl; [reflexivity|].
  destruct (isspace c) eqn:E; simpl; [assumption | now rewrite E].
Qed.

Lemma rstrip_empty_iff s : String.eqb (rstrip s) "" = forall_str isspace s.
Proof.
  induction s as [|c r IH]; simpl; [reflexivity|].
  rewrite IH. destruct (isspace c); simpl; [|reflexivity].
  destruct (forall_str isspace r); reflexivity.
Qed.

Lemma rstrip_blank s : forall_str isspace (rstrip s) = forall_str isspace s.
Proof.
  induction s as [|c r IH]; simpl; [reflexivity|].
  rewrite rstrip_empty_iff. destruct (isspace c) eqn:E; simpl.
  - destruct (forall_str isspace r) eqn:F; simpl; [reflexivity|].
    rewrite E. simpl. congruence.
  - now rewrite E.
Qed.

Lemma has_word_strip s : has_word (strip s) = has_word s.
Proof. unfold has_word, strip. now rewrite rstrip_blank, lstrip_blank. Qed.

Lemma lstrip_word_start c r : isspace c = false -> lstrip (String c r) = String c r.
Proof. intros H. simpl. now rewrite H. Qed.

Lemma rstrip_nonspace_end s c :
  isspace c = false -> rstrip (snoc s c) = snoc s c.
Proof.
  intros H. induction s as [|a r IH]; simpl.
  - now rewrite H.
  - unfold snoc in IH. rewrite IH.
    replace (String.eqb (String.append r (String c "")) "") with false
      by (destruct r; reflexivity).
    now rewrite andb_false_r.
Qed.

Lemma rstrip_no_space s :
  forall_str (fun c => negb (isspace c)) s = true -> rstrip s = s.
Proof.
  induction s as [|c r IH]; simpl; [reflexivity|].
  rewrite andb_true_iff. intros [Hc Hr]. apply negb_true_iff in Hc.
  now rewrite Hc, IH.
Qed.

Lemma strip_no_space s :
  forall_str (fun c => negb (isspace c)) s = true -> strip s = s.
Proof.
  intros H. unfold strip.
  assert (L : lstrip s = s).
  { destruct s as [|c r]; [reflexivity|]. simpl in H. apply andb_true_iff in H.
    destruct H as [Hc _]. apply negb_true_iff in Hc. now apply lstrip_word_start. }
  rewrite L. now apply rstrip_no_space.
Qed.

(** *** [split] *)

Fixpoint count_char (c : ascii) (s : string) : nat :=
  match s with
  | EmptyString => 0
  | String x r => (if Ascii.eqb x c then 1 else 0) + count_char c r
  end.

Lemma split_from_length sep cur s :
  List.length (split_from sep cur s) = S (count_char sep s).
Proof.
  revert cur. induction s as [|c r IH]; intros cur; simpl; [reflexivity|].
  destruct (Ascii.eqb c sep); simpl; now rewrite IH.
Qed.

Lemma split_length sep s : List.length (split sep s) = S (count_char sep s).
Proof. apply split_from_length. Qed.

Lemma contains_char_count c s : contains_char c s = negb (count_char c s =? 0).
Proof.
  unfold contains_char. induction s as [|x r IH]; simpl; [reflexivity|].
  rewrite (Ascii.eqb_sym c x). destruct (Ascii.eqb x c); simpl; [reflexivity | exact IH].
Qed.

(** *** [split()] *)

Lemma split_ws_from_blank cur s :
  forall_str isspace s = true ->
  split_ws_from cur s = if truthy cur then [cur] else [].
Proof.
  revert cur. induction s as [|c r IH]; intros cur; simpl; [reflexivity|].
  rewrite andb_true_iff. intros [Hc Hr]. rewrite Hc.
  destruct (truthy cur); rewrite IH by assumption; reflexivity.
Qed.

Lemma split_ws_from_nonempty cur s :
  truthy cur = true -> split_ws_from cur s <> [].
Proof.
  revert cur. induction s as [|c r IH]; intros cur H; simpl.
  - now rewrite H.
  - destruct (isspace c); [rewrite H; discriminate|]. apply IH, truthy_snoc.
Qed.

(** [split()] gives nothing exactly on a string of whitespace. *)
Lemma split_ws_nil_iff s : split_ws s = [] <-> forall_str isspace s = true.
Proof.
  unfold split_ws. split.
  - induction s as [|c r IH]; simpl; [reflexivity|].
    destruct (isspace c) eqn:E; simpl; [exact IH|].
    intros H. exfalso. revert H. apply split_ws_from_nonempty, truthy_snoc.
  - intros H. now rewrite split_ws_from_blank.
Qed.

Lemma split_ws_from_word cur w s :
  forall_str (fun c => negb (isspace c)) w = true ->
  split_ws_from cur (String.append w s) = split_ws_from (String.append cur w) s.
Proof.
  revert cur. induction w as [|c r IH]; intros cur H; simpl.
  - f_equal. clear. induction cur; simpl; congruence.
  - simpl in H. apply andb_true_iff in H. destruct H as [Hc Hr].
    apply negb_true_iff in Hc. rewrite Hc, IH by assumption. f_equal.
    unfold snoc. clear. induction cur; simpl; congruence.
Qed.

(** The words of a string are words. *)
Lemma split_ws_from_words cur s :
  forall_str (fun c => negb (isspace c)) cur = true ->
  Forall (fun w => is_word_str w = true) (split_ws_from cur s).
Proof.
  revert cur. induction s as [|c r IH]; intros cur H; simpl.
  - destruct (truthy cur) eqn:T; constructor; [|constructor].
    unfold is_word_str. now rewrite T, H.
  - destruct (isspace c) eqn:E.
    + destruct (truthy cur) eqn:T; [constructor|]; try (apply IH; reflexivity).
      unfold is_word_str. now rewrite T, H.
    + apply IH. rewrite forall_str_snoc, H, E. reflexivity.
Qed.

Lemma split_ws_words s : Forall (fun w => is_word_str w = true) (split_ws s).
Proof. apply split_ws_from_words. reflexivity. Qed.

(** The words joined by single spaces split back into the words. *)
Lemma split_ws_join ws :
  Forall (fun w => is_word_str w = true) ws -> split_ws (join " " ws) = ws.
Proof.
  unfold split_ws. induction 1 as [|w ws Hw Hws IH]; [reflexivity|].
  unfold is_word_str in Hw. apply andb_true_iff in Hw. destruct Hw as [Ht Hn].
  destruct ws as [|w' ws'].
  - cbn [join].
    replace (split_ws_from "" w) with (split_ws_from "" (String.append w ""))
      by (f_equal; clear; induction w; simpl; congruence).
    rewrite split_ws_from_word by assumption. simpl. now rewrite Ht.
  - cbn [join]. rewrite split_ws_from_word by assumption.
    cbn [String.append split_ws_from]. change (isspace " ") with true. cbn iota.
    rewrite Ht. f_equal. exact IH.
Qed.

(** *** Characters *)

Lemma lower_char_not_upper c : isupper (lower_char c) = false.
Proof. destruct c as [[|] [|] [|] [|] [|] [|] [|] [|]]; reflexivity. Qed.

Lemma lower_char_fixed c : isupper c = false -> lower_char c = c.
Proof. unfold lower_char. now intros ->. Qed.

Lemma upper_lower_char c : upper_char (lower_char c) = upper_char c.
Proof. destruct c as [[|] [|] [|] [|] [|] [|] [|] [|]]; reflexivity. Qed.

Lemma upper_upper_char c : upper_char (upper_char c) = upper_char c.
Proof. destruct c as [[|] [|] [|] [|] [|] [|] [|] [|]]; reflexivity. Qed.

Lemma lower_upper_char c : lower_char (upper_char c) = lower_char c.
Proof. destruct c as [[|] [|] [|] [|] [|] [|] [|] [|]]; reflexivity. Qed.

Lemma map_str_map_str f g s : map_str f (map_str g s) = map_str (fun c => f (g c)) s.
Proof. induction s as [|c r IH]; simpl; [reflexivity|]. now rewrite IH. Qed.

Lemma map_str_ext f g s : (forall c, f c = g c) -> map_str f s = map_str g s.
Proof. intros H. induction s as [|c r IH]; simpl; [reflexivity|]. now rewrite H, IH. Qed.

Lemma upper_lower s : upper (lower s) = upper s.
Proof. unfold upper, lower. rewrite map_str_map_str. apply map_str_ext, upper_lower_char. Qed.

Lemma upper_upper s : upper (upper s) = upper s.
Proof. unfold upper. rewrite map_str_map_str. apply map_str_ext, upper_upper_char. Qed.

Lemma lower_upper s : lower (upper s) = lower s.
Proof. unfold upper, lower. rewrite map_str_map_str. apply map_str_ext, lower_upper_char. Qed.

End PyFacts.


(** ** Table references: name and alias *)

Module TableSpecs.

Import Py PyFacts Validator Aliases.

Lemma first_split_ws s :
  match first (split_ws s) with
  | Ok w => has_word s = true /\ is_word_str w = true
  | Raise e => e = IndexError /\ has_word s = false
  end.
Proof.
  pose proof (split_ws_nil_iff s) as Hn. pose proof (split_ws_words s) as Hw.
  unfold has_word. destruct (split_ws s) as [|w r]; simpl.
  - split; [reflexivity|]. now rewrite (proj1 Hn eq_refl).
  - inversion Hw as [|? ? Hw1 _]; subst. split; [|assumption].
    destruct (forall_str isspace s); [|reflexivity].
    destruct Hn as [_ Hn]. discriminate (Hn eq_refl).
Qed.

Lemma strip_word w : is_word_str w = true -> strip w = w.
Proof.
  unfold is_word_str. rewrite andb_true_iff. intros [_ H]. now apply strip_no_space.
Qed.

Lemma extract_table_name_outcome table_spec :
  match _extract_table_name table_spec with
  | Ok t => has_word table_spec = true
  | Raise e => e = IndexError /\ has_word table_spec = false
  end.
Proof.
  unfold _extract_table_name. pose proof (first_split_ws table_spec) as H.
  destruct (first (split_ws table_spec)); cbn [bind]; tauto.
Qed.

(** X8.  [_extract_table_name] fails, with [IndexError], exactly on a
    reference that is empty or all whitespace; otherwise it returns the
    first word of the reference, which is not empty and has no whitespace
    (so the final [strip] changes nothing). *)
Theorem extract_table_name_first_word (table_spec : string) :
  match _extract_table_name table_spec with
  | Ok t =>
      has_word table_spec = true /\ is_word_str t = true
      /\ hd_error (split_ws table_spec) = Some t
  | Raise e => e = IndexError /\ has_word table_spec = false
  end.
Proof.
  unfold _extract_table_name. pose proof (first_split_ws table_spec) as H.
  destruct (split_ws table_spec) as [|w r]; simpl in *; [exact H|].
  destruct H as [H1 H2]. rewrite (strip_word w H2). auto.
Qed.

Lemma last_words (w : string) (ws : list string) :
  Forall (fun w => is_word_str w = true) (w :: ws) ->
  is_word_str (last (w :: ws) "") = true.
Proof.
  revert w. induction ws as [|x r IH]; intros w H.
  - now inversion H.
  - change (last (w :: x :: r) "") with (last (x :: r) ""). apply IH. now inversion H.
Qed.

(** X9.  For a reference written as words separated by single spaces,
    ['table'], ['table alias'] or ['table AS alias'], the name is the first
    word, and the alias is the last of at least two words unless that word
    is the keyword AS in any letter case. *)
Theorem table_and_alias_of_words (table : string) (more : list string) :
  Forall (fun w => is_word_str w = true) (table :: more) ->
  _extract_table_name (join " " (table :: more)) = Ok table
  /\ _extract_alias (join " " (table :: more))
     = match more with
       | [] => None
       | _ => let alias := last more "" in
              if String.eqb (upper alias) "AS" then None else Some alias
       end.
Proof.
  intros H. unfold _extract_table_name, _extract_alias.
  rewrite (split_ws_join _ H). split.
  - simpl. rewrite strip_word; [reflexivity|]. now inversion H.
  - destruct more as [|x r]; [reflexivity|].
    change (1 <? List.length (table :: x :: r)) with true. cbn iota.
    change (last (table :: x :: r) "") with (last (x :: r) "").
    rewrite strip_word by (apply last_words; now inversion H).
    destruct (String.eqb (upper (last (x :: r) "")) "AS"); reflexivity.
Qed.

Lemma table_and_alias_of_words_orders :
  Forall (fun w => is_word_str w = true) ["orders"; "AS"; "o"]
  /\ _extract_table_name "orders AS o" = Ok "orders"
  /\ _extract_alias "orders AS o" = Some "o".
Proof.
  assert (H : Forall (fun w => is_word_str w = true) ["orders"; "AS"; "o"])
    by (repeat constructor).
  split; [exact H|]. exact (table_and_alias_of_words "orders" ["AS"; "o"] H).
Defined.

End TableSpecs.

(** ** When validation fails instead of answering *)

Module ValidatorErrors.

Import Py PyFacts Nx SchemaParser Models Validator TableSpecs.

(** A select expression whose part after the first dot, if any, has a
    word. *)
Definition readable_select (expr : string) : bool :=
  match split "." expr with
  | _ :: p1 :: _ => has_word p1
  | _ => true
  end.

Section Errors.

Context {SP : ShortestPath} {SO : SetOrder}.
Variable config : Config.
Variable schema : Schema.

Lemma validate_joins_outcome base js :
  forall i tq errs warns,
  match validate_joins config schema base i js tq errs warns with
  | Ok _ => forallb (fun j => has_word (join_table j)) js = true
  | Raise e => e = IndexError /\ forallb (fun j => has_word (join_table j)) js = false
  end.
Proof.
  induction js as [|j js IH]; intros i tq errs warns; cbn [validate_joins forallb].
  - reflexivity.
  - pose proof (extract_table_name_outcome (join_table j)) as Hx.
    destruct (_extract_table_name (join_table j)) as [jt|e]; cbn [bind].
    + rewrite Hx. cbn [andb].
      destruct (negb (has_table schema jt)); [apply IH|].
      destruct (_validate_join_path schema base jt j (i + 1)) as [je jw]. apply IH.
    + destruct Hx as [-> ->]. auto.
Qed.

Lemma split_without_dot expr :
  contains_char "." expr = false -> exists x, split "." expr = [x].
Proof.
  intros H. pose proof (split_length "." expr) as L.
  rewrite contains_char_count in H. apply negb_false_iff, Nat.eqb_eq in H.
  rewrite H in L. destruct (split "." expr) as [|x [|y r]]; try discriminate.
  now exists x.
Qed.

Lemma validate_select_columns_outcome tables select_list :
  match _validate_select_columns schema select_list tables with
  | Ok _ => forallb readable_select select_list = true
  | Raise e => e = IndexError /\ forallb readable_select select_list = false
  end.
Proof.
  induction select_list as [|expr rest IH]; cbn [_validate_select_columns forallb].
  - reflexivity.
  - unfold readable_select at 1 3.
    destruct (contains_char "." expr) eqn:C.
    + destruct (split "." expr) as [|p0 [|p1 r]]; cbn [bind].
      * cbn [andb].
        destruct (_validate_select_columns schema rest tables); cbn [bind]; exact IH.
      * cbn [andb].
        destruct (_validate_select_columns schema rest tables); cbn [bind]; exact IH.
      * pose proof (first_split_ws (strip p1)) as Hf. rewrite has_word_strip in Hf.
        destruct (first (split_ws (strip p1))) as [c|e]; cbn [bind].
        -- destruct Hf as [-> _]. cbn [andb].
           destruct (_validate_select_columns schema rest tables); cbn [bind]; exact IH.
        -- destruct Hf as [-> ->]. auto.
    + destruct (split_without_dot expr C) as [x ->]. cbn [bind andb].
      destruct (_validate_select_columns schema rest tables); cbn [bind]; exact IH.
Qed.

(** X10.  [validate_view] answers with a result, rather than raising,
    exactly when the FROM reference has a word and, if its table is in the
    schema, every join reference has a word and no select expression has
    only whitespace between its first dot and the next one or the end.
    Whenever it raises, the exception is [IndexError]. *)
Theorem validate_view_answers_iff (compile : ViewDefinition -> result string)
  (view : ViewDefinition) :
  match validate_view_with config schema compile view with
  | Ok _ =>
      exists base, _extract_table_name (from_table (query view)) = Ok base
        /\ (has_table schema base = false
            \/ forallb (fun j => has_word (join_table j)) (joins (query view)) = true
               /\ forallb readable_select (select (query view)) = true)
  | Raise e =>
      e = IndexError
      /\ (has_word (from_table (query view)) = false
          \/ exists base, _extract_table_name (from_table (query view)) = Ok base
               /\ has_table schema base = true
               /\ (forallb (fun j => has_word (join_table j)) (joins (query view)) = false
                   \/ forallb readable_select (select (query view)) = false))
  end.
Proof.
  unfold validate_view_with.
  pose proof (extract_table_name_outcome (from_table (query view))) as Hx.
  destruct (_extract_table_name (from_table (query view))) as [base|e]; cbn [bind].
  - destruct (has_table schema base) eqn:Ht; cbn [negb].
    + pose proof (validate_joins_outcome base (joins (query view)) 0 [base] [] []) as Hj.
      destruct (validate_joins config schema base 0 (joins (query view)) [base] [] [])
        as [[[tq errs] warns]|e]; cbn [bind].
      * pose proof (validate_select_columns_outcome tq (select (query view))) as Hs.
        destruct (_validate_select_columns schema (select (query view)) tq) as [se|e];
          cbn [bind].
        -- match goal with
           | |- match (let '(_, _) := ?E in _) with _ => _ end => destruct E
           end.
           exists base. auto.
        -- destruct Hs as [-> Hs]. split; [reflexivity|]. right. exists base. auto.
      * destruct Hj as [-> Hj]. split; [reflexivity|]. right. exists base. auto.
    + exists base. auto.
  - destruct Hx as [-> Hx]. auto.
Qed.

(** X11.  [_validate_join_path] reports no error exactly when a join path
    exists and the ON condition has one equals sign; it never reports more
    than one error, and never a warning together with an error. *)
Theorem join_path_errors (base_table jtable : string) (join : JoinSpecification)
  (join_num : nat) :
  let r := _validate_join_path schema base_table jtable join join_num in
  (fst r = [] <->
     get_join_path schema base_table jtable <> None
     /\ count_char "=" (join_on join) = 1)
  /\ List.length (fst r) <= 1
  /\ (fst r <> [] -> snd r = []).
Proof.
  unfold _validate_join_path.
  destruct (get_join_path schema base_table jtable) as [p|]; cbn zeta.
  - pose proof (split_length "=" (join_on join)) as L.
    destruct (split "=" (join_on join)) as [|l [|r [|x rest]]]; cbn [List.length] in L;
      [discriminate| | |].
    + cbn [fst snd List.length]. repeat split; try lia; try discriminate.
    + destruct (negb (List.length (split "." (strip l)) =? 2)
                || negb (List.length (split "." (strip r)) =? 2));
        cbn [fst snd List.length]; repeat split; try lia; try discriminate;
        try congruence.
    + cbn [fst snd List.length]. repeat split; try lia; try discriminate.
  - cbn [fst snd List.length]. repeat split; try lia; try discriminate.
    intros [H _]. congruence.
Qed.

(** X12.  With a join path and one equals sign, the condition is warned
    about exactly when one of its two sides, trimmed, does not have
    exactly one dot. *)
Theorem join_condition_warning (base_table jtable : string) (join : JoinSpecification)
  (join_num : nat) (p : list hop) :
  get_join_path schema base_table jtable = Some p ->
  count_char "=" (join_on join) = 1 ->
  exists left_ right_,
    split "=" (join_on join) = [left_; right_]
    /\ (snd (_validate_join_path schema base_table jtable join join_num) = [] <->
          count_char "." (strip left_) = 1 /\ count_char "." (strip right_) = 1).
Proof.
  intros Hp Hc. unfold _validate_join_path. rewrite Hp.
  pose proof (split_length "=" (join_on join)) as L. rewrite Hc in L.
  destruct (split "=" (join_on join)) as [|l [|r [|x rest]]]; try discriminate.
  exists l, r. split; [reflexivity|].
  rewrite !split_length.
  destruct (count_char "." (strip l)) as [|[|n]]; destruct (count_char "." (strip r)) as [|[|m]];
    cbn; split; try discriminate; try tauto; try (intros [? ?]; discriminate).
Qed.

End Errors.

Lemma join_condition_warning_shop :
  exists left_ right_,
    split "=" "orders.customer_id = customers.id" = [left_; right_]
    /\ (snd (_validate_join_path (SP := NxFacts.bfs_shortest_path) Demo.shop_schema
               "orders" "customers"
               (mkJoin "INNER" "customers" "orders.customer_id = customers.id") 1) = []
        <-> count_char "." (strip left_) = 1 /\ count_char "." (strip right_) = 1).
Proof.
  exact (join_condition_warning (SP := NxFacts.bfs_shortest_path) Demo.shop_schema
           "orders" "customers"
           (mkJoin "INNER" "customers" "orders.customer_id = customers.id") 1
           [("orders", "customer_id", "customers", "id")] eq_refl eq_refl).
Defined.

End ValidatorErrors.


(** ** Tokens and the semantic score *)

Module Semantic.

Import Py PyFacts SchemaParser Validator.

Lemma dedup_In x l : In x (dedup l) <-> In x l.
Proof.
  induction l as [|y r IH]; simpl; [tauto|].
  destruct (mem y r) eqn:M.
  - rewrite IH. apply mem_In in M. split; [auto|]. intros [<-|H]; assumption.
  - simpl. rewrite IH. tauto.
Qed.

Lemma dedup_NoDup l : NoDup (dedup l).
Proof.
  induction l as [|y r IH]; simpl; [constructor|].
  destruct (mem y r) eqn:M; [assumption|].
  constructor; [|assumption]. rewrite dedup_In. now apply mem_false.
Qed.

Lemma token_runs_from_tokens cur s :
  forall_str istoken cur = true ->
  Forall (fun t => forall_str istoken t = true) (token_runs_from cur s).
Proof.
  revert cur. induction s as [|c r IH]; intros cur H; simpl.
  - destruct (truthy cur); repeat constructor. assumption.
  - destruct (istoken c) eqn:E.
    + apply IH. now rewrite forall_str_snoc, H, E.
    + destruct (truthy cur); [constructor; [assumption|]|]; now apply IH.
Qed.

(** X13.  The tokens of a text are distinct, longer than two characters,
    made of lower-case letters and digits only, and none is a stop word. *)
Theorem tokenize_tokens (text : string) :
  NoDup (_tokenize text)
  /\ forall t, In t (_tokenize text) ->
       2 < String.length t
       /\ forall_str istoken t = true
       /\ ~ In t stop_words.
Proof.
  unfold _tokenize. split; [apply dedup_NoDup|].
  intros t Ht. apply dedup_In, filter_In in Ht. destruct Ht as [Hin Hf].
  apply andb_true_iff in Hf. destruct Hf as [Hl Hs].
  apply Nat.ltb_lt in Hl. apply negb_true_iff, mem_false in Hs.
  repeat split; try assumption.
  pose proof (token_runs_from_tokens "" (lower text) eq_refl) as Hall.
  rewrite Forall_forall in Hall. now apply Hall.
Qed.

Lemma table_tokens_NoDup t : NoDup (table_tokens t).
Proof. apply dedup_NoDup. Qed.

Lemma intersection_length a b :
  NoDup a -> NoDup b ->
  List.length (intersection a b) = List.length (intersection b a).
Proof.
  intros Ha Hb. apply Permutation_length, NoDup_Permutation.
  - now apply NoDup_filter.
  - now apply NoDup_filter.
  - intros x. unfold intersection. rewrite !filter_In, !mem_In. tauto.
Qed.

Lemma union_length a b : List.length (union a b) = List.length (union b a).
Proof.
  apply Permutation_length, NoDup_Permutation; try apply dedup_NoDup.
  intros x. unfold union. rewrite !dedup_In, !in_app_iff. tauto.
Qed.

Lemma union_nil a b : union a b = [] <-> union b a = [].
Proof.
  pose proof (union_length a b) as L.
  destruct (union a b), (union b a); simpl in L; split; try discriminate; reflexivity.
Qed.

(** X14.  The semantic score of two tables does not depend on their
    order. *)
Theorem semantic_score_symmetric (t1 t2 : Table) :
  semantic_score t1 t2 = semantic_score t2 t1.
Proof.
  unfold semantic_score.
  pose proof (table_tokens_NoDup t1) as N1. pose proof (table_tokens_NoDup t2) as N2.
  destruct (table_tokens t1) as [|x a] eqn:E1; destruct (table_tokens t2) as [|y b] eqn:E2;
    try reflexivity.
  pose proof (union_length (x :: a) (y :: b)) as L.
  pose proof (intersection_length (x :: a) (y :: b) N1 N2) as I.
  destruct (union (x :: a) (y :: b)) as [|u us] eqn:U1;
    destruct (union (y :: b) (x :: a)) as [|v vs] eqn:U2; try discriminate L.
  - reflexivity.
  - now rewrite I, L.
Qed.

Lemma intersection_le_union a b :
  NoDup a -> List.length (intersection a b) <= List.length (union a b).
Proof.
  intros Ha. apply NoDup_incl_length.
  - now apply NoDup_filter.
  - intros x Hx. unfold intersection in Hx. apply filter_In in Hx.
    unfold union. rewrite dedup_In, in_app_iff. tauto.
Qed.

(** X15.  The semantic score lies between 0 and 1. *)
Theorem semantic_score_bounds (t1 t2 : Table) :
  (0 <= semantic_score t1 t2)%Q /\ (semantic_score t1 t2 <= 1)%Q.
Proof.
  unfold semantic_score.
  pose proof (table_tokens_NoDup t1) as N1.
  destruct (table_tokens t1) as [|x a]; [split; discriminate|].
  destruct (table_tokens t2) as [|y b]; [split; discriminate|].
  pose proof (intersection_le_union (x :: a) (y :: b) N1) as L.
  destruct (union (x :: a) (y :: b)) as [|u us]; [split; discriminate|].
  unfold ratio, Qle. cbn [Qnum Qden]. cbn [List.length] in *.
  rewrite <- Pos.of_nat_succ, Znat.Zpos_P_of_succ_nat. split; lia.
Qed.

(** X16.  Two tables with a token and with the same tokens score 1, and
    two tables without a common token score 0. *)
Theorem semantic_score_extremes (t1 t2 : Table) :
  ((forall x, In x (table_tokens t1) <-> In x (table_tokens t2)) ->
   table_tokens t1 <> [] ->
   (semantic_score t1 t2 == 1)%Q)
  /\ ((forall x, In x (table_tokens t1) -> ~ In x (table_tokens t2)) ->
      (semantic_score t1 t2 == 0)%Q).
Proof.
  unfold semantic_score.
  pose proof (table_tokens_NoDup t1) as N1. pose proof (table_tokens_NoDup t2) as N2.
  split.
  - intros Hsame Hne.
    destruct (table_tokens t1) as [|x a]; [congruence|].
    destruct (table_tokens t2) as [|y b]; [destruct (proj1 (Hsame x) (or_introl eq_refl))|].
    assert (LI : List.length (intersection (x :: a) (y :: b))
                 = List.length (union (x :: a) (y :: b))).
    { apply Permutation_length, NoDup_Permutation;
        [now apply NoDup_filter | apply dedup_NoDup |].
      intros z. unfold intersection, union.
      rewrite filter_In, mem_In, dedup_In, in_app_iff.
      specialize (Hsame z). tauto. }
    assert (Hx : In x (union (x :: a) (y :: b)))
      by (unfold union; rewrite dedup_In; now left).
    destruct (union (x :: a) (y :: b)) as [|u us]; [destruct Hx|].
    rewrite LI. unfold ratio, Qeq. cbn [Qnum Qden List.length].
    rewrite <- Pos.of_nat_succ, Znat.Zpos_P_of_succ_nat. lia.
  - intros Hdis.
    destruct (table_tokens t1) as [|x a]; [reflexivity|].
    destruct (table_tokens t2) as [|y b]; [reflexivity|].
    assert (LI : intersection (x :: a) (y :: b) = []).
    { unfold intersection.
      destruct (filter (fun z => mem z (y :: b)) (x :: a)) as [|z zs] eqn:F; [reflexivity|].
      assert (Hz : In z (filter (fun z => mem z (y :: b)) (x :: a)))
        by (rewrite F; now left).
      apply filter_In in Hz. destruct Hz as [Hz1 Hz2]. apply mem_In in Hz2.
      destruct (Hdis z Hz1 Hz2). }
    destruct (union (x :: a) (y :: b)) as [|u us]; [reflexivity|].
    rewrite LI. reflexivity.
Qed.

Lemma semantic_score_extremes_shop :
  table_tokens Demo.shop_orders <> []
  /\ (semantic_score Demo.shop_orders Demo.shop_orders == 1)%Q.
Proof.
  assert (H : table_tokens Demo.shop_orders <> []) by (vm_compute; discriminate).
  split; [exact H|].
  exact (proj1 (semantic_score_extremes Demo.shop_orders Demo.shop_orders)
           (fun x => conj (fun h => h) (fun h => h)) H).
Defined.

End Semantic.


(** ** The compiled SQL and its cleaning *)

Module SqlText.

Import Py PyFacts Models Validator Executor.

Lemma append_assoc (a b c : string) :
  String.append (String.append a b) c = String.append a (String.append b c).
Proof. induction a as [|x r IH]; simpl; [reflexivity|]. now rewrite IH. Qed.

(** The compiled text starts with the SELECT keyword and ends with a
    semicolon. *)
Lemma compile_to_sql_frame view :
  exists body, _compile_to_sql view = String.append "SELECT " (snoc body ";").
Proof.
  unfold _compile_to_sql. cbv zeta.
  match goal with
  | |- context [join nl ([?a; ?b] ++ ?rest)] =>
      change (join nl ([a; b] ++ rest))
        with (String.append a (String.append nl (join nl (b :: rest))));
      generalize (String.append nl (join nl (b :: rest)))
  end.
  intros tail_. exists (String.append (join ", " (select (query view))) tail_).
  unfold snoc. now rewrite !append_assoc.
Qed.

(** X17.  The SQL that the validator compiles goes through the executors'
    cleaning unchanged. *)
Theorem clean_sql_keeps_compiled (view : ViewDefinition) :
  _clean_sql (_compile_to_sql view) = _compile_to_sql view.
Proof.
  destruct (compile_to_sql_frame view) as [body ->].
  unfold _clean_sql.
  assert (S : strip (String.append "SELECT " (snoc body ";"))
              = String.append "SELECT " (snoc body ";")).
  { unfold strip.
    replace (lstrip (String.append "SELECT " (snoc body ";")))
      with (String.append "SELECT " (snoc body ";")) by reflexivity.
    unfold snoc. rewrite <- append_assoc.
    apply (rstrip_nonspace_end (String.append "SELECT " body) ";"). reflexivity. }
  cbv zeta. rewrite S. reflexivity.
Qed.

End SqlText.

(** ** The validators of models.py *)

Module ModelsFacts.

Import Py PyFacts Models.

(** X18.  An accepted join type is one of the five valid ones, is the
    upper-case form of what was given, and is accepted again as it is;
    the same input in lower or upper case gives the same type. *)
Theorem validate_join_type_canonical (v t : string) :
  validate_join_type v = Ok t ->
  In t valid_types /\ t = upper v
  /\ validate_join_type t = Ok t
  /\ validate_join_type (lower v) = Ok t
  /\ validate_join_type (upper v) = Ok t.
Proof.
  unfold validate_join_type. cbv zeta.
  destruct (mem (upper v) valid_types) eqn:M; cbn [negb]; [|discriminate].
  intros H. inversion H; subst t. clear H.
  rewrite upper_lower, upper_upper, M. cbn [negb].
  repeat split. now apply mem_In.
Qed.

Lemma validate_join_type_canonical_inner :
  validate_join_type "Inner" = Ok "INNER"
  /\ validate_join_type "inner" = Ok "INNER".
Proof.
  pose proof (validate_join_type_canonical "Inner" "INNER" eq_refl) as H.
  split; [reflexivity|]. exact (proj1 (proj2 (proj2 (proj2 H)))).
Defined.

(** The characters of a sanitized view name. *)
Definition name_char (c : ascii) : bool := islower c || isdigit c || Ascii.eqb c "_".

Lemma name_char_facts c :
  name_char c = true ->
  isupper c = false /\ isspace c = false /\ Ascii.eqb c " " = false
  /\ Ascii.eqb c "-" = false /\ keep_char c = true.
Proof.
  destruct c as [[|] [|] [|] [|] [|] [|] [|] [|]]; vm_compute; intros H;
    try discriminate H; repeat split.
Qed.

Lemma keep_lower_name_char c :
  keep_char c = true -> isupper c = false -> name_char c = true.
Proof.
  unfold keep_char, isalnum_char, name_char. intros H U. rewrite U in H.
  destruct (islower c), (isdigit c), (Ascii.eqb c "_"); auto.
Qed.

Lemma forall_str_and f g s :
  forall_str (fun c => f c && g c) s = forall_str f s && forall_str g s.
Proof.
  induction s as [|c r IH]; simpl; [reflexivity|]. rewrite IH.
  destruct (f c), (g c), (forall_str f r), (forall_str g r); reflexivity.
Qed.

Lemma forall_str_lstrip f s : forall_str f s = true -> forall_str f (lstrip s) = true.
Proof.
  induction s as [|c r IH]; simpl; [reflexivity|].
  intros H. destruct (isspace c); [|exact H].
  apply andb_true_iff in H. now apply IH.
Qed.

Lemma forall_str_rstrip f s : forall_str f s = true -> forall_str f (rstrip s) = true.
Proof.
  induction s as [|c r IH]; simpl; [reflexivity|].
  rewrite andb_true_iff. intros [Hc Hr].
  destruct (isspace c && String.eqb (rstrip r) ""); [reflexivity|].
  simpl. now rewrite Hc, IH.
Qed.

Lemma forall_str_strip f s : forall_str f s = true -> forall_str f (strip s) = true.
Proof. intros H. now apply forall_str_rstrip, forall_str_lstrip. Qed.

Lemma forall_str_filter_self f s : forall_str f (filter_str f s) = true.
Proof.
  induction s as [|c r IH]; simpl; [reflexivity|].
  destruct (f c) eqn:E; simpl; [rewrite E|]; assumption.
Qed.

Lemma forall_str_replace f a b s :
  f b = true -> forall_str f s = true -> forall_str f (replace_char a b s) = true.
Proof.
  intros Hb. unfold replace_char. rewrite forall_str_map. apply forall_str_impl.
  intros c Hc. destruct (Ascii.eqb c a); assumption.
Qed.

Lemma sanitized_name_chars v :
  forall_str name_char
    (filter_str keep_char
       (replace_char "-" "_" (replace_char " " "_" (strip (lower v))))) = true.
Proof.
  apply forall_str_impl
    with (f := fun c => keep_char c && negb (isupper c)).
  - intros c H. apply andb_true_iff in H. destruct H as [H1 H2].
    apply negb_true_iff in H2. now apply keep_lower_name_char.
  - rewrite forall_str_and, forall_str_filter_self. cbn [andb].
    apply forall_str_filter. repeat (apply forall_str_replace; [reflexivity|]).
    apply forall_str_strip. unfold lower. rewrite forall_str_map.
    apply forall_str_impl with (f := fun _ => true).
    + intros c _. now rewrite lower_char_not_upper.
    + clear. induction v; simpl; auto.
Qed.

Lemma validate_view_name_filter v :
  validate_view_name v
  = let s := filter_str keep_char
               (replace_char "-" "_" (replace_char " " "_" (strip (lower v)))) in
    if truthy s then Ok s
    else Raise (ValueError "View name cannot be empty after sanitization").
Proof.
  unfold validate_view_name. cbv zeta. rewrite ViewNames.conditional_filter.
  destruct (truthy _); reflexivity.
Qed.

Lemma name_fixed s :
  forall_str name_char s = true ->
  filter_str keep_char
    (replace_char "-" "_" (replace_char " " "_" (strip (lower s)))) = s.
Proof.
  intros H.
  assert (L : lower s = s).
  { apply map_str_id. revert H. apply forall_str_impl. intros c Hc.
    apply name_char_facts in Hc. destruct Hc as (Hu & _).
    rewrite lower_char_fixed by assumption. apply Ascii.eqb_refl. }
  assert (S : strip s = s).
  { apply strip_no_space. revert H. apply forall_str_impl. intros c Hc.
    apply name_char_facts in Hc. destruct Hc as (_ & -> & _). reflexivity. }
  assert (R1 : replace_char " " "_" s = s).
  { apply map_str_id. revert H. apply forall_str_impl. intros c Hc.
    apply name_char_facts in Hc. destruct Hc as (_ & _ & -> & _). apply Ascii.eqb_refl. }
  assert (R2 : replace_char "-" "_" s = s).
  { apply map_str_id. revert H. apply forall_str_impl. intros c Hc.
    apply name_char_facts in Hc. destruct Hc as (_ & _ & _ & -> & _). apply Ascii.eqb_refl. }
  rewrite L, S, R1, R2. apply filter_str_all. revert H. apply forall_str_impl.
  intros c Hc. now apply name_char_facts in Hc.
Qed.

(** X19.  A view name that is accepted for an ASCII input is not empty, is
    made of lower-case letters, digits and underscores only, and is
    accepted again unchanged.  (Outside ASCII [str.isalnum] keeps letters
    and digits that the embedding does not have.) *)
Theorem validate_view_name_canonical (v s : string) :
  ascii_text v = true ->
  validate_view_name v = Ok s ->
  s <> "" /\ forall_str name_char s = true /\ validate_view_name s = Ok s.
Proof.
  intros _. rewrite validate_view_name_filter. cbv zeta.
  pose proof (sanitized_name_chars v) as Hc.
  destruct (truthy _) eqn:T; [|discriminate].
  intros H. inversion H as [Hs]. rewrite Hs in *. clear H Hs.
  split; [|split].
  - intros ->. discriminate T.
  - exact Hc.
  - rewrite validate_view_name_filter. cbv zeta. rewrite (name_fixed s Hc).
    now rewrite T.
Qed.

Lemma validate_view_name_canonical_orders :
  ascii_text "Customer Orders!!" = true
  /\ validate_view_name "Customer Orders!!" = Ok "customer_orders"
  /\ validate_view_name "customer_orders" = Ok "customer_orders".
Proof.
  split; [reflexivity|]. split; [reflexivity|].
  exact (proj2 (proj2 (validate_view_name_canonical "Customer Orders!!"
                         "customer_orders" eq_refl eq_refl))).
Defined.

End ModelsFacts.


(** ** What deduplication keeps *)

Module DedupFacts.

Import Models Validator Deduplication.

(** [l1] is [l2] with some elements left out. *)
Inductive subseq {A : Type} : list A -> list A -> Prop :=
| subseq_nil : subseq [] []
| subseq_skip (x : A) (l1 l2 : list A) : subseq l1 l2 -> subseq l1 (x :: l2)
| subseq_keep (x : A) (l1 l2 : list A) : subseq l1 l2 -> subseq (x :: l1) (x :: l2).

(** No view has the signature of a later one. *)
Fixpoint distinct_signatures (l : list ViewDefinition) : Prop :=
  match l with
  | [] => True
  | v :: r => (forall w, In w r -> same_signature v w = false) /\ distinct_signatures r
  end.

Lemma subseq_length {A : Type} (l1 l2 : list A) :
  subseq l1 l2 -> List.length l1 <= List.length l2.
Proof. induction 1; simpl; lia. Qed.

Lemma first_occurrences_after_subseq earlier views :
  subseq (first_occurrences_after earlier views) views.
Proof.
  revert earlier. induction views as [|v rest IH]; intros earlier;
    cbn [first_occurrences_after]; [constructor|].
  destruct (existsb (same_signature v) earlier); simpl; constructor; apply IH.
Qed.

Lemma existsb_false_In {A : Type} (f : A -> bool) (l : list A) (x : A) :
  existsb f l = false -> In x l -> f x = false.
Proof.
  intros H Hx. destruct (f x) eqn:E; [|reflexivity].
  assert (existsb f l = true) by (apply existsb_exists; eauto). congruence.
Qed.

Lemma first_occurrences_after_new earlier views :
  forall w, In w (first_occurrences_after earlier views) ->
  forall x, In x earlier -> same_signature w x = false.
Proof.
  revert earlier. induction views as [|v rest IH]; intros earlier w Hw x Hx;
    [contradiction|].
  cbn [first_occurrences_after] in Hw. apply in_app_or in Hw. destruct Hw as [Hw|Hw].
  - destruct (existsb (same_signature v) earlier) eqn:E; [contradiction|].
    destruct Hw as [<-|[]]. eapply existsb_false_In; eauto.
  - apply (IH (earlier ++ [v]) w Hw). apply in_or_app. now left.
Qed.

Lemma first_occurrences_after_distinct earlier views :
  distinct_signatures (first_occurrences_after earlier views).
Proof.
  revert earlier. induction views as [|v rest IH]; intros earlier;
    cbn [first_occurrences_after]; [exact I|].
  destruct (existsb (same_signature v) earlier); simpl; [apply IH|].
  split; [|apply IH].
  intros w Hw. rewrite same_signature_sym.
  apply (first_occurrences_after_new (earlier ++ [v]) rest w Hw).
  apply in_or_app. right. now left.
Qed.

Lemma same_signature_refl v : is_ok (view_signature v) = true -> same_signature v v = true.
Proof.
  unfold same_signature. destruct (view_signature v); [|discriminate].
  intros _. apply signature_eqb_refl.
Qed.

Lemma first_occurrences_after_covers earlier views :
  (forall v, In v views -> is_ok (view_signature v) = true) ->
  forall v, In v views ->
  (exists w, In w (first_occurrences_after earlier views) /\ same_signature v w = true)
  \/ (exists x, In x earlier /\ same_signature v x = true).
Proof.
  revert earlier. induction views as [|v0 rest IH]; intros earlier Hok v Hv;
    [contradiction|].
  cbn [first_occurrences_after].
  assert (Keep : existsb (same_signature v0) earlier = false ->
                 forall w, In w [v0] ->
                 In w ((if existsb (same_signature v0) earlier then [] else [v0])
                         ++ first_occurrences_after (earlier ++ [v0]) rest)).
  { intros E w Hw. rewrite E. apply in_or_app. now left. }
  destruct Hv as [<-|Hv].
  - destruct (existsb (same_signature v0) earlier) eqn:E.
    + right. apply existsb_exists in E. exact E.
    + left. exists v0. split; [apply Keep; [reflexivity | now left]|].
      apply same_signature_refl, Hok. now left.
  - destruct (IH (earlier ++ [v0]) (fun u Hu => Hok u (or_intror Hu)) v Hv)
      as [[w [Hw Hs]]|[x [Hx Hs]]].
    + left. exists w. split; [|assumption]. apply in_or_app. now right.
    + apply in_app_or in Hx. destruct Hx as [Hx|[<-|[]]].
      * right. eauto.
      * destruct (existsb (same_signature v0) earlier) eqn:E.
        -- right. apply existsb_exists in E. destruct E as [y [Hy Hy']].
           exists y. split; [assumption|]. eapply same_signature_trans; eauto.
        -- left. exists v0. split; [apply Keep; [reflexivity | now left] | assumption].
Qed.

Lemma deduplicate_views_first_occurrences views out :
  deduplicate_views views = Ok out ->
  out = first_occurrences views
  /\ forall v, In v views -> is_ok (view_signature v) = true.
Proof.
  intros H.
  assert (Hok : forall v, In v views -> is_ok (view_signature v) = true)
    by (eapply dedup_loop_ok; exact H).
  split; [|assumption].
  unfold deduplicate_views in H.
  rewrite (dedup_loop_first_occurrences views [] [] [] Hok) in H.
  - now inversion H.
  - intros w sg _. reflexivity.
Qed.

(** X20.  What [deduplicate_views] returns is the input with some views
    left out, in the original order; no two of the views it keeps have the
    same signature, and every view of the input has its signature among
    the ones kept. *)
Theorem deduplicate_views_kept (views out : list ViewDefinition) :
  deduplicate_views views = Ok out ->
  subseq out views
  /\ distinct_signatures out
  /\ forall v, In v views -> exists w, In w out /\ same_signature v w = true.
Proof.
  intros H. destruct (deduplicate_views_first_occurrences views out H) as [-> Hok].
  split; [apply first_occurrences_after_subseq|].
  split; [apply first_occurrences_after_distinct|].
  intros v Hv.
  destruct (first_occurrences_after_covers [] views Hok v Hv) as [Hw|[x [[] _]]].
  exact Hw.
Qed.

Lemma deduplicate_views_kept_pair :
  let a := mkView "a" "" (mkQuery ["o.id"] "orders o" [] None None None None) in
  let b := mkView "b" "" (mkQuery ["o.id"] "orders" [] None None None None) in
  deduplicate_views [a; b] = Ok [a]
  /\ exists w, In w [a] /\ same_signature b w = true.
Proof.
  intros a b. split; [reflexivity|].
  exact (proj2 (proj2 (deduplicate_views_kept [a; b] [a] eq_refl)) b
           (or_intror (or_introl eq_refl))).
Defined.

(** The first view of the input is always kept. *)
Lemma first_occurrences_head v rest :
  exists more, first_occurrences (v :: rest) = v :: more.
Proof. unfold first_occurrences. cbn. eexists. reflexivity. Qed.

Lemma dedup_loop_raises views :
  forall unique_views seen e,
  dedup_loop views unique_views seen = Raise e -> e = IndexError.
Proof.
  induction views as [|v rest IH]; intros u seen e; cbn [dedup_loop]; [discriminate|].
  unfold view_signature.
  destruct (Py.split_ws (from_table (query v))) as [|b bs]; cbn [Py.first bind].
  - intros H. now inversion H.
  - assert (J : forall js e', join_tables js = Raise e' -> e' = IndexError).
    { induction js as [|j js IHj]; intros e'; cbn [join_tables]; [discriminate|].
      destruct (Py.split_ws (join_table j)); cbn [Py.first bind].
      - intros H. now inversion H.
      - destruct (join_tables js) eqn:Ej; cbn [bind]; [discriminate|].
        intros H. inversion H; subst. now apply IHj. }
    destruct (join_tables (joins (query v))) eqn:Ej; cbn [bind].
    + destruct (negb _); apply IH.
    + intros H. inversion H; subst. now apply (J _ _ Ej).
Qed.

End DedupFacts.

(** ** The pipeline *)

Module PipelineFacts.

Import Nx SchemaParser Models Validator Deduplication DedupFacts ValidatorFacts Pipeline.

Local Open Scope Z_scope.

Lemma post_process_kept (vs unique_views : list ViewDefinition) (stats : Stats) :
  post_process vs = Ok (unique_views, stats) ->
  deduplicate_views vs = Ok unique_views
  /\ stats = mkStats (len vs) (len unique_views) (len vs - len unique_views)
  /\ len unique_views <= len vs
  /\ (vs <> [] -> 0 < len unique_views).
Proof.
  unfold post_process. cbv zeta.
  destruct (deduplicate_views vs) as [u|e] eqn:D; cbn [bind]; [|discriminate].
  intros H. inversion H; subst. clear H.
  destruct (deduplicate_views_first_occurrences vs unique_views D) as [Hf _].
  pose proof (first_occurrences_after_subseq [] vs) as Hs.
  fold (first_occurrences vs) in Hs. rewrite <- Hf in Hs.
  apply subseq_length in Hs. unfold len. repeat split; try lia.
  intros Hne. destruct vs as [|v rest]; [congruence|].
  destruct (first_occurrences_head v rest) as [more Hm]. rewrite Hm in Hf. subst.
  cbn [List.length]. lia.
Qed.

(** X21.  The statistics of [post_process] add up: the views kept and the
    duplicates removed make the original count, no count is negative, and
    from at least one view at least one is kept. *)
Theorem post_process_counts (vs unique_views : list ViewDefinition) (stats : Stats) :
  post_process vs = Ok (unique_views, stats) ->
  deduplicate_views vs = Ok unique_views
  /\ original_count stats = len vs
  /\ after_deduplication stats = len unique_views
  /\ after_deduplication stats + duplicates_removed stats = original_count stats
  /\ 0 <= duplicates_removed stats
  /\ (vs <> [] -> 0 < after_deduplication stats).
Proof.
  intros H. destruct (post_process_kept _ _ _ H) as (D & -> & Hle & Hpos).
  cbn [original_count after_deduplication duplicates_removed].
  repeat split; try assumption; lia.
Qed.

Lemma post_process_counts_pair :
  let a := mkView "a" "" (mkQuery ["o.id"] "orders o" [] None None None None) in
  let b := mkView "b" "" (mkQuery ["o.id"] "orders" [] None None None None) in
  post_process [a; b] = Ok ([a], mkStats 2 1 1)
  /\ after_deduplication (mkStats 2 1 1) + duplicates_removed (mkStats 2 1 1)
     = original_count (mkStats 2 1 1).
Proof.
  intros a b. split; [reflexivity|].
  exact (proj1 (proj2 (proj2 (proj2 (post_process_counts [a; b] [a] (mkStats 2 1 1)
                                        eq_refl))))).
Defined.

Section Run.

Context {SP : ShortestPath} {SO : SetOrder}.
Variable config : Config.
Variable schema : Schema.
Variable format_rate : Z -> Z -> string.

Lemma conclude_view_name compile view errs warns :
  view_name (conclude compile view errs warns) = name view.
Proof. unfold conclude. destruct errs; [destruct (compile view)|]; reflexivity. Qed.

Lemma validate_view_name_kept view r :
  validate_view config schema view = Ok r -> view_name r = name view.
Proof.
  intros H. apply validate_view_with_shape in H.
  destruct H as [[msg ->]|[errs [warns ->]]]; [reflexivity|apply conclude_view_name].
Qed.

Lemma validate_views_each (vs : list ViewDefinition) (rs : list ValidationResult) :
  validate_views config schema vs = Ok rs ->
  Forall2 (fun v r => validate_view config schema v = Ok r) vs rs.
Proof.
  revert rs. induction vs as [|v rest IH]; intros rs; cbn [validate_views].
  - intros H. inversion H. constructor.
  - destruct (validate_view config schema v) as [r|e] eqn:V; cbn [bind]; [|discriminate].
    destruct (validate_views config schema rest) as [rs'|e]; cbn [bind]; [|discriminate].
    intros H. inversion H; subst. constructor; [assumption|]. now apply IH.
Qed.

(** X22.  [validate_views] gives one result per view, in the order of the
    views, each the result of [validate_view] on its view and under the
    name of its view. *)
Theorem validate_views_names (vs : list ViewDefinition) (rs : list ValidationResult) :
  validate_views config schema vs = Ok rs ->
  map view_name rs = map name vs
  /\ Forall2 (fun v r => validate_view config schema v = Ok r) vs rs.
Proof.
  intros H. apply validate_views_each in H. split; [|assumption].
  induction H as [|v r vs' rs' V _ IH]; [reflexivity|].
  cbn [map]. now rewrite IH, (validate_view_name_kept v r V).
Qed.

Lemma partition_length {A : Type} (f : A -> bool) (l : list A) :
  len (filter f l) + len (filter (fun x => negb (f x)) l) = len l.
Proof.
  unfold len. induction l as [|x r IH]; [reflexivity|].
  cbn [filter]. destruct (f x); cbn [negb List.length]; lia.
Qed.

(** X23.  The counts of a run add up: the results are those of the views
    left by deduplication, valid and invalid ones make all of them, and
    they and the duplicates removed make the views generated.  From at
    least one generated view the summary holds the counts, and its success
    rate is the one computed from the valid results and the views left,
    of which there is at least one. *)
Theorem run_counts (generated : list ViewDefinition) (r : AnalysisResult) :
  run config schema format_rate generated = Ok r ->
  generated <> [] ->
  exists unique_views,
    deduplicate_views generated = Ok unique_views
    /\ validate_views config schema unique_views = Ok (views r)
    /\ total_generated r = len generated
    /\ valid_views r + invalid_views r = len unique_views
    /\ 0 < len unique_views <= len generated
    /\ summary r
       = SummaryCounts (len generated) (len unique_views)
           (len generated - len unique_views) (valid_views r) (invalid_views r)
           (format_rate (valid_views r) (len unique_views)).
Proof.
  unfold run. destruct generated as [|g gs]; [congruence|]. intros H _.
  destruct (post_process (g :: gs)) as [[u st]|e] eqn:P; cbn [bind] in H; [|discriminate].
  destruct (validate_views config schema u) as [rs|e] eqn:V; cbn [bind] in H;
    [|discriminate].
  destruct (post_process_kept _ _ _ P) as (D & -> & Hle & Hpos).
  assert (Hp : 0 < len u) by (apply Hpos; discriminate).
  assert (Hl : len rs = len u).
  { unfold len. f_equal. symmetry. eapply Forall2_length, validate_views_each, V. }
  exists u. destruct u as [|u0 us]; [unfold len in Hp; cbn [List.length] in Hp; lia|].
  inversion H; subst r; clear H.
  cbn [views total_generated valid_views invalid_views summary duplicates_removed].
  rewrite partition_length.
  repeat split; try assumption; lia.
Qed.

(** X24.  One generated view whose FROM reference, or one of whose join
    references, is empty or all whitespace makes the whole run fail with
    [IndexError], wherever the view stands among the generated ones. *)
Theorem run_fails_on_blank_reference (generated : list ViewDefinition)
  (v : ViewDefinition) :
  In v generated ->
  PyFacts.has_word (from_table (query v)) = false
  \/ (exists j, In j (joins (query v)) /\ PyFacts.has_word (join_table j) = false) ->
  run config schema format_rate generated = Raise IndexError.
Proof.
  intros Hin Hblank.
  assert (Hb : Py.split_ws (from_table (query v)) = []
               \/ (exists j, In j (joins (query v)) /\ Py.split_ws (join_table j) = [])).
  { unfold PyFacts.has_word in Hblank.
    destruct Hblank as [H|[j [Hj H]]]; [left | right; exists j; split; [assumption|]];
      apply PyFacts.split_ws_nil_iff; now apply negb_false_iff in H. }
  clear Hblank. rename Hb into Hblank.
  assert (Hsig : is_ok (view_signature v) = false).
  { unfold view_signature. destruct Hblank as [->|[j [Hj Hb]]]; [reflexivity|].
    destruct (Py.first (Py.split_ws (from_table (query v)))); cbn [bind]; [|reflexivity].
    assert (J : is_ok (join_tables (joins (query v))) = false).
    { revert Hj. generalize (joins (query v)). induction l as [|j0 js IH]; [contradiction|].
      intros [->|Hj]; cbn [join_tables].
      - now rewrite Hb.
      - destruct (Py.first (Py.split_ws (join_table j0))); cbn [bind]; [|reflexivity].
        specialize (IH Hj). destruct (join_tables js); [discriminate|reflexivity]. }
    destruct (join_tables (joins (query v))); [discriminate|reflexivity]. }
  unfold run. destruct generated as [|g gs]; [contradiction|].
  unfold post_process. cbv zeta.
  destruct (deduplicate_views (g :: gs)) as [u|e] eqn:D; cbn [bind].
  - unfold deduplicate_views in D.
    pose proof (dedup_loop_ok _ _ _ _ D v Hin). congruence.
  - unfold deduplicate_views in D. apply dedup_loop_raises in D. now subst.
Qed.

End Run.

Definition one_view : ViewDefinition := mkView "v" "" Demo.orders_customers.

Lemma validate_views_names_shop :
  exists rs,
    validate_views (SP := NxFacts.bfs_shortest_path) (SO := SetFacts.first_inserted)
      Demo.quiet Demo.shop_schema [one_view] = Ok rs
    /\ map view_name rs = ["v"].
Proof.
  destruct (validate_views (SP := NxFacts.bfs_shortest_path)
              (SO := SetFacts.first_inserted) Demo.quiet Demo.shop_schema [one_view])
    as [rs|e] eqn:V; [|vm_compute in V; discriminate].
  exists rs. split; [reflexivity|].
  exact (proj1 (validate_views_names (SP := NxFacts.bfs_shortest_path)
                  (SO := SetFacts.first_inserted) Demo.quiet Demo.shop_schema
                  [one_view] rs V)).
Defined.

Lemma run_counts_shop :
  exists r,
    run (SP := NxFacts.bfs_shortest_path) (SO := SetFacts.first_inserted)
      Demo.quiet Demo.shop_schema (fun _ _ => "100.0%") [one_view; one_view] = Ok r
    /\ exists unique_views,
         deduplicate_views [one_view; one_view] = Ok unique_views
         /\ valid_views r + invalid_views r = len unique_views.
Proof.
  destruct (run (SP := NxFacts.bfs_shortest_path) (SO := SetFacts.first_inserted)
              Demo.quiet Demo.shop_schema (fun _ _ => "100.0%") [one_view; one_view])
    as [r|e] eqn:R; [|vm_compute in R; discriminate].
  exists r. split; [reflexivity|].
  destruct (run_counts (SP := NxFacts.bfs_shortest_path) (SO := SetFacts.first_inserted)
              Demo.quiet Demo.shop_schema (fun _ _ => "100.0%") [one_view; one_view]
              r R ltac:(discriminate))
    as [u (D & _ & _ & Hc & _)].
  exists u. split; assumption.
Defined.

Lemma run_fails_on_blank_reference_shop :
  run (SP := NxFacts.bfs_shortest_path) (SO := SetFacts.first_inserted)
    Demo.quiet Demo.shop_schema (fun _ _ => "")
    [one_view; mkView "w" "" (mkQuery ["1"] " " [] None None None None)]
  = Raise IndexError.
Proof.
  exact (run_fails_on_blank_reference (SP := NxFacts.bfs_shortest_path)
           (SO := SetFacts.first_inserted) Demo.quiet Demo.shop_schema (fun _ _ => "")
           [one_view; mkView "w" "" (mkQuery ["1"] " " [] None None None None)]
           (mkView "w" "" (mkQuery ["1"] " " [] None None None None))
           (or_intror (or_introl eq_refl)) (or_introl eq_refl)).
Defined.

End PipelineFacts.


(** ** Export and re-import of a schema *)

Module ExportFacts.

Import Nx SchemaParser SchemaFacts SchemaInvariants SchemaExport.

(** A column as the first pass builds it: without marks. *)
Definition blank_column (c : Column) : Column :=
  mkColumn (col_name c) (col_type c) (col_description c) false false None.

Definition blank_table (t : Table) : Table :=
  mkTable (tbl_name t) (map blank_column (columns t)) (foreign_keys t)
    (tbl_description t).

Definition blank_dict (d : Dict.t Table) : Dict.t Table :=
  map (fun kt => (fst kt, blank_table (snd kt))) d.

(** The table description that [_parse] reads in an exported table. *)
Definition reread (kt : string * Table) : TableData :=
  mkTableData (Some (tbl_name (snd kt))) (Some (tbl_description (snd kt)))
    (map (fun c => mkColumnData (Some (col_name c)) (Some (col_type c))
                     (Some (col_description c)))
       (columns (snd kt)))
    (foreign_keys (snd kt)).

Lemma read_export_to_dict s :
  sj_tables (read_export (to_dict s)) = Some (map reread (tables s)).
Proof.
  unfold read_export, to_dict. cbn [sj_tables]. rewrite map_map. f_equal.
  apply map_ext. intros [k t]. unfold reread. cbn. now rewrite map_map.
Qed.

Lemma parse_columns_reread n cols :
  Forall (fun c => Py.truthy (col_name c) = true) cols ->
  forall acc lg,
  fold_left (parse_column n)
    (map (fun c => mkColumnData (Some (col_name c)) (Some (col_type c))
                     (Some (col_description c))) cols)
    (acc, lg)
  = (acc ++ map blank_column cols, lg).
Proof.
  induction 1 as [|c cols Hc _ IH]; intros acc lg; cbn [map fold_left].
  - now rewrite app_nil_r.
  - unfold parse_column at 2. cbn [cd_name cd_type cd_description fst snd get_or].
    rewrite Hc, IH, <- app_assoc. reflexivity.
Qed.

Lemma dict_set_new {V : Type} (k : string) (v : V) (d : Dict.t V) :
  ~ In k (Dict.keys d) -> Dict.set k v d = d ++ [(k, v)].
Proof.
  unfold Dict.keys. induction d as [|[k0 v0] r IH]; intros H; cbn; [reflexivity|].
  destruct (String.eqb k0 k) eqn:E.
  - apply String.eqb_eq in E. subst. exfalso. apply H. now left.
  - rewrite IH; [reflexivity|]. intros Hin. apply H. now right.
Qed.

(** The conditions under which the export of a dictionary of tables reads
    back: distinct keys, each the non-empty name of its table, and columns
    with non-empty names. *)
Definition readable (acc d : Dict.t Table) : Prop :=
  NoDup (Dict.keys acc ++ Dict.keys d)
  /\ forall k t, In (k, t) d ->
       tbl_name t = k /\ Py.truthy k = true
       /\ Forall (fun c => Py.truthy (col_name c) = true) (columns t).

Lemma first_pass_reread d :
  forall acc lg, readable acc d ->
  fold_left parse_table (map reread d) (acc, lg) = (acc ++ blank_dict d, lg).
Proof.
  induction d as [|[k t] r IH]; intros acc lg [Hn Hd]; cbn [map fold_left blank_dict].
  - now rewrite app_nil_r.
  - destruct (Hd k t (or_introl eq_refl)) as (Hk & Ht & Hc).
    unfold parse_table at 2.
    cbn [reread td_name td_description td_columns td_foreign_keys fst snd get_or].
    rewrite Hk, Ht, (parse_columns_reread k (columns t) Hc [] lg). cbn [app].
    rewrite dict_set_new.
    + fold (blank_dict r). rewrite IH.
      * rewrite <- app_assoc. cbn [app]. unfold blank_table. now rewrite Hk.
      * split.
        -- unfold Dict.keys in *. rewrite map_app, <- app_assoc. exact Hn.
        -- intros k' t' Hin. apply Hd. now right.
    + unfold Dict.keys in *. cbn [map fst] in Hn.
      apply NoDup_remove_2 in Hn. intros Hin. apply Hn, in_or_app. now left.
Qed.

(** *** The second and third passes change marks only *)

Lemma blank_identify c : blank_column (identify_primary_key c) = blank_column c.
Proof.
  unfold identify_primary_key. destruct (is_foreign_key c); [reflexivity|].
  destruct (String.eqb _ "id"); [reflexivity|]. destruct (_ && _); reflexivity.
Qed.

Lemma blank_dict_identify d : blank_dict (_identify_primary_keys d) = blank_dict d.
Proof.
  unfold blank_dict, _identify_primary_keys. rewrite map_map. apply map_ext.
  intros [k t]. cbn. unfold blank_table. cbn. f_equal. f_equal.
  rewrite map_map. apply map_ext, blank_identify.
Qed.

Lemma mark_foreign_key_blank name ref cols :
  forall cols', mark_foreign_key name ref cols = Some cols' ->
  map blank_column cols' = map blank_column cols.
Proof.
  induction cols as [|c r IH]; intros cols'; cbn [mark_foreign_key]; [discriminate|].
  destruct (name_matches (col_name c) name).
  - intros H. inversion H. reflexivity.
  - destruct (mark_foreign_key name ref r) as [r'|]; [|discriminate].
    intros H. inversion H. cbn [map]. now rewrite (IH r' eq_refl).
Qed.

Lemma process_fk_blank keys k cols g lg fk :
  map blank_column (fst (fst (process_fk keys k (cols, g, lg) fk)))
  = map blank_column cols.
Proof.
  unfold process_fk.
  destruct (negb (_ && _ && _)); [reflexivity|].
  destruct (negb (Py.mem _ keys)); [reflexivity|].
  destruct (mark_foreign_key _ _ cols) as [cols'|] eqn:M; [|reflexivity].
  cbn [fst]. eapply mark_foreign_key_blank; eauto.
Qed.

Lemma fold_process_fk_blank keys k fks :
  forall cols g lg,
  map blank_column (fst (fst (fold_left (process_fk keys k) fks (cols, g, lg))))
  = map blank_column cols.
Proof.
  induction fks as [|fk fks IH]; intros cols g lg; cbn [fold_left]; [reflexivity|].
  pose proof (process_fk_blank keys k cols g lg fk) as H.
  destruct (process_fk keys k (cols, g, lg) fk) as [[c1 g1] l1]. cbn [fst] in H.
  now rewrite IH.
Qed.

Lemma second_pass_blank keys items :
  forall g lg, blank_dict (fst (fst (second_pass keys items g lg))) = blank_dict items.
Proof.
  induction items as [|[k t] rest IH]; intros g lg; cbn [second_pass]; [reflexivity|].
  pose proof (fold_process_fk_blank keys k (foreign_keys t) (columns t) g lg) as H.
  match goal with
  | |- context [fold_left ?f ?l (?c, ?a, ?b)] =>
      destruct (fold_left f l (c, a, b)) as [[cols g1] lg1]
  end.
  cbn [fst] in H. specialize (IH g1 lg1).
  destruct (second_pass keys rest g1 lg1) as [[rest' g2] lg2]. cbn [fst] in *.
  cbn [blank_dict map fst snd]. fold (blank_dict rest'). fold (blank_dict rest).
  rewrite IH. unfold blank_table, set_columns. cbn. now rewrite H.
Qed.

(** *** The log grows at its end *)

Lemma process_fk_log keys k cols g lg fk :
  process_fk keys k (cols, g, lg) fk
  = (fst (process_fk keys k (cols, g, []) fk),
     lg ++ snd (process_fk keys k (cols, g, []) fk)).
Proof.
  unfold process_fk.
  destruct (negb (_ && _ && _)); [reflexivity|].
  destruct (negb (Py.mem _ keys)); [reflexivity|].
  destruct (mark_foreign_key _ _ cols); cbn [fst snd]; [now rewrite app_nil_r | reflexivity].
Qed.

Lemma fold_process_fk_log_prefix keys k fks :
  forall cols g lg,
  fold_left (process_fk keys k) fks (cols, g, lg)
  = (fst (fold_left (process_fk keys k) fks (cols, g, [])),
     lg ++ snd (fold_left (process_fk keys k) fks (cols, g, []))).
Proof.
  induction fks as [|fk fks IH]; intros cols g lg; cbn [fold_left].
  - cbn [fst snd]. now rewrite app_nil_r.
  - rewrite (process_fk_log keys k cols g lg fk).
    destruct (process_fk keys k (cols, g, []) fk) as [[c1 g1] l1]. cbn [fst snd].
    rewrite (IH c1 g1 (lg ++ l1)), (IH c1 g1 l1). cbn [fst snd].
    now rewrite app_assoc.
Qed.

Lemma second_pass_log_prefix keys items :
  forall g lg,
  second_pass keys items g lg
  = (fst (second_pass keys items g []), lg ++ snd (second_pass keys items g [])).
Proof.
  induction items as [|[k t] rest IH]; intros g lg; cbn [second_pass].
  - cbn [fst snd]. now rewrite app_nil_r.
  - rewrite (fold_process_fk_log_prefix keys k (foreign_keys t) (columns t) g lg).
    match goal with
    | |- context [fold_left ?f ?l (?c, ?a, @nil warning)] =>
        destruct (fold_left f l (c, a, @nil warning)) as [[cols g1] lg1]
    end.
    cbn [fst snd]. rewrite (IH g1 (lg ++ lg1)), (IH g1 lg1).
    destruct (second_pass keys rest g1 []) as [[rest' g2] lg2]. cbn [fst snd].
    now rewrite app_assoc.
Qed.

(** *** What the first pass builds reads back *)

Lemma parse_columns_all (P : Column -> Prop) n cds :
  (forall nm ty d, Py.truthy nm = true -> P (mkColumn nm ty d false false None)) ->
  forall cols lg, Forall P cols ->
  Forall P (fst (fold_left (parse_column n) cds (cols, lg))).
Proof.
  intros HP. induction cds as [|cd cds IH]; intros cols lg Hc; cbn [fold_left].
  - exact Hc.
  - unfold parse_column at 2. cbn [fst snd].
    destruct (cd_name cd) as [nm|]; [destruct (Py.truthy nm) eqn:T|]; apply IH;
      try assumption.
    apply Forall_app. split; [assumption|]. constructor; [now apply HP | constructor].
Qed.

Lemma first_pass_all (P : Column -> Prop) tds :
  (forall nm ty d, Py.truthy nm = true -> P (mkColumn nm ty d false false None)) ->
  forall k t, In (k, t) (fst (first_pass tds)) -> Forall P (columns t).
Proof.
  intros HP. unfold first_pass.
  assert (G : forall acc,
            (forall k t, In (k, t) (fst acc) -> Forall P (columns t)) ->
            forall k t, In (k, t) (fst (fold_left parse_table tds acc)) ->
                        Forall P (columns t)).
  { induction tds as [|td tds IH]; intros acc Hacc; cbn [fold_left]; [exact Hacc|].
    apply IH. unfold parse_table.
    destruct (td_name td) as [nm|]; [destruct (Py.truthy nm)|]; cbn [fst];
      try exact Hacc.
    match goal with
    | |- context [fold_left ?f ?l (?c, ?a)] =>
        pose proof (parse_columns_all P nm l HP c a (Forall_nil _)) as Hc;
        destruct (fold_left f l (c, a)) as [cols lg]
    end.
    cbn [fst] in *. intros k t Hin. apply dict_set_In in Hin.
    destruct Hin as [[_ ->]|Hin]; [exact Hc | eapply Hacc; eauto]. }
  apply G. intros k t [].
Qed.

Lemma blank_dict_fixed d :
  (forall k t, In (k, t) d ->
     Forall (fun c => is_primary_key c = false /\ is_foreign_key c = false
                      /\ col_references c = None) (columns t)) ->
  blank_dict d = d.
Proof.
  induction d as [|[k t] r IH]; intros H; cbn [blank_dict map]; [reflexivity|].
  fold (blank_dict r). rewrite IH by (intros k' t' Hin; apply (H k' t'); now right).
  f_equal. cbn [fst snd]. f_equal. unfold blank_table.
  assert (C : map blank_column (columns t) = columns t).
  { specialize (H k t (or_introl eq_refl)). induction H as [|c cs (H1 & H2 & H3) _ IHc];
      [reflexivity|]. cbn [map]. rewrite IHc. f_equal.
    destruct c; cbn in *. subst. reflexivity. }
  rewrite C. destruct t; reflexivity.
Qed.

Lemma blank_dict_keys d : Dict.keys (blank_dict d) = Dict.keys d.
Proof. unfold Dict.keys, blank_dict. rewrite map_map. reflexivity. Qed.

Lemma blank_dict_In k t d :
  In (k, t) d -> In (k, blank_table t) (blank_dict d).
Proof.
  intros H. unfold blank_dict.
  change (k, blank_table t) with ((fun kt => (fst kt, blank_table (snd kt))) (k, t)).
  now apply in_map.
Qed.

Lemma readable_final ts d :
  keyed ts ->
  (forall k t, In (k, t) ts ->
     Forall (fun c => Py.truthy (col_name c) = true) (columns t)) ->
  blank_dict d = ts -> readable [] d.
Proof.
  intros [Hn Hk] Hc Hb. split.
  - cbn [Dict.keys map app]. fold (Dict.keys d). now rewrite <- blank_dict_keys, Hb.
  - intros k t Hin. apply blank_dict_In in Hin. rewrite Hb in Hin.
    destruct (Hk _ _ Hin) as [H1 H2]. specialize (Hc _ _ Hin).
    cbn [blank_table tbl_name columns] in *. repeat split; try assumption.
    clear -Hc. induction (columns t) as [|c cs IH]; [constructor|].
    inversion Hc; subst. constructor; [assumption | now apply IH].
Qed.

(** X25.  A parsed schema that is exported with [to_dict] and loaded again
    gives the same tables, with the same columns and marks, and the same
    relationship graph; of the warnings only those about foreign keys come
    again.  When the schema has no table at all, the export does not load:
    [_parse] rejects it. *)
Theorem export_round_trip (raw : SchemaJson) (s : Schema) :
  _parse raw = Ok s ->
  match tables s with
  | [] => reparse s = Raise (ValueError "Schema must contain 'tables' array")
  | _ =>
      exists s', reparse s = Ok s'
        /\ tables s' = tables s
        /\ relationship_graph s' = relationship_graph s
        /\ to_dict s' = to_dict s
        /\ exists first_warnings, log s = first_warnings ++ log s'
  end.
Proof.
  unfold _parse at 1.
  destruct (get_or [] (sj_tables raw)) as [|td tds] eqn:T; [discriminate|].
  pose proof (first_pass_keyed (td :: tds)) as Hkeyed.
  pose proof (first_pass_all (fun c => Py.truthy (col_name c) = true) (td :: tds)
                (fun nm ty d H => H)) as Hnamed.
  pose proof (first_pass_all
                (fun c => is_primary_key c = false /\ is_foreign_key c = false
                          /\ col_references c = None) (td :: tds)
                (fun nm ty d _ => conj eq_refl (conj eq_refl eq_refl))) as Hpristine.
  destruct (first_pass (td :: tds)) as [ts lg] eqn:F1. cbn [fst] in *.
  rewrite (second_pass_log_prefix (Dict.keys ts) ts empty lg).
  pose proof (second_pass_blank (Dict.keys ts) ts empty []) as Hb.
  destruct (second_pass (Dict.keys ts) ts empty []) as [[ts2 g] lg2] eqn:F2.
  cbn [fst snd] in *. intros H. inversion H; subst s. clear H. cbn [tables].
  remember (_identify_primary_keys ts2) as final eqn:E.
  assert (Hfinal : blank_dict final = ts).
  { rewrite E, blank_dict_identify, Hb. now apply blank_dict_fixed. }
  pose proof (readable_final ts _ Hkeyed Hnamed Hfinal) as Hr.
  unfold reparse, _parse. rewrite read_export_to_dict. cbn [get_or tables].
  destruct final as [|kt rest]; [reflexivity|].
  cbn [map]. change (reread kt :: map reread rest) with (map reread (kt :: rest)).
  unfold first_pass.
  match goal with
  | |- context [fold_left parse_table ?l ?a] =>
      replace (fold_left parse_table l a) with (ts, @nil warning)
        by (symmetry; rewrite <- Hfinal; apply (first_pass_reread _ [] [] Hr))
  end.
  rewrite F2. eexists. split; [reflexivity|].
  cbn [tables relationship_graph log]. rewrite <- E.
  repeat split. exists lg. reflexivity.
Qed.

Lemma export_round_trip_shop :
  exists s', reparse Demo.shop_schema = Ok s'
    /\ tables s' = tables Demo.shop_schema
    /\ relationship_graph s' = relationship_graph Demo.shop_schema.
Proof.
  destruct (export_round_trip Demo.shop Demo.shop_schema eq_refl)
    as [s' (H1 & H2 & H3 & _)].
  exists s'. auto.
Defined.

End ExportFacts.


(** ** The JSON of a model response *)

Module LLMFacts.

Import Py PyFacts LLM.

Lemma append_nil_r (s : string) : String.append s "" = s.
Proof. induction s as [|c r IH]; simpl; congruence. Qed.

Lemma append_snoc (a : string) (c : ascii) (b : string) :
  String.append (snoc a c) b = String.append a (String c b).
Proof. unfold snoc. induction a as [|x r IH]; simpl; congruence. Qed.

Lemma split_from_nonempty sep cur s : split_from sep cur s <> [].
Proof.
  revert cur. induction s as [|c r IH]; intros cur; simpl; [discriminate|].
  destruct (Ascii.eqb c sep); [discriminate | apply IH].
Qed.

(** Splitting at a separator and joining with it gives the text back. *)
Lemma join_split_from sep cur s :
  join (String sep "") (split_from sep cur s) = String.append cur s.
Proof.
  revert cur. induction s as [|c r IH]; intros cur; cbn [split_from].
  - cbn [join]. now rewrite append_nil_r.
  - destruct (Ascii.eqb c sep) eqn:E.
    + apply Ascii.eqb_eq in E. subst c.
      pose proof (split_from_nonempty sep "" r) as Hn. specialize (IH "").
      destruct (split_from sep "" r) as [|x xs]; [congruence|].
      cbn [join]. cbn [join] in IH. rewrite IH. reflexivity.
    + rewrite IH. apply append_snoc.
Qed.

Lemma split_from_append sep cur a b :
  split_from sep cur (String.append a (String sep b))
  = split_from sep cur a ++ split sep b.
Proof.
  revert cur. induction a as [|c r IH]; intros cur; cbn [String.append split_from].
  - rewrite Ascii.eqb_refl. reflexivity.
  - destruct (Ascii.eqb c sep); [cbn [app]; f_equal|]; apply IH.
Qed.

Lemma split_from_single sep cur s :
  contains_char sep s = false -> split_from sep cur s = [String.append cur s].
Proof.
  unfold contains_char. revert cur. induction s as [|c r IH]; intros cur; cbn.
  - now rewrite append_nil_r.
  - rewrite (Ascii.eqb_sym sep c). destruct (Ascii.eqb c sep); [discriminate|].
    cbn. intros H. rewrite IH by assumption. now rewrite append_snoc.
Qed.

(** A response in a markdown fence: the opening fence with a language tag,
    the body on lines of its own, and the closing fence. *)
Definition fenced (tag body : string) : string :=
  String.append fence
    (String.append tag
       (String newline (String.append body (String newline fence)))).

Lemma strip_fenced tag body : strip (fenced tag body) = fenced tag body.
Proof.
  unfold strip.
  replace (lstrip (fenced tag body)) with (fenced tag body) by reflexivity.
  assert (E : fenced tag body
              = snoc (String.append "```"
                        (String.append tag
                           (String newline (String.append body (String newline "``")))))
                  "`").
  { unfold fenced, fence, snoc. cbn [String.append]. do 3 f_equal.
    rewrite SqlText.append_assoc. f_equal. cbn [String.append]. f_equal.
    rewrite SqlText.append_assoc. f_equal. }
  rewrite E. apply rstrip_nonspace_end. reflexivity.
Qed.

Lemma split_fenced tag body :
  contains_char newline tag = false ->
  split newline (fenced tag body)
  = String.append fence tag :: split newline body ++ [fence].
Proof.
  intros H. unfold split, fenced. rewrite <- SqlText.append_assoc.
  rewrite split_from_append. unfold split. rewrite split_from_append.
  rewrite split_from_single; [reflexivity|].
  unfold contains_char in *. cbn. exact H.
Qed.

Section ExtractJson.

Variable J : Type.
Variable json_loads : string -> option J.

(** X26.  Of a response in a markdown fence whose tag has no line break,
    the text that is parsed is the body, trimmed; when it parses, its value
    is the result. *)
Theorem extract_json_fenced (tag body : string) :
  contains_char newline tag = false ->
  unfence (fenced tag body) = strip body
  /\ forall j, json_loads (strip body) = Some j ->
       extract_json J json_loads (fenced tag body) = Some j.
Proof.
  intros H.
  assert (U : unfence (fenced tag body) = strip body).
  { unfold unfence. rewrite strip_fenced.
    replace (String.prefix fence (fenced tag body)) with true
      by (unfold fenced; generalize (String.append tag
            (String newline (String.append body (String newline fence))));
          intros rest; destruct rest; reflexivity).
    rewrite (split_fenced tag body H). cbn [tl].
    pose proof (split_from_nonempty newline "" body) as Hn. fold (split newline body) in Hn.
    destruct (split newline body ++ [fence]) as [|x xs] eqn:E;
      [destruct (split newline body); discriminate|].
    rewrite <- E. rewrite last_last.
    replace (String.eqb (strip fence) fence) with true by reflexivity.
    unfold drop_last. rewrite removelast_last.
    unfold split. rewrite join_split_from. reflexivity. }
  split; [exact U|].
  intros j Hj. unfold extract_json.
  replace (negb (truthy (fenced tag body))) with false by reflexivity.
  rewrite U, Hj. reflexivity.
Qed.

Lemma scan_parsed text start_char end_char start_idx rest :
  forall i depth j,
  scan J json_loads text start_char end_char start_idx i rest depth = Some j ->
  exists n, json_loads (substring start_idx n text) = Some j.
Proof.
  induction rest as [|ch r IH]; intros i depth j; cbn [scan]; [discriminate|].
  destruct (Ascii.eqb ch start_char); [apply IH|].
  destruct (Ascii.eqb ch end_char); [|apply IH].
  destruct (Z.eqb (depth - 1) 0); [|apply IH].
  destruct (json_loads (substring start_idx (S i - start_idx) text)) as [j'|] eqn:E;
    [|apply IH].
  intros Hj. inversion Hj; subst. eauto.
Qed.

Lemma search_parsed text start_char end_char j :
  search J json_loads text start_char end_char = Some j ->
  exists start_idx n,
    find_char_from 0 start_char text = Some start_idx
    /\ json_loads (substring start_idx n text) = Some j.
Proof.
  unfold search. destruct (find_char_from 0 start_char text) as [s|]; [|discriminate].
  intros H. apply scan_parsed in H. destruct H as [n Hn]. eauto.
Qed.

(** X27.  Whatever [extract_json] returns was parsed by [json.loads] from
    the cleaned response: from all of it, or from a piece that starts at
    its first opening brace, or from a piece that starts at its first
    opening bracket.  Nothing is returned for an empty response. *)
Theorem extract_json_parsed (text : string) :
  extract_json J json_loads "" = None
  /\ forall j, extract_json J json_loads text = Some j ->
       json_loads (unfence text) = Some j
       \/ exists start_char start_idx n,
            (start_char = "{"%char \/ start_char = "["%char)
            /\ find_char_from 0 start_char (unfence text) = Some start_idx
            /\ json_loads (substring start_idx n (unfence text)) = Some j.
Proof.
  split; [reflexivity|].
  intros j. unfold extract_json.
  destruct (negb (truthy text)); [discriminate|].
  destruct (json_loads (unfence text)) as [j0|]; [intros H; now left|].
  destruct (search J json_loads (unfence text) "{" "}") as [j1|] eqn:S1.
  - intros H. inversion H; subst. right.
    destruct (search_parsed _ _ _ _ S1) as (s & n & Hs & Hn).
    exists "{"%char, s, n. auto.
  - intros S2. right.
    destruct (search_parsed _ _ _ _ S2) as (s & n & Hs & Hn).
    exists "["%char, s, n. auto.
Qed.

End ExtractJson.

(** A parser that knows the empty object only. *)
Definition loads_empty_object (s : string) : option nat :=
  if String.eqb s "{}" then Some 0 else None.

Lemma extract_json_fenced_object :
  extract_json nat loads_empty_object (fenced "json" " {} ") = Some 0.
Proof.
  exact (proj2 (extract_json_fenced nat loads_empty_object "json" " {} " eq_refl)
           0 eq_refl).
Defined.

Lemma extract_json_parsed_object :
  extract_json nat loads_empty_object "Here it is: {} (done)" = Some 0
  /\ (loads_empty_object (unfence "Here it is: {} (done)") = Some 0
      \/ exists start_char start_idx n,
           (start_char = "{"%char \/ start_char = "["%char)
           /\ find_char_from 0 start_char (unfence "Here it is: {} (done)")
              = Some start_idx
           /\ loads_empty_object
                (substring start_idx n (unfence "Here it is: {} (done)")) = Some 0).
Proof.
  split; [reflexivity|].
  exact (proj2 (extract_json_parsed nat loads_empty_object "Here it is: {} (done)")
           0 eq_refl).
Defined.

End LLMFacts.


(** ** Lookups ignore the letter case *)

Module LookupFacts.

Import Py PyFacts SchemaParser.

Lemma lower_lower s : lower (lower s) = lower s.
Proof.
  unfold lower. rewrite map_str_map_str. apply map_str_ext.
  intros c. apply lower_char_fixed, lower_char_not_upper.
Qed.

Lemma name_matches_case a b :
  name_matches a (upper b) = name_matches a b
  /\ name_matches a (lower b) = name_matches a b.
Proof. unfold name_matches. now rewrite lower_upper, lower_lower. Qed.

(** X28.  [get_table], [has_table] and [has_column] answer the same for
    an ASCII name in upper case, in lower case and as given, whatever the
    names in the schema are.  (Outside ASCII [str.upper] followed by
    [str.lower] need not give [str.lower].) *)
Theorem lookups_ignore_case (s : Schema) (table column : string) :
  ascii_text table = true -> ascii_text column = true ->
  get_table s (upper table) = get_table s table
  /\ get_table s (lower table) = get_table s table
  /\ has_table s (upper table) = has_table s table
  /\ has_table s (lower table) = has_table s table
  /\ has_column s (upper table) (upper column) = has_column s table column
  /\ has_column s (lower table) (lower column) = has_column s table column.
Proof.
  intros _ _.
  assert (U : get_table s (upper table) = get_table s table).
  { unfold get_table. f_equal. apply ValidatorFacts.find_extensional.
    intros kt. apply name_matches_case. }
  assert (L : get_table s (lower table) = get_table s table).
  { unfold get_table. f_equal. apply ValidatorFacts.find_extensional.
    intros kt. apply name_matches_case. }
  assert (C : forall t, get_column t (upper column) = get_column t column
                        /\ get_column t (lower column) = get_column t column).
  { intros t. unfold get_column.
    split; apply ValidatorFacts.find_extensional; intros c; apply name_matches_case. }
  unfold has_table, has_column. rewrite U, L.
  repeat split; destruct (get_table s table) as [t|]; try reflexivity.
  - now rewrite (proj1 (C t)).
  - now rewrite (proj2 (C t)).
Qed.

Lemma lookups_ignore_case_shop :
  ascii_text "Orders" = true /\ ascii_text "Customer_Id" = true
  /\ has_column Demo.shop_schema "ORDERS" "CUSTOMER_ID"
     = has_column Demo.shop_schema "Orders" "Customer_Id".
Proof.
  split; [reflexivity|]. split; [reflexivity|].
  exact (proj1 (proj2 (proj2 (proj2 (proj2
           (lookups_ignore_case Demo.shop_schema "Orders" "Customer_Id"
              eq_refl eq_refl)))))).
Defined.

End LookupFacts.

(** ** Views without qualified names *)

Module Unqualified.

Import Py PyFacts Nx SchemaParser Models Validator.

Definition not_dot (c : ascii) : bool := negb (Ascii.eqb "." c).

Lemma contains_char_forall c s :
  contains_char c s = negb (forall_str (fun x => negb (Ascii.eqb c x)) s).
Proof.
  unfold contains_char. induction s as [|x r IH]; cbn; [reflexivity|].
  rewrite IH. destruct (Ascii.eqb c x); reflexivity.
Qed.

Lemma no_dot_iff s : contains_char "." s = false <-> forall_str not_dot s = true.
Proof.
  rewrite contains_char_forall. fold not_dot.
  destruct (forall_str not_dot s); cbn; split; congruence.
Qed.

Lemma forall_str_rev f s : forall_str f (rev_str s) = forall_str f s.
Proof.
  induction s as [|c r IH]; cbn [rev_str forall_str]; [reflexivity|].
  rewrite forall_str_append, IH. cbn. rewrite andb_true_r. apply andb_comm.
Qed.

Lemma forall_str_substring f n m s :
  forall_str f s = true -> forall_str f (substring n m s) = true.
Proof.
  revert n m. induction s as [|c r IH]; intros n m H.
  - destruct n, m; reflexivity.
  - cbn in H. apply andb_true_iff in H. destruct H as [Hc Hr].
    destruct n as [|n]; [destruct m as [|m]|]; cbn; auto.
    rewrite Hc. cbn. auto.
Qed.

Lemma drop_keyword_chars f body p :
  drop_keyword body = Some p -> forall_str f body = true -> forall_str f p = true.
Proof.
  unfold drop_keyword. intros H Hb. revert H.
  assert (C : forall k q,
            (let before := substring 0 (String.length body - k) body in
             if String.eqb (rstrip before) before then None else Some (rstrip before))
            = Some q -> forall_str f q = true).
  { intros k q. cbv zeta. destruct (String.eqb _ _); [discriminate|].
    intros E. inversion E. apply ModelsFacts.forall_str_rstrip.
    now apply forall_str_substring. }
  destruct (String.prefix "csed" _); [apply (C 4)|].
  destruct (String.prefix "csa" _); [apply (C 3) | discriminate].
Qed.

Lemma sub_order_suffix_chars f s :
  f newline = true -> forall_str f s = true -> forall_str f (sub_order_suffix s) = true.
Proof.
  intros Hn H. unfold sub_order_suffix.
  pose proof (forall_str_rev f s) as R. rewrite H in R.
  destruct (rev_str s) as [|c r']; [assumption|].
  cbn in R. apply andb_true_iff in R. destruct R as [_ Hr].
  destruct (Ascii.eqb c newline).
  - destruct (drop_keyword (rev_str r')) as [p|] eqn:D; [|assumption].
    rewrite forall_str_snoc, Hn, andb_true_r.
    apply (drop_keyword_chars f _ _ D). now rewrite forall_str_rev.
  - destruct (drop_keyword s) as [p|] eqn:D; [|assumption].
    now apply (drop_keyword_chars f _ _ D).
Qed.

Lemma lex_from_no_dot s :
  forall_str not_dot s = true ->
  forall cur, Forall (fun t => t <> TDot) (lex_from cur s).
Proof.
  induction s as [|c r IH]; cbn [forall_str lex_from]; intros H cur.
  - unfold flush. destruct (truthy cur); repeat constructor. discriminate.
  - apply andb_true_iff in H. destruct H as [Hc Hr].
    destruct (isword c); [now apply IH|].
    apply Forall_app. split.
    + unfold flush. destruct (truthy cur); repeat constructor. discriminate.
    + constructor; [|now apply IH]. unfold not_dot in Hc.
      rewrite Ascii.eqb_sym in Hc. destruct (Ascii.eqb c "."); discriminate.
Qed.

Lemma qualified_refs_no_dot ts :
  Forall (fun t => t <> TDot) ts -> qualified_refs ts = [].
Proof.
  induction 1 as [|t rest Ht Hrest IH]; cbn [qualified_refs]; [reflexivity|].
  destruct t as [a| |]; try exact IH.
  destruct rest as [|t1 rest1]; [exact IH|].
  destruct t1 as [b| |]; try exact IH.
  inversion Hrest. congruence.
Qed.

Lemma findall_qualified_no_dot s :
  contains_char "." s = false -> findall_qualified s = [].
Proof.
  intros H. apply qualified_refs_no_dot, lex_from_no_dot. now apply no_dot_iff.
Qed.

Section Checks.

Context {SO : SetOrder}.
Variable schema : Schema.

Lemma select_columns_no_dot select_list tables :
  Forall (fun e => contains_char "." e = false) select_list ->
  _validate_select_columns schema select_list tables = Ok [].
Proof.
  induction 1 as [|e rest He _ IH]; cbn [_validate_select_columns]; [reflexivity|].
  rewrite He. cbn [bind]. rewrite IH. reflexivity.
Qed.

Lemma conditions_no_dot conditions tables clause_name :
  Forall (fun e => contains_char "." e = false) conditions ->
  _validate_conditions schema conditions tables clause_name = [].
Proof.
  unfold _validate_conditions.
  induction 1 as [|e rest He _ IH]; cbn [flat_map]; [reflexivity|].
  now rewrite (findall_qualified_no_dot e He), IH.
Qed.

Lemma column_list_no_dot cols tables clause_name :
  Forall (fun e => contains_char "." e = false) cols ->
  _validate_column_list schema cols tables clause_name = [].
Proof.
  unfold _validate_column_list.
  induction 1 as [|e rest He _ IH]; cbn [flat_map]; [reflexivity|].
  rewrite IH, app_nil_r.
  assert (N : contains_char "." (strip (sub_order_suffix e)) = false).
  { apply no_dot_iff, ModelsFacts.forall_str_strip, sub_order_suffix_chars;
      [reflexivity | now apply no_dot_iff]. }
  now rewrite N.
Qed.

End Checks.

(** The expressions of a query outside its joins. *)
Definition clause (o : option (list string)) : list string :=
  match o with Some l => l | None => [] end.

Definition expressions (q : QuerySpecification) : list string :=
  select q ++ clause (where_ q) ++ clause (group_by q) ++ clause (having q)
    ++ clause (order_by q).

Lemma when_present_nil o check :
  check (clause o) = [] -> when_present o check = [].
Proof. destruct o as [[|x r]|]; cbn; auto. Qed.

(** X29.  A view over one table of the schema, without joins and without a
    dot in its select, WHERE, GROUP BY, HAVING and ORDER BY expressions, is
    valid whatever its expressions name: an unqualified column is not
    looked up in the schema.  The result has no warning and carries the
    compiled SQL. *)
Theorem unqualified_view_valid {SP : ShortestPath} {SO : SetOrder}
  (config : Config) (schema : Schema) (view : ViewDefinition) (base : string) :
  _extract_table_name (from_table (query view)) = Ok base ->
  has_table schema base = true ->
  joins (query view) = [] ->
  Forall (fun e => contains_char "." e = false) (expressions (query view)) ->
  validate_view config schema view
  = Ok (mkResult true (name view) [] [] (Some (_compile_to_sql view))).
Proof.
  intros Hb Ht Hj He. unfold expressions in He.
  apply Forall_app in He. destruct He as [H1 He].
  apply Forall_app in He. destruct He as [H2 He].
  apply Forall_app in He. destruct He as [H3 He].
  apply Forall_app in He. destruct He as [H4 H5].
  unfold validate_view, validate_view_with. rewrite Hb. cbn [bind].
  rewrite Ht, Hj. cbn [negb validate_joins bind].
  rewrite (select_columns_no_dot schema _ _ H1). cbn [bind app].
  rewrite (when_present_nil (where_ (query view)))
    by (now apply conditions_no_dot).
  rewrite (when_present_nil (group_by (query view)))
    by (now apply column_list_no_dot).
  rewrite (when_present_nil (having (query view)))
    by (now apply conditions_no_dot).
  rewrite (when_present_nil (order_by (query view)))
    by (now apply column_list_no_dot).
  reflexivity.
Qed.

Lemma unqualified_view_valid_shop :
  validate_view (SP := NxFacts.bfs_shortest_path) (SO := SetFacts.first_inserted)
    Demo.strict Demo.shop_schema
    (mkView "v" "" (mkQuery ["no_such_column"] "orders" []
                      (Some ["missing > 1"]) None None (Some ["other DESC"])))
  = Ok (mkResult true "v" [] []
          (Some (_compile_to_sql
                   (mkView "v" "" (mkQuery ["no_such_column"] "orders" []
                                     (Some ["missing > 1"]) None None
                                     (Some ["other DESC"])))))).
Proof.
  apply (unqualified_view_valid (SP := NxFacts.bfs_shortest_path)
           (SO := SetFacts.first_inserted) Demo.strict Demo.shop_schema
           (mkView "v" "" (mkQuery ["no_such_column"] "orders" []
                             (Some ["missing > 1"]) None None (Some ["other DESC"])))
           "orders"); try reflexivity.
  repeat constructor.
Defined.

End Unqualified.

(** ** When two views have the same signature *)

Module Signatures.

Import Py Models Validator Deduplication.

(** *** The order of strings *)

Lemma ascii_compare_N a b :
  Ascii.compare a b = BinNat.N.compare (N_of_ascii a) (N_of_ascii b).
Proof. reflexivity. Qed.



Lemma ascii_compare_refl a : Ascii.compare a a = Eq.
Proof. rewrite ascii_compare_N. apply BinNat.N.compare_refl. Qed.




(** *** [sorted] *)








End Signatures.
